(** * Thumbnail picker: frame-candidate planning, scoring and top-5 selection

    Shallow embedding of [server/index.js]: the prober
    [ffprobeDurationSeconds], the statistics parser [parseSignalstats], the
    scorer [scoreFrameJpg], the planner [makeCandidateTimes] and the selection
    run [autoPickTop5Times].

    Numbers.  A JavaScript number is modelled by [num]: a rational, the two
    infinities, or NaN.  The operators [+], [-], [*] and [/] compute as in
    binary64: the exact result is rounded to the nearest binary64 number, a
    tie to the even one, with gradual underflow and with overflow to an
    infinity ([round64]), and a decimal literal of the source denotes the
    binary64 number nearest to it ([lit]).  The comparisons, [Math.min],
    [Math.max], [Math.abs] and [Math.floor] are exact, as they are in
    binary64.  The behaviour of the operators on infinities and NaN and of
    the comparisons on NaN is that of ECMAScript; the sign of zero is not
    modelled.  Three computations are kept exact: the conversion of decimal
    text by [StringToNumber], the sums and quotients of the scorer, whose
    closed instances are evaluated on binary64 numbers as well
    ([scoreOf_b64]), and the difference of two scores in the comparison
    function of the sort, of which only the sign is used.  Where the code has
    tested a value with [Number.isFinite] the value is a rational [Q].

    Effects.  The external tools are reached through [runExecFile], whose
    promise either resolves with the two output streams or rejects.  A run is
    a computation in the error monad [result] over a [World] that fixes what
    each tool invocation answers.  Scratch files and directories do not
    influence any value computed here and are left out. *)

From Stdlib Require Import QArith Qround Qabs Qminmax Qpower Lqa Lia ZArith.
From Stdlib Require Import String Ascii List Sorted Permutation.
From Stdlib Require Import Floats.
From stdpp Require Import gmap strings pretty.
Import ListNotations.

Local Open Scope Q_scope.

(** ** JavaScript numbers *)

Inductive num : Type :=
| Fin (q : Q)
| PInf
| NInf
| NaN.

Declare Scope num_scope.
Delimit Scope num_scope with num.
Bind Scope num_scope with num.

(** Sign of a rational, as the comparison of it with zero. *)
Definition Qsign (q : Q) : comparison := q ?= 0.

Definition nneg (a : num) : num :=
  match a with
  | Fin x => Fin (- x)
  | PInf => NInf
  | NInf => PInf
  | NaN => NaN
  end.

Definition nadd (a b : num) : num :=
  match a, b with
  | NaN, _ | _, NaN => NaN
  | Fin x, Fin y => Fin (x + y)
  | PInf, NInf | NInf, PInf => NaN
  | PInf, _ | _, PInf => PInf
  | NInf, _ | _, NInf => NInf
  end.

Definition nsub (a b : num) : num := nadd a (nneg b).

(** An infinity with the sign [s]; a zero sign is the invalid operation. *)
Definition inf_of_sign (s : comparison) : num :=
  match s with
  | Gt => PInf
  | Lt => NInf
  | Eq => NaN
  end.

Definition sign_of (a : num) : comparison :=
  match a with
  | Fin x => Qsign x
  | PInf => Gt
  | NInf => Lt
  | NaN => Eq
  end.

Definition sign_mul (s t : comparison) : comparison :=
  match s, t with
  | Eq, _ | _, Eq => Eq
  | Gt, Gt | Lt, Lt => Gt
  | Gt, Lt | Lt, Gt => Lt
  end.

Definition nmul (a b : num) : num :=
  match a, b with
  | NaN, _ | _, NaN => NaN
  | Fin x, Fin y => Fin (x * y)
  | _, _ => inf_of_sign (sign_mul (sign_of a) (sign_of b))
  end.

(** Division; a zero divisor is taken as [+0]. *)
Definition ndiv (a b : num) : num :=
  match a, b with
  | NaN, _ | _, NaN => NaN
  | Fin x, Fin y =>
      match Qsign y with
      | Eq => inf_of_sign (Qsign x)
      | _ => Fin (x / y)
      end
  | Fin _, _ => Fin 0
  | _, Fin y =>
      match Qsign y with
      | Lt => nneg a
      | _ => a
      end
  | _, _ => NaN
  end.

(** The relational operators: every comparison with NaN is false. *)
Definition nle (a b : num) : bool :=
  match a, b with
  | NaN, _ | _, NaN => false
  | Fin x, Fin y => Qle_bool x y
  | NInf, _ | _, PInf => true
  | _, _ => false
  end.

Definition nlt (a b : num) : bool :=
  match a, b with
  | NaN, _ | _, NaN => false
  | Fin x, Fin y => negb (Qle_bool y x)
  | PInf, _ | _, NInf => false
  | _, _ => true
  end.

Definition nge (a b : num) : bool := nle b a.

(** [Math.min], [Math.max], [Math.abs], [Math.floor], [Number.isFinite]. *)
Definition nmin (a b : num) : num :=
  match a, b with
  | NaN, _ | _, NaN => NaN
  | Fin x, Fin y => Fin (Qmin x y)
  | NInf, _ | _, NInf => NInf
  | PInf, c | c, PInf => c
  end.

Definition nmax (a b : num) : num :=
  match a, b with
  | NaN, _ | _, NaN => NaN
  | Fin x, Fin y => Fin (Qmax x y)
  | PInf, _ | _, PInf => PInf
  | NInf, c | c, NInf => c
  end.

Definition nabs (a : num) : num :=
  match a with
  | Fin x => Fin (Qabs x)
  | PInf | NInf => PInf
  | NaN => NaN
  end.

Definition nfloor (a : num) : num :=
  match a with
  | Fin x => Fin (inject_Z (Qfloor x))
  | _ => a
  end.

Definition isFinite (a : num) : bool :=
  match a with
  | Fin _ => true
  | _ => false
  end.

Definition of_Z (z : Z) : num := Fin (inject_Z z).

(** ** Binary64

    An arithmetic operator of JavaScript computes the exact result and rounds
    it to the nearest binary64 number, a tie going to the one with an even
    significand; a result beyond the largest finite number becomes an
    infinity.  [nadd], [nsub], [nmul] and [ndiv] above are the exact
    results. *)

(** [floor(log2 q)] of a positive [q]. *)
Definition ilog2 (q : Q) : Z :=
  let k := (Z.log2 (Qnum q) - Z.log2 (Zpos (Qden q)))%Z in
  if Qle_bool (Qpower 2 k) q then k else (k - 1)%Z.

(** The nearest integer, the even one on a tie. *)
Definition roundHalfEven (q : Q) : Z :=
  let f := Qfloor q in
  match Qcompare (q - inject_Z f) (1 # 2) with
  | Lt => f
  | Gt => (f + 1)%Z
  | Eq => if Z.even f then f else (f + 1)%Z
  end.

(** The exponent of the last bit that is kept of a magnitude [a]: 53
    significant bits, and no bit below [2^-1074]. *)
Definition ulpExponent (a : Q) : Z := Z.max (ilog2 a - 52) (-1074).

Definition roundMagnitude (a : Q) : Q :=
  let e := ulpExponent a in
  inject_Z (roundHalfEven (a / 2 ^ e)) * 2 ^ e.

(** Rounding to nearest with the exponent unbounded above. *)
Definition roundNearest (q : Q) : Q :=
  match q ?= 0 with
  | Eq => 0
  | Gt => roundMagnitude q
  | Lt => - roundMagnitude (- q)
  end.

Definition round64 (q : Q) : num :=
  let v := roundNearest q in
  if Qle_bool (2 ^ 1024) v then PInf
  else if Qle_bool v (- 2 ^ 1024) then NInf
  else Fin v.

Definition r64 (a : num) : num :=
  match a with
  | Fin q => round64 q
  | _ => a
  end.

(** The value of a decimal literal of the source. *)
Definition lit (q : Q) : num := round64 q.

(** The operators [+], [-], [*] and [/]. *)
Definition add64 (a b : num) : num := r64 (nadd a b).
Definition sub64 (a b : num) : num := r64 (nsub a b).
Definition mul64 (a b : num) : num := r64 (nmul a b).
Definition div64 (a b : num) : num := r64 (ndiv a b).

Infix "+" := add64 : num_scope.
Infix "-" := sub64 : num_scope.
Infix "*" := mul64 : num_scope.
Infix "/" := div64 : num_scope.
Infix "<=?" := nle : num_scope.
Infix "<?" := nlt : num_scope.
Infix ">=?" := nge : num_scope.

(** Two numbers are the same value. *)
Definition num_eq (a b : num) : Prop :=
  match a, b with
  | Fin x, Fin y => x == y
  | PInf, PInf | NInf, NInf | NaN, NaN => True
  | _, _ => False
  end.

(** ** The candidate planner *)

(** The timestamp pushed by iteration [i] of the loop. *)
Definition candidateAt (duration start step : num) (i : Z) : num :=
  let t := (start + step * of_Z i)%num in
  nmax (Fin 0) (nmin (duration - lit 0.15)%num t).

(** The [for] loop of [makeCandidateTimes], from the value [i] of the loop
    variable on.  [fuel] bounds the number of iterations that are unfolded;
    the loop is left by its own test [i <= count] (see
    [candidateLoop_fuel]). *)
Fixpoint candidateLoop (fuel : nat) (i : Z) (count start step duration : num)
    (times : list num) : list num :=
  match fuel with
  | O => times
  | S fuel' =>
      if (of_Z i <=? count)%num then
        candidateLoop fuel' (i + 1)%Z count start step duration
          (times ++ [candidateAt duration start step i])
      else times
  end.

Definition candidateCount (duration : num) (maxCandidates : Z) : num :=
  nmin (of_Z maxCandidates) (nmax (Fin 40) (nfloor (duration / lit 0.35)%num)).

Definition makeCandidateTimes (duration : num) (maxCandidates : Z) : list num :=
  let start := (duration * lit 0.06)%num in
  let end_ := (duration * lit 0.94)%num in
  let span := nmax (Fin 0) (end_ - start)%num in
  let count := candidateCount duration maxCandidates in
  let step := (span / (count + Fin 1))%num in
  candidateLoop (Z.to_nat maxCandidates) 1 count start step duration [].

(** ** Conversion of a string to a number: [Number(s)] and [s.trim()]

    Strings are sequences of ASCII characters.  [StringToNumber] follows the
    grammar StringNumericLiteral of ECMAScript: optional white space around
    either nothing (the value is 0), a signed decimal literal with optional
    fraction and exponent, the word Infinity, or an unsigned binary, octal or
    hexadecimal integer.  Anything else is NaN. *)

Local Open Scope char_scope.

Definition code (c : ascii) : Z := Z.of_N (N_of_ascii c).

(** TAB, LF, VT, FF, CR and SPACE. *)
Definition isWhiteSpace (c : ascii) : bool :=
  ((9 <=? code c) && (code c <=? 13) || (code c =? 32))%Z.

Definition isDigit (c : ascii) : bool :=
  ((48 <=? code c) && (code c <=? 57))%Z.

Definition isUpper (c : ascii) : bool :=
  ((65 <=? code c) && (code c <=? 90))%Z.

(** The value of [c] as a digit in base [base] (2, 8, 10 or 16). *)
Definition digitValue (base : Z) (c : ascii) : option Z :=
  let n := code c in
  let v := if ((48 <=? n) && (n <=? 57))%Z then Some (n - 48)%Z
           else if ((97 <=? n) && (n <=? 102))%Z then Some (n - 87)%Z
           else if ((65 <=? n) && (n <=? 70))%Z then Some (n - 55)%Z
           else None in
  match v with
  | Some d => if (d <? base)%Z then Some d else None
  | None => None
  end.

Fixpoint trimStart (s : string) : string :=
  match s with
  | String c s' => if isWhiteSpace c then trimStart s' else s
  | EmptyString => EmptyString
  end.

Fixpoint trimEnd (s : string) : string :=
  match s with
  | EmptyString => EmptyString
  | String c s' =>
      match trimEnd s' with
      | EmptyString => if isWhiteSpace c then EmptyString else String c EmptyString
      | r => String c r
      end
  end.

Definition trim (s : string) : string := trimEnd (trimStart s).

(** The longest prefix of digits in base [base]: its value continuing from
    [acc], the number of digits read continuing from [n], and the rest. *)
Fixpoint takeDigits (base : Z) (s : string) (acc : Z) (n : nat) : Z * nat * string :=
  match s with
  | String c s' =>
      match digitValue base c with
      | Some d => takeDigits base s' (acc * base + d)%Z (S n)
      | None => (acc, n, s)
      end
  | EmptyString => (acc, n, s)
  end.

(** A literal whose value rounds beyond the largest binary64 number is
    Infinity: that is every value from [2^1024 - 2^970] on. *)
Definition overflowBound : Q := inject_Z (2 ^ 1024 - 2 ^ 970).

Definition literalValue (q : Q) : num :=
  if Qle_bool overflowBound q then PInf else Fin q.

(** ExponentPart, when present: [e] or [E], an optional sign, digits. *)
Definition parseExponent (s : string) : option Z :=
  match s with
  | EmptyString => Some 0%Z
  | String c r =>
      if (c =? "e") || (c =? "E") then
        let '(sgn, r') :=
          match r with
          | String c' r' =>
              if c' =? "+" then (1%Z, r')
              else if c' =? "-" then ((-1)%Z, r')
              else (1%Z, r)
          | EmptyString => (1%Z, r)
          end in
        match takeDigits 10 r' 0 0 with
        | (_, O, _) => None
        | (e, _, EmptyString) => Some (sgn * e)%Z
        | _ => None
        end
      else None
  end.

(** StrUnsignedDecimalLiteral: the value, or [None] when [s] is not one. *)
Definition parseUnsignedDecimal (s : string) : option num :=
  if (s =? "Infinity")%string then Some PInf
  else
    let '(ip, ni, r1) := takeDigits 10 s 0 0 in
    let '(fp, nf, r2) :=
      match r1 with
      | String c r => if c =? "." then takeDigits 10 r 0 0 else (0%Z, O, r1)
      | EmptyString => (0%Z, O, r1)
      end in
    match ni, nf with
    | O, O => None
    | _, _ =>
        match parseExponent r2 with
        | Some e =>
            let mantissa := inject_Z ip + inject_Z fp / inject_Z (10 ^ Z.of_nat nf) in
            Some (literalValue (mantissa * Qpower 10 e))
        | None => None
        end
    end.

(** NonDecimalIntegerLiteral: [0b], [0o] or [0x] and at least one digit. *)
Definition parseNonDecimal (s : string) : option num :=
  match s with
  | String z (String p r) =>
      let base :=
        if negb (z =? "0") then None
        else if (p =? "x") || (p =? "X") then Some 16%Z
        else if (p =? "o") || (p =? "O") then Some 8%Z
        else if (p =? "b") || (p =? "B") then Some 2%Z
        else None in
      match base with
      | Some b =>
          match takeDigits b r 0 0 with
          | (_, O, _) => None
          | (v, _, EmptyString) => Some (literalValue (inject_Z v))
          | _ => None
          end
      | None => None
      end
  | _ => None
  end.

Definition orNaN (o : option num) : num :=
  match o with
  | Some v => v
  | None => NaN
  end.

Definition StringToNumber (s : string) : num :=
  match trim s with
  | EmptyString => Fin 0
  | String c r =>
      if c =? "+" then orNaN (parseUnsignedDecimal r)
      else if c =? "-" then nneg (orNaN (parseUnsignedDecimal r))
      else
        match parseNonDecimal (String c r) with
        | Some v => v
        | None => orNaN (parseUnsignedDecimal (String c r))
        end
  end.

Local Close Scope char_scope.

(** ** Errors and the external tools *)

(** A promise that has settled: fulfilled with a value or rejected with the
    message of the [Error]. *)
Inductive result (A : Type) : Type :=
| Ok (a : A)
| Throw (message : string).

Arguments Ok {A} a.
Arguments Throw {A} message.

#[global] Instance result_ret : MRet result := fun A a => Ok a.

#[global] Instance result_bind : MBind result := fun A B k m =>
  match m with
  | Ok a => k a
  | Throw e => Throw e
  end.

(** What [execFile] hands to its callback: the two output streams, and the
    error message when the process could not run or exited with a failure. *)
Record ExecOutcome : Type := {
  execError : option string;
  execStdout : string;
  execStderr : string
}.

Definition exited (out err : string) : ExecOutcome :=
  {| execError := None; execStdout := out; execStderr := err |}.

Definition failed (message err : string) : ExecOutcome :=
  {| execError := Some message; execStdout := EmptyString; execStderr := err |}.

(** The scratch file [c_<i>_<ts>.jpg] of candidate [i] in the run's
    directory. *)
Record FramePath : Type := {
  frameIndex : nat;
  frameTs : num
}.

(** The answers of the external tools during one run. *)
Record World : Type := {
  (** [ffprobe -show_entries format=duration] on a video *)
  ffprobe : string -> ExecOutcome;
  (** [ffmpeg -ss ts -i video [-vf scale=width:-1] -frames:v 1 out] *)
  ffmpegExtract : string -> num -> option Z -> FramePath -> ExecOutcome;
  (** [ffmpeg -i jpg -vf format=gray,signalstats,metadata=print] *)
  ffmpegSignalstats : FramePath -> ExecOutcome;
  (** the same after [edgedetect] *)
  ffmpegEdgeSignalstats : FramePath -> ExecOutcome
}.

(** [runExecFile]: rejects with [stderr || err.message], resolves with both
    streams. *)
Definition runExecFile (o : ExecOutcome) : result (string * string) :=
  match execError o with
  | Some message =>
      Throw (if (execStderr o =? "")%string then message else execStderr o)
  | None => Ok (execStdout o, execStderr o)
  end.

(** ** The prober *)

Definition ffprobeDurationSeconds (w : World) (inputPath : string) : result Q :=
  out ← runExecFile (ffprobe w inputPath);
  match StringToNumber (trim (fst out)) with
  | Fin n => Ok n
  | _ => Throw "Bad duration"
  end.

(** ** The extractor *)

Definition extractJpgAt (w : World) (videoPath : string) (tsSeconds : num)
    (outPath : FramePath) (width : option Z) : result unit :=
  _ ← runExecFile (ffmpegExtract w videoPath tsSeconds width outPath);
  Ok tt.

(** ** The frame scorer *)

Definition statsPrefix : string := "lavfi.signalstats.".

(** A character of the class [[0-9.]]. *)
Definition isStatChar (c : ascii) : bool := isDigit c || (c =? ".")%char.

(** The longest prefix of characters satisfying [p], and the rest. *)
Fixpoint takeWhile (p : ascii -> bool) (s : string) : string * string :=
  match s with
  | String c s' =>
      if p c then let '(a, r) := takeWhile p s' in (String c a, r)
      else (EmptyString, s)
  | EmptyString => (EmptyString, EmptyString)
  end.

(** [s] without the prefix [p], when it starts with it. *)
Fixpoint dropPrefix (p s : string) : option string :=
  match p, s with
  | EmptyString, _ => Some s
  | String a p', String b s' => if (a =? b)%char then dropPrefix p' s' else None
  | String _ _, EmptyString => None
  end.

(** A match of [/lavfi\.signalstats\.([A-Z]+)=([0-9.]+)/] at the very start
    of [s]: the two groups and the length of the match.  Both classes are
    followed by a character outside of them or by the end, so the greedy
    match is the only one. *)
Definition matchStatAt (s : string) : option (string * string * nat) :=
  match dropPrefix statsPrefix s with
  | Some r =>
      match takeWhile isUpper r with
      | (String k0 k, String c r') =>
          if (c =? "=")%char then
            match takeWhile isStatChar r' with
            | (String v0 v, _) =>
                Some (String k0 k, String v0 v,
                      (String.length statsPrefix + String.length (String k0 k)
                       + 1 + String.length (String v0 v))%nat)
            | _ => None
            end
          else None
      | _ => None
      end
  | None => None
  end.

(** The successive results of [re.exec(stderr)] for the global regular
    expression: the leftmost match from the current position, then on from
    its end.  [skip] characters are still inside the previous match. *)
Fixpoint execAll (skip : nat) (s : string) : list (string * string) :=
  match s with
  | EmptyString => []
  | String _ s' =>
      match skip with
      | S n => execAll n s'
      | O =>
          match matchStatAt s with
          | Some (k, v, len) => (k, v) :: execAll (Nat.pred len) s'
          | None => execAll O s'
          end
      end
  end.

(** [parseSignalstats]: the object [out], one property per key, the last
    match winning. *)
Definition parseSignalstats (stderr : string) : gmap string num :=
  fold_left (fun out m => <[fst m := StringToNumber (snd m)]> out)
    (execAll 0 stderr) ∅.

(** The body of both [try] blocks: run the tool, parse what it printed. *)
Definition readStats (o : ExecOutcome) : result (gmap string num) :=
  r ← runExecFile o;
  Ok (parseSignalstats (snd r)).

(** [try { edgeStats = ... } catch { edgeStats = {} }]. *)
Definition orEmpty (r : result (gmap string num)) : gmap string num :=
  match r with
  | Ok stats => stats
  | Throw _ => ∅
  end.

(** [Number.isFinite(v)] for a property [v] that may be undefined. *)
Definition isFiniteProp (v : option num) : bool :=
  match v with
  | Some x => isFinite x
  | None => false
  end.

(** [Number.isFinite(v) ? v : d]. *)
Definition finiteOr (v : option num) (d : Q) : Q :=
  match v with
  | Some (Fin q) => q
  | _ => d
  end.

(** The three signals read off the two property objects. *)
Record Signals : Type := {
  yavg : Q;
  ystd : Q;
  edge : Q
}.

Definition signalsOf (baseStats edgeStats : gmap string num) : Signals :=
  {| yavg := finiteOr (baseStats !! "YAVG"%string) 128;
     ystd := finiteOr (baseStats !! "YSTD"%string) 0;
     edge := finiteOr (edgeStats !! "YAVG"%string) 0 |}.

Definition exposureOf (g : Signals) : Q := 1 - Qmin 1 (Qabs (yavg g - 128) / 128).
Definition contrastOf (g : Signals) : Q := Qmin 1 (ystd g / 64).
Definition sharpOf (g : Signals) : Q := Qmin 1 (edge g / 40).

Definition scoreOf (g : Signals) : Q :=
  exposureOf g * 0.45 + contrastOf g * 0.30 + sharpOf g * 0.25.

Definition scoreFrameJpg (w : World) (jpgPath : FramePath) : result Q :=
  match readStats (ffmpegSignalstats w jpgPath) with
  | Throw _ => Ok 0
  | Ok baseStats =>
      let edgeStats := orEmpty (readStats (ffmpegEdgeSignalstats w jpgPath)) in
      Ok (scoreOf (signalsOf baseStats edgeStats))
  end.

(** ** The top-5 selection *)

(** An entry of [scored]: a timestamp of the planner and the score of its
    frame, which [scoreFrameJpg] only returns as a finite number. *)
Record Scored : Type := {
  ts : num;
  score : Q
}.

(** [Array.prototype.sort] with a comparison function.  The sort is stable
    and a NaN answer of the comparison counts as 0; [x] goes behind [y] when
    [cmp x y > 0].  Insertion from the right computes the stable order. *)
Fixpoint sortInsert {A : Type} (cmp : A -> A -> num) (x : A) (l : list A) : list A :=
  match l with
  | [] => [x]
  | y :: l' => if (Fin 0 <? cmp x y)%num then y :: sortInsert cmp x l' else x :: l
  end.

Definition jsSort {A : Type} (cmp : A -> A -> num) (l : list A) : list A :=
  fold_right (sortInsert cmp) [] l.

(** The comparison functions [(a, b) => b.score - a.score] and
    [(a, b) => a.ts - b.ts].  The first keeps the exact difference of the
    scores: the sort uses the sign of the answer only, and the difference of
    two binary64 numbers has the sign of their exact difference. *)
Definition byScoreDesc (a b : Scored) : num := Fin (score b - score a).
Definition byTsAsc (a b : Scored) : num := (ts a - ts b)%num.

(** [picks.every((p) => Math.abs(p.ts - item.ts) >= gap)]. *)
Definition farFromAll (gap : num) (picks : list Scored) (item : Scored) : bool :=
  forallb (fun p => (nabs (ts p - ts item) >=? gap)%num) picks.

(** One greedy walk [for (const item of scored)] over [items], extending
    [picks]. *)
Fixpoint greedyPass (gap : num) (items picks : list Scored) : list Scored :=
  match items with
  | [] => picks
  | item :: rest =>
      if (5 <=? length picks)%nat then picks
      else if farFromAll gap picks item then greedyPass gap rest (picks ++ [item])
      else greedyPass gap rest picks
  end.

Definition minGapOf (duration : num) : num := nmax (lit 1.2) (duration * lit 0.06)%num.

(** The picks after the first walk, with the gap [minGap]. *)
Definition firstPass (duration : num) (scored : list Scored) : list Scored :=
  greedyPass (minGapOf duration) (jsSort byScoreDesc scored) [].

(** The picks after the relaxed walk, which runs when fewer than 5 were
    found. *)
Definition secondPass (duration : num) (scored : list Scored) : list Scored :=
  let picks := firstPass duration scored in
  if (length picks <? 5)%nat
  then greedyPass (Fin 1) (jsSort byScoreDesc scored) picks
  else picks.

(** Lines 186 to 207 of [autoPickTop5Times]: from the scored candidates to
    the picks in chronological order. *)
Definition selectTop (duration : num) (scored : list Scored) : list Scored :=
  jsSort byTsAsc (secondPass duration scored).

(** ** The selection run *)

(** The scoring loop over [candidates], from index [i] on.  It sits in a
    [try ... finally] without a [catch]: a rejection of the extraction leaves
    the loop and the run. *)
Fixpoint scoreLoop (w : World) (videoPath : string) (candidates : list num)
    (i : nat) (scored : list Scored) : result (list Scored) :=
  match candidates with
  | [] => Ok scored
  | t :: rest =>
      let jpg := {| frameIndex := i; frameTs := t |} in
      _ ← extractJpgAt w videoPath t jpg (Some 320%Z);
      s ← scoreFrameJpg w jpg;
      scoreLoop w videoPath rest (S i) (scored ++ [{| ts := t; score := s |}])
  end.

Definition autoPickTop5Times (w : World) (videoPath : string)
    : result (Q * list Scored) :=
  duration ← ffprobeDurationSeconds w videoPath;
  let candidates := makeCandidateTimes (Fin duration) 180 in
  scored ← scoreLoop w videoPath candidates 0 [];
  Ok (duration, selectTop (Fin duration) scored).

(** ** [uniqueWithGap] *)

(** [out[out.length - 1]], undefined for the empty array. *)
Fixpoint lastOf {A : Type} (l : list A) : option A :=
  match l with
  | [] => None
  | [x] => Some x
  | _ :: l' => lastOf l'
  end.

(** The loop [for (const t of sortedTimes)] with the array [out]. *)
Fixpoint uniqueLoop (minGapSeconds : num) (times out : list num) : list num :=
  match times with
  | [] => out
  | t :: rest =>
      let keep :=
        match lastOf out with
        | None => true
        | Some l => (nabs (t - l) >=? minGapSeconds)%num
        end in
      uniqueLoop minGapSeconds rest (if keep then out ++ [t] else out)
  end.

Definition uniqueWithGap (sortedTimes : list num) (minGapSeconds : num) : list num :=
  uniqueLoop minGapSeconds sortedTimes [].

(** ** The routes *)

(** [(req.query.ts || "mid").toString()] for a parameter that is absent or
    given once. *)
Definition tsParamOf (query : option string) : string :=
  match query with
  | Some s => if (s =? "")%string then "mid" else s
  | None => "mid"
  end.

(** The timestamp [ssSeconds] of the route [/api/thumbnail/:id]. *)
Definition thumbnailSeconds (w : World) (videoPath : string) (query : option string)
    : result Q :=
  let tsParam := tsParamOf query in
  if (tsParam =? "mid")%string then
    dur ← ffprobeDurationSeconds w videoPath;
    Ok (Qmax 0 (dur * 0.5))
  else
    Ok (match StringToNumber tsParam with
        | Fin n => Qmax 0 n
        | _ => 0
        end).

(** The file [thumb_<i+1>_<ts>s_score_<score>.jpg] of pick [i], named by its
    number and its timestamp. *)
Definition thumbPath (i : nat) (p : Scored) : FramePath :=
  {| frameIndex := S i; frameTs := ts p |}.

(** The loop of the route [/api/top5-zip/:id] over
    [i < Math.min(5, picks.length)], from [i] on: each pick is extracted in
    full size. *)
Fixpoint thumbLoop (w : World) (videoPath : string) (picks : list Scored)
    (i : nat) (files : list FramePath) : result (list FramePath) :=
  match picks with
  | [] => Ok files
  | p :: rest =>
      if (5 <=? i)%nat then Ok files
      else
        _ ← extractJpgAt w videoPath (ts p) (thumbPath i p) None;
        thumbLoop w videoPath rest (S i) (files ++ [thumbPath i p])
  end.

Definition top5Files (w : World) (videoPath : string) : result (list FramePath) :=
  r ← autoPickTop5Times w videoPath;
  thumbLoop w videoPath (snd r) 0 [].

(** [picks.slice(0, 3).map((p) => p.ts)] of the route [/api/caption/:id]. *)
Definition chosenOf (picks : list Scored) : list num := map ts (firstn 3 picks).

(** The file [cap_<i+1>_<ts>.jpg]. *)
Definition capPath (i : nat) (t : num) : FramePath :=
  {| frameIndex := S i; frameTs := t |}.

Fixpoint captionLoop (w : World) (videoPath : string) (chosen : list num)
    (i : nat) (framePaths : list FramePath) : result (list FramePath) :=
  match chosen with
  | [] => Ok framePaths
  | t :: rest =>
      _ ← extractJpgAt w videoPath t (capPath i t) None;
      captionLoop w videoPath rest (S i) (framePaths ++ [capPath i t])
  end.

Definition captionFrames (w : World) (videoPath : string) : result (list FramePath) :=
  r ← autoPickTop5Times w videoPath;
  captionLoop w videoPath (chosenOf (snd r)) 0 [].

(** ** [safeJoin] *)

(** Paths are those of a POSIX system: the separator is [/], and
    [process.cwd()] is an absolute path. *)

(** The segments of a path, between its separators. *)
Fixpoint segmentsOf (s : string) : list string :=
  match s with
  | EmptyString => [EmptyString]
  | String c s' =>
      if (c =? "/")%char then EmptyString :: segmentsOf s'
      else match segmentsOf s' with
           | seg :: rest => String c seg :: rest
           | [] => [String c EmptyString]
           end
  end.

(** The normalisation of an absolute path, segment by segment: an empty
    segment and [.] are dropped, [..] drops the segment kept last, if there
    is one. *)
Fixpoint normalizeSegments (segs res : list string) : list string :=
  match segs with
  | [] => res
  | seg :: rest =>
      if (seg =? "")%string || (seg =? ".")%string then normalizeSegments rest res
      else if (seg =? "..")%string then normalizeSegments rest (removelast res)
      else normalizeSegments rest (res ++ [seg])
  end.

Fixpoint joinSlash (segs : list string) : string :=
  match segs with
  | [] => EmptyString
  | [seg] => seg
  | seg :: rest => seg +:+ "/" +:+ joinSlash rest
  end.

Definition isAbsolute (p : string) : bool :=
  match p with
  | String c _ => (c =? "/")%char
  | EmptyString => false
  end.

(** The loop of [path.resolve] over its arguments from the last to the
    first: empty arguments are skipped, each other one is put in front with a
    separator, and the loop ends behind an absolute one.  When no argument is
    absolute the working directory [cwd] comes in front. *)
Fixpoint resolveLoop (revArgs : list string) (cwd resolvedPath : string) : string :=
  match revArgs with
  | [] => cwd +:+ "/" +:+ resolvedPath
  | p :: rest =>
      if (p =? "")%string then resolveLoop rest cwd resolvedPath
      else if isAbsolute p then p +:+ "/" +:+ resolvedPath
      else resolveLoop rest cwd (p +:+ "/" +:+ resolvedPath)
  end.

(** The segments of [path.resolve(...args)]. *)
Definition resolvedSegments (cwd : string) (args : list string) : list string :=
  normalizeSegments (segmentsOf (resolveLoop (rev args) cwd EmptyString)) [].

Definition pathResolve (cwd : string) (args : list string) : string :=
  "/" +:+ joinSlash (resolvedSegments cwd args).

(** [s.startsWith(p)]. *)
Fixpoint startsWith (s p : string) : bool :=
  match p with
  | EmptyString => true
  | String a p' =>
      match s with
      | String b s' => (a =? b)%char && startsWith s' p'
      | EmptyString => false
      end
  end.

Definition safeJoin (cwd base fileName : string) : result string :=
  let full := pathResolve cwd [base; fileName] in
  let baseResolved := pathResolve cwd [base] in
  if negb (startsWith full (baseResolved +:+ "/")) && negb (full =? baseResolved)%string
  then Throw "Invalid path"
  else Ok full.

(** ** The port and the name of an upload *)

(** A number counts as true unless it is 0 or NaN. *)
Definition truthy (a : num) : bool :=
  match a with
  | Fin q => negb (Qeq_bool q 0)
  | NaN => false
  | _ => true
  end.

(** [Number(process.env.PORT) || 5050]; an unset variable is [undefined] and
    converts to NaN. *)
Definition serverPort (envPort : option string) : num :=
  let n := match envPort with
           | Some s => StringToNumber s
           | None => NaN
           end in
  if truthy n then n else Fin 5050.

(** The class [\s] among the characters up to U+00FF: those of
    [isWhiteSpace] and the no-break space. *)
Definition isSpaceClass (c : ascii) : bool := isWhiteSpace c || (code c =? 160)%Z.

(** [s.replace(/\s+/g, "_")]: each run of white space becomes one underscore.
    [inRun] tells that the character before was white space. *)
Fixpoint replaceSpaceRuns (inRun : bool) (s : string) : string :=
  match s with
  | EmptyString => EmptyString
  | String c s' =>
      if isSpaceClass c then
        if inRun then replaceSpaceRuns true s'
        else String "_" (replaceSpaceRuns true s')
      else String c (replaceSpaceRuns false s')
  end.

(** The name under which multer stores an upload received at the time [now]
    (milliseconds). *)
Definition uploadFilename (now : N) (originalname : string) : string :=
  let safe := replaceSpaceRuns false originalname in
  pretty now +:+ "_" +:+ safe.

(** * Vocabulary of the properties *)

(** ** Binary64 numbers *)

(** The largest finite number, the bound [2^-53] of the relative error of a
    rounding and the bound [2^-1075] of its error near zero. *)
Definition maxDouble : Q := 2 ^ 1024 - 2 ^ 971.
Definition eps64 : Q := Eval vm_compute in 2 ^ (-53).
Definition eta64 : Q := Eval vm_compute in 2 ^ (-1075).

(** The values of the literals [0.06], [0.94], [0.15], [0.35] and [1.2]. *)
Definition q0_06 : Q := Eval vm_compute in roundNearest 0.06.
Definition q0_94 : Q := Eval vm_compute in roundNearest 0.94.
Definition q0_15 : Q := Eval vm_compute in roundNearest 0.15.
Definition q0_35 : Q := Eval vm_compute in roundNearest 0.35.
Definition q1_2 : Q := Eval vm_compute in roundNearest 1.2.

(** ** The planner on a finite duration

    The count as an integer, and the step and the timestamps as rationals,
    each operation rounded as the planner rounds it. *)

Definition countZ (d : Q) (maxCandidates : Z) : Z :=
  match round64 (d / q0_35) with
  | Fin q => Z.min maxCandidates (Z.max 40 (Qfloor q))
  | PInf => maxCandidates
  | _ => Z.min maxCandidates 40
  end.

Definition startQ (d : Q) : Q := roundNearest (d * q0_06).
Definition endQ (d : Q) : Q := roundNearest (d * q0_94).
Definition spanQ (d : Q) : Q := Qmax 0 (roundNearest (endQ d - startQ d)).
Definition capQ (d : Q) : Q := roundNearest (d - q0_15).

Definition stepQ (d : Q) (n : Z) : Q :=
  roundNearest (spanQ d / roundNearest (inject_Z n + 1)).

Definition rawTimeAt (d : Q) (n i : Z) : Q :=
  roundNearest (startQ d + roundNearest (stepQ d n * inject_Z i)).

Definition timeAt (d : Q) (n i : Z) : Q := Qmax 0 (Qmin (capQ d) (rawTimeAt d n i)).

(** A timestamp lies between [lo] and [hi] and not above [cap]. *)
Definition inWindow (lo hi cap : Q) (t : num) : Prop :=
  nle (Fin lo) t = true /\ nle t (Fin hi) = true /\ nle t (Fin cap) = true.

Definition ascending (l : list num) : Prop :=
  StronglySorted (fun a b => nlt a b = true) l.

Definition nondecreasing (l : list num) : Prop :=
  StronglySorted (fun a b => nle a b = true) l.

(** ** Text and the numbers read from it *)

(** Not below zero: a non-negative rational, [+Infinity], or NaN. *)
Definition notNegative (v : num) : Prop :=
  match v with
  | Fin q => 0 <= q
  | NInf => False
  | PInf | NaN => True
  end.

Fixpoint allChars (p : ascii -> bool) (s : string) : bool :=
  match s with
  | EmptyString => true
  | String c s' => p c && allChars p s'
  end.

(** ** Picks *)

(** [a] and [b] are at least [gap] apart: [Math.abs(a.ts - b.ts) >= gap]. *)
Definition apart (gap : num) (a b : Scored) : Prop :=
  nge (nabs (ts a - ts b)) gap = true.

(** Every two entries at different positions of [l] are [gap] apart. *)
Definition allApart (gap : num) (l : list Scored) : Prop :=
  forall (i j : nat) (a b : Scored),
    i <> j -> nth_error l i = Some a -> nth_error l j = Some b -> apart gap a b.

(** Strictly ascending timestamps. *)
Definition chronological (l : list Scored) : Prop :=
  StronglySorted (fun a b => nlt (ts a) (ts b) = true) l.

(** [R] agrees with the comparison on the pair [x], [y]: the one that the
    comparison puts behind is on the right of [R]. *)
Definition ordersBy {A : Type} (cmp : A -> A -> num) (R : A -> A -> Prop)
    (x y : A) : Prop :=
  if (Fin 0 <? cmp x y)%num then R y x else R x y.

(** ** The weighted sum in binary64

    Lines 139 to 143 of [scoreFrameJpg] on IEEE 754 binary64 numbers, to
    recheck in the arithmetic of the engine the closed instances of the
    score. *)

Definition min1_b64 (x : float) : float :=
  if PrimFloat.is_nan x then x else if (x <? 1)%float then x else 1%float.

#[local] Set Warnings "-inexact-float".

Definition scoreOf_b64 (yavg ystd edge : float) : float :=
  let exposure := (1 - min1_b64 (PrimFloat.abs (yavg - 128) / 128))%float in
  let contrast := min1_b64 (ystd / 64)%float in
  let sharp := min1_b64 (edge / 40)%float in
  (exposure * 0.45 + contrast * 0.30 + sharp * 0.25)%float.

#[local] Set Warnings "+inexact-float".

(** ** Sample inputs *)

(** A frame whose statistics read [YAVG=128], [YSTD=64] and, after edge
    detection, [YAVG=40]. *)
Definition idealFrameWorld : World :=
  {| ffprobe := fun _ => exited "60.000000" "";
     ffmpegExtract := fun _ _ _ _ => exited "" "";
     ffmpegSignalstats := fun _ =>
       exited "" "lavfi.signalstats.YAVG=128 lavfi.signalstats.YSTD=64";
     ffmpegEdgeSignalstats := fun _ => exited "" "lavfi.signalstats.YAVG=40" |}.

(** A frame whose base statistics lack [YSTD] and whose edge statistics
    cannot be obtained. *)
Definition noEdgeWorld : World :=
  {| ffprobe := fun _ => exited "60.000000" "";
     ffmpegExtract := fun _ _ _ _ => exited "" "";
     ffmpegSignalstats := fun _ => exited "" "lavfi.signalstats.YAVG=96";
     ffmpegEdgeSignalstats := fun _ => failed "Command failed" "" |}.

(** A video for which the tool prints nothing and exits normally. *)
Definition silentProbeWorld : World :=
  {| ffprobe := fun _ => exited "" "";
     ffmpegExtract := fun _ _ _ _ => exited "" "";
     ffmpegSignalstats := fun _ => exited "" "";
     ffmpegEdgeSignalstats := fun _ => exited "" "" |}.

(** A 60 second video of which every frame can be extracted but that of
    candidate 3. *)
Definition brokenFrameWorld : World :=
  {| ffprobe := fun _ => exited "60.000000" "";
     ffmpegExtract := fun _ _ _ out =>
       if (frameIndex out =? 3)%nat
       then failed "Command failed" "Invalid data found when processing input"
       else exited "" "";
     ffmpegSignalstats := fun _ =>
       exited "" "lavfi.signalstats.YAVG=128 lavfi.signalstats.YSTD=32";
     ffmpegEdgeSignalstats := fun _ => exited "" "lavfi.signalstats.YAVG=20" |}.

(** A pool of seven candidates on a 60 second video, and one whose two
    entries are half a second apart. *)
Definition samplePool : list Scored :=
  [ {| ts := Fin 1; score := 0.5 |}; {| ts := Fin 5; score := 0.9 |};
    {| ts := Fin 2; score := 0.7 |}; {| ts := Fin 3; score := 0.7 |};
    {| ts := Fin 9; score := 0.1 |}; {| ts := Fin 14; score := 0.2 |};
    {| ts := Fin 20; score := 0.3 |} ].

Definition closePool : list Scored :=
  [ {| ts := Fin 1; score := 0.5 |}; {| ts := Fin 1.5; score := 0.9 |} ].

(** ** Proof steps that recur *)

(** Case analysis on each [Qmin] and [Qmax] of the goal and its hypotheses:
    the term is named and the two cases of its specification are kept. *)
Ltac minmax_case_on t spec :=
  let m := fresh "m" in
  destruct spec as [[? ?]|[? ?]]; set (m := t) in *; clearbody m.

Ltac minmax_cases :=
  repeat match goal with
         | |- context [Qmax ?a ?b] => minmax_case_on (Qmax a b) (Q.max_spec a b)
         | |- context [Qmin ?a ?b] => minmax_case_on (Qmin a b) (Q.min_spec a b)
         | _ : context [Qmax ?a ?b] |- _ =>
             minmax_case_on (Qmax a b) (Q.max_spec a b)
         | _ : context [Qmin ?a ?b] |- _ =>
             minmax_case_on (Qmin a b) (Q.min_spec a b)
         end.

(** ** Counting timestamps *)

(** A length as a rational. *)
Definition nq (k : nat) : Q := inject_Z (Z.of_nat k).

(** Ascending with every later entry at least [s] above every earlier one. *)
Definition spaced (s : Q) (l : list Q) : Prop :=
  StronglySorted (fun a b => a + s <= b) l.

(** [t] is less than [g] away from [c]. *)
Definition nearb (g c t : Q) : bool := negb (Qle_bool g (Qabs (c - t))).

(** The rational of a finite number. *)
Definition qOf (a : num) : Q :=
  match a with
  | Fin q => q
  | _ => 0
  end.

(** The timestamps of the planner for a finite duration and 180 candidates,
    as rationals. *)
Definition plannedQ (d : Q) : list Q :=
  map (fun k => timeAt d (countZ d 180) (Z.of_nat k))
    (seq 1 (Z.to_nat (countZ d 180))).

(** A pool with one entry per planned timestamp, all of the same score. *)
Definition flatPool (d : Q) : list Scored :=
  map (fun t => {| ts := t; score := 0.5 |}) (makeCandidateTimes (Fin d) 180).

(** ** Lines of statistics

    A line as the tool prints it: some text before the marker, the key, the
    value, a line feed. *)

Record StatLine : Type := {
  lineJunk : string;
  lineKey : string;
  lineValue : string
}.

Definition lineFeed : string := String "010" EmptyString.

Definition renderLine (l : StatLine) : string :=
  lineJunk l +:+ statsPrefix +:+ lineKey l +:+ "=" +:+ lineValue l +:+ lineFeed.

Definition renderLines (ls : list StatLine) : string :=
  fold_right (fun l acc => renderLine l +:+ acc) EmptyString ls.

(** Any character but the first one of the marker. *)
Definition notMarkerStart (c : ascii) : bool := negb (c =? "l")%char.

(** The text before the marker holds no [l]; the key is a non-empty run of
    capitals and the value a non-empty run of digits and dots. *)
Definition wellFormedLine (l : StatLine) : Prop :=
  allChars notMarkerStart (lineJunk l) = true
  /\ lineKey l <> EmptyString /\ allChars isUpper (lineKey l) = true
  /\ lineValue l <> EmptyString /\ allChars isStatChar (lineValue l) = true.

Definition sampleLines : list StatLine :=
  [ {| lineJunk := "[Parsed_metadata_2 @ 0x55d0] "; lineKey := "YAVG"; lineValue := "97.25" |};
    {| lineJunk := "[Parsed_metadata_2 @ 0x55d0] "; lineKey := "YSTD"; lineValue := "41.5" |};
    {| lineJunk := ""; lineKey := "YAVG"; lineValue := "120" |} ].

(** ** Gaps between numbers *)

(** [b] is at least [gap] away from [a]: [Math.abs(b - a) >= gap]. *)
Definition gapped (gap a b : num) : Prop := nge (nabs (b - a)) gap = true.

(** ** Requests *)

(** A 60 second video whose frames can be extracted at the width of the
    scoring but not at full size. *)
Definition fullSizeFailsWorld : World :=
  {| ffprobe := fun _ => exited "60.000000" "";
     ffmpegExtract := fun _ _ width _ =>
       match width with
       | Some _ => exited "" ""
       | None => failed "Command failed" "Conversion failed!"
       end;
     ffmpegSignalstats := fun _ =>
       exited "" "lavfi.signalstats.YAVG=128 lavfi.signalstats.YSTD=64";
     ffmpegEdgeSignalstats := fun _ => exited "" "lavfi.signalstats.YAVG=40" |}.

(** A video whose duration cannot be read. *)
Definition noProbeWorld : World :=
  {| ffprobe := fun _ => failed "Command failed" "No such file or directory";
     ffmpegExtract := fun _ _ _ _ => exited "" "";
     ffmpegSignalstats := fun _ => exited "" "";
     ffmpegEdgeSignalstats := fun _ => exited "" "" |}.

(** ** Names *)

(** No character of [s] is in the class [\s]. *)
Definition noSpace (s : string) : Prop :=
  allChars (fun c => negb (isSpaceClass c)) s = true.

(** ** Paths *)

(** No character of [s] is a separator. *)
Definition noSlash (s : string) : Prop :=
  allChars (fun c => negb (c =? "/")%char) s = true.

(** A segment that names a file or a directory: not empty, not [.], not
    [..], and without a separator. *)
Definition plainSegment (seg : string) : Prop :=
  seg <> EmptyString /\ seg <> "." /\ seg <> ".." /\ noSlash seg.

(** The segments [inner] start with the segments [outer]. *)
Definition under (outer inner : list string) : Prop :=
  exists rest : list string, inner = outer ++ rest.

(** * Properties *)

(** ** Arithmetic of [num] *)

Lemma Qsign_pos (q : Q) : 0 < q -> Qsign q = Gt.
Proof. intros H. unfold Qsign. now apply Qgt_alt. Qed.

Lemma Qsign_neg (q : Q) : q < 0 -> Qsign q = Lt.
Proof. intros H. unfold Qsign. now apply Qlt_alt. Qed.

Lemma ndiv_Fin_pos (x y : Q) : 0 < y -> ndiv (Fin x) (Fin y) = Fin (x / y).
Proof. intros H. unfold ndiv. now rewrite (Qsign_pos y H). Qed.

Lemma Qcompare_inject_Z (a b : Z) : (inject_Z a ?= inject_Z b) = (a ?= b)%Z.
Proof. unfold Qcompare. simpl. now rewrite !Z.mul_1_r. Qed.

Lemma Qmax_inject_Z (a b : Z) : Qmax (inject_Z a) (inject_Z b) = inject_Z (Z.max a b).
Proof.
  unfold Qmax, GenericMinMax.gmax, Z.max. rewrite Qcompare_inject_Z.
  now destruct (a ?= b)%Z.
Qed.

Lemma Qmin_inject_Z (a b : Z) : Qmin (inject_Z a) (inject_Z b) = inject_Z (Z.min a b).
Proof.
  unfold Qmin, GenericMinMax.gmin, Z.min. rewrite Qcompare_inject_Z.
  now destruct (a ?= b)%Z.
Qed.

Lemma nle_of_Z (a b : Z) : nle (of_Z a) (of_Z b) = (a <=? b)%Z.
Proof.
  unfold nle, of_Z. apply eq_true_iff_eq.
  rewrite Qle_bool_iff, <- Zle_Qle. symmetry. apply Z.leb_le.
Qed.

(** ** Rounding to the nearest integer *)

Lemma rhe_cases (q : Q) :
  roundHalfEven q = Qfloor q \/ roundHalfEven q = (Qfloor q + 1)%Z.
Proof.
  unfold roundHalfEven. destruct ((q - inject_Z (Qfloor q)) ?= (1 # 2)); auto.
  destruct (Z.even (Qfloor q)); auto.
Qed.

Lemma Qfloor_frac (q : Q) : 0 <= q - inject_Z (Qfloor q) < 1.
Proof.
  pose proof (Qfloor_le q). pose proof (Qlt_floor q).
  rewrite inject_Z_plus in H0. change (inject_Z 1) with 1 in H0. lra.
Qed.

Lemma rhe_error (q : Q) : Qabs (inject_Z (roundHalfEven q) - q) <= 1 # 2.
Proof.
  pose proof (Qfloor_frac q) as Hf. unfold roundHalfEven.
  destruct ((q - inject_Z (Qfloor q)) ?= (1 # 2)) eqn:E.
  - apply Qeq_alt in E. destruct (Z.even (Qfloor q)).
    + apply Qabs_Qle_condition. lra.
    + rewrite inject_Z_plus. change (inject_Z 1) with 1.
      apply Qabs_Qle_condition. lra.
  - apply Qlt_alt in E. apply Qabs_Qle_condition. lra.
  - apply Qgt_alt in E. rewrite inject_Z_plus. change (inject_Z 1) with 1.
    apply Qabs_Qle_condition. lra.
Qed.

Lemma rhe_comp (q q' : Q) : q == q' -> roundHalfEven q = roundHalfEven q'.
Proof.
  intros H. unfold roundHalfEven. rewrite <- (Qfloor_comp _ _ H).
  assert (E : ((q - inject_Z (Qfloor q)) ?= (1 # 2)) = ((q' - inject_Z (Qfloor q)) ?= (1 # 2)))
    by (apply Qcompare_comp; [lra | reflexivity]).
  now rewrite E.
Qed.

Lemma rhe_Z (n : Z) : roundHalfEven (inject_Z n) = n.
Proof.
  unfold roundHalfEven. rewrite Qfloor_Z.
  assert (E : ((inject_Z n - inject_Z n) ?= (1 # 2)) = Lt).
  { apply Qlt_alt. unfold Qminus. now rewrite Qplus_opp_r. }
  now rewrite E.
Qed.

Lemma rhe_mono (q q' : Q) : q <= q' -> (roundHalfEven q <= roundHalfEven q')%Z.
Proof.
  intros H. pose proof (Qfloor_resp_le _ _ H) as Hf.
  destruct (Z.eq_dec (Qfloor q) (Qfloor q')) as [E | NE].
  - unfold roundHalfEven. rewrite <- E.
    destruct (Qcompare_spec (q - inject_Z (Qfloor q)) (1 # 2)) as [E1|E1|E1];
      destruct (Qcompare_spec (q' - inject_Z (Qfloor q)) (1 # 2)) as [E2|E2|E2];
      try (exfalso; lra); try lia; destruct (Z.even (Qfloor q)); lia.
  - destruct (rhe_cases q) as [-> | ->], (rhe_cases q') as [-> | ->]; lia.
Qed.

(** ** Powers of two *)

Lemma pow2_pos (e : Z) : 0 < 2 ^ e.
Proof. now apply Qpower_0_lt. Qed.

Lemma pow2_plus (a b : Z) : 2 ^ (a + b) == 2 ^ a * 2 ^ b.
Proof. apply Qpower_plus. discriminate. Qed.

Lemma pow2_succ (a : Z) : 2 ^ (a + 1) == 2 * 2 ^ a.
Proof. rewrite pow2_plus. change (2 ^ 1) with 2. ring. Qed.

Lemma pow2_le (a b : Z) : (a <= b)%Z -> 2 ^ a <= 2 ^ b.
Proof. intros H. apply Qpower_le_compat_l; [exact H | discriminate]. Qed.

Lemma pow2_lt (a b : Z) : (a < b)%Z -> 2 ^ a < 2 ^ b.
Proof. intros H. apply Qpower_lt_compat_l; [exact H | reflexivity]. Qed.

Lemma pow2_lt_inv (a b : Z) : 2 ^ a < 2 ^ b -> (a < b)%Z.
Proof. intros H. apply (Qpower_lt_compat_l_inv 2); [exact H | reflexivity]. Qed.

Lemma pow2_inject (n : Z) : (0 <= n)%Z -> inject_Z (2 ^ n) == 2 ^ n.
Proof. intros H. now rewrite Zpower_Qpower. Qed.

(** ** The binary logarithm *)

Lemma ilog2_spec (q : Q) : 0 < q -> 2 ^ ilog2 q <= q < 2 ^ (ilog2 q + 1).
Proof.
  intros Hq. unfold ilog2.
  destruct q as [n d]. cbn [Qnum Qden].
  assert (Hn : (0 < n)%Z).
  { unfold Qlt in Hq. cbn in Hq. lia. }
  set (a := Z.log2 n). set (b := Z.log2 (Z.pos d)).
  destruct (Z.log2_spec n Hn) as [Ha1 Ha2]. fold a in Ha1, Ha2.
  destruct (Z.log2_spec (Z.pos d) eq_refl) as [Hb1 Hb2]. fold b in Hb1, Hb2.
  assert (Ha : (0 <= a)%Z) by apply Z.log2_nonneg.
  assert (Hb : (0 <= b)%Z) by apply Z.log2_nonneg.
  assert (Hq' : n # d == inject_Z n / inject_Z (Z.pos d)) by apply Qmake_Qdiv.
  assert (Hd : 0 < inject_Z (Z.pos d)) by reflexivity.
  assert (Q1 : 2 ^ a <= inject_Z n).
  { rewrite <- pow2_inject by exact Ha. now rewrite <- Zle_Qle. }
  assert (Q2 : inject_Z n < 2 ^ (a + 1)).
  { rewrite <- pow2_inject by lia. rewrite <- Zlt_Qlt. lia. }
  assert (Q3 : 2 ^ b <= inject_Z (Z.pos d)).
  { rewrite <- pow2_inject by exact Hb. now rewrite <- Zle_Qle. }
  assert (Q4 : inject_Z (Z.pos d) < 2 ^ (b + 1)).
  { rewrite <- pow2_inject by lia. rewrite <- Zlt_Qlt. lia. }
  assert (Lo : 2 ^ (a - b - 1) * inject_Z (Z.pos d) < inject_Z n).
  { apply Qlt_le_trans with (2 ^ (a - b - 1) * 2 ^ (b + 1)).
    - apply Qmult_lt_l; [apply pow2_pos | exact Q4].
    - rewrite <- pow2_plus. replace (a - b - 1 + (b + 1))%Z with a by lia. exact Q1. }
  assert (Hi : inject_Z n < 2 ^ (a - b + 1) * inject_Z (Z.pos d)).
  { apply Qlt_le_trans with (2 ^ (a - b + 1) * 2 ^ b).
    - rewrite <- pow2_plus. replace (a - b + 1 + b)%Z with (a + 1)%Z by lia. exact Q2.
    - apply Qmult_le_l; [apply pow2_pos | exact Q3]. }
  assert (Lo' : 2 ^ (a - b - 1) < n # d).
  { rewrite Hq'. apply Qlt_shift_div_l; assumption. }
  assert (Hi' : n # d < 2 ^ (a - b + 1)).
  { rewrite Hq'. apply Qlt_shift_div_r; assumption. }
  destruct (Qle_bool (2 ^ (a - b)) (n # d)) eqn:E.
  - apply Qle_bool_iff in E. split; assumption.
  - split; [apply Qlt_le_weak; exact Lo' |].
    replace (a - b - 1 + 1)%Z with (a - b)%Z by lia.
    apply Qnot_le_lt. intros H. apply Qle_bool_iff in H. congruence.
Qed.

Lemma ilog2_unique (q : Q) (k : Z) : 2 ^ k <= q < 2 ^ (k + 1) -> ilog2 q = k.
Proof.
  intros [H1 H2].
  assert (Hq : 0 < q) by (pose proof (pow2_pos k); lra).
  destruct (ilog2_spec q Hq) as [H3 H4].
  assert (k < ilog2 q + 1)%Z by (apply pow2_lt_inv; lra).
  assert (ilog2 q < k + 1)%Z by (apply pow2_lt_inv; lra).
  lia.
Qed.

Lemma ilog2_mono (a b : Q) : 0 < a -> a <= b -> (ilog2 a <= ilog2 b)%Z.
Proof.
  intros Ha Hab.
  destruct (ilog2_spec a Ha) as [H1 _].
  destruct (ilog2_spec b ltac:(lra)) as [_ H2].
  assert (ilog2 a < ilog2 b + 1)%Z by (apply pow2_lt_inv; lra).
  lia.
Qed.

Lemma ilog2_comp (a b : Q) : a == b -> 0 < a -> ilog2 a = ilog2 b.
Proof.
  intros H Ha. apply eq_sym, ilog2_unique. rewrite <- H. now apply ilog2_spec.
Qed.

(** ** Rounding a magnitude to 53 bits *)

Lemma ulpExponent_ge (a : Q) : (-1074 <= ulpExponent a)%Z.
Proof. unfold ulpExponent. lia. Qed.

Lemma ulpExponent_mono (a b : Q) : 0 < a -> a <= b -> (ulpExponent a <= ulpExponent b)%Z.
Proof.
  intros Ha Hab. pose proof (ilog2_mono a b Ha Hab). unfold ulpExponent. lia.
Qed.

Lemma scaled_lt (a : Q) : 0 < a -> a / 2 ^ ulpExponent a < 2 ^ 53.
Proof.
  intros Ha. apply Qlt_shift_div_r; [apply pow2_pos |].
  rewrite <- pow2_plus. destruct (ilog2_spec a Ha) as [_ H].
  apply Qlt_le_trans with (1 := H). apply pow2_le. unfold ulpExponent. lia.
Qed.

Lemma scaled_ge (a : Q) :
  0 < a -> (-1074 < ulpExponent a)%Z -> 2 ^ 52 <= a / 2 ^ ulpExponent a.
Proof.
  intros Ha He. apply Qle_shift_div_l; [apply pow2_pos |].
  rewrite <- pow2_plus. destruct (ilog2_spec a Ha) as [H _].
  apply Qle_trans with (2 := H). apply pow2_le. unfold ulpExponent in *. lia.
Qed.

Lemma rhe_le_pow2 (q : Q) (n : Z) :
  (0 <= n)%Z -> q <= 2 ^ n -> inject_Z (roundHalfEven q) <= 2 ^ n.
Proof.
  intros Hn H. rewrite <- pow2_inject by exact Hn. rewrite <- Zle_Qle.
  rewrite <- (rhe_Z (2 ^ n)). apply rhe_mono. now rewrite pow2_inject.
Qed.

Lemma rhe_ge_pow2 (q : Q) (n : Z) :
  (0 <= n)%Z -> 2 ^ n <= q -> 2 ^ n <= inject_Z (roundHalfEven q).
Proof.
  intros Hn H. rewrite <- pow2_inject by exact Hn. rewrite <- Zle_Qle.
  rewrite <- (rhe_Z (2 ^ n)) at 1. apply rhe_mono. now rewrite pow2_inject.
Qed.

Lemma rhe_nonneg (q : Q) : 0 <= q -> (0 <= roundHalfEven q)%Z.
Proof. intros H. rewrite <- (rhe_Z 0). now apply rhe_mono. Qed.

Lemma roundMagnitude_nonneg (a : Q) : 0 < a -> 0 <= roundMagnitude a.
Proof.
  intros Ha. unfold roundMagnitude. apply Qmult_le_0_compat.
  - change 0 with (inject_Z 0). rewrite <- Zle_Qle. apply rhe_nonneg.
    apply Qle_shift_div_l; [apply pow2_pos | lra].
  - apply Qlt_le_weak, pow2_pos.
Qed.

Lemma roundMagnitude_upper (a : Q) :
  0 < a -> roundMagnitude a <= 2 ^ (ulpExponent a + 53).
Proof.
  intros Ha. unfold roundMagnitude. rewrite pow2_plus, (Qmult_comm (2 ^ _)).
  apply Qmult_le_compat_r; [| apply Qlt_le_weak, pow2_pos].
  apply rhe_le_pow2; [lia |]. now apply Qlt_le_weak, scaled_lt.
Qed.

Lemma roundMagnitude_lower (a : Q) :
  0 < a -> (-1074 < ulpExponent a)%Z -> 2 ^ (ulpExponent a + 52) <= roundMagnitude a.
Proof.
  intros Ha He. unfold roundMagnitude. rewrite pow2_plus, (Qmult_comm (2 ^ _)).
  apply Qmult_le_compat_r; [| apply Qlt_le_weak, pow2_pos].
  apply rhe_ge_pow2; [lia |]. now apply scaled_ge.
Qed.

Lemma roundMagnitude_mono (a b : Q) :
  0 < a -> a <= b -> roundMagnitude a <= roundMagnitude b.
Proof.
  intros Ha Hab. assert (Hb : 0 < b) by lra.
  pose proof (ulpExponent_mono a b Ha Hab) as He.
  destruct (Z.eq_dec (ulpExponent a) (ulpExponent b)) as [E | NE].
  - unfold roundMagnitude. rewrite E.
    apply Qmult_le_compat_r; [| apply Qlt_le_weak, pow2_pos].
    rewrite <- Zle_Qle. apply rhe_mono.
    apply Qmult_le_compat_r; [exact Hab |].
    apply Qlt_le_weak, Qinv_lt_0_compat, pow2_pos.
  - apply Qle_trans with (1 := roundMagnitude_upper a Ha).
    apply Qle_trans with (2 := roundMagnitude_lower b Hb
                                 ltac:(pose proof (ulpExponent_ge a); lia)).
    apply pow2_le. lia.
Qed.

Lemma roundMagnitude_error (a : Q) :
  0 < a -> Qabs (roundMagnitude a - a) <= (1 # 2) * 2 ^ ulpExponent a.
Proof.
  intros Ha. unfold roundMagnitude. set (e := ulpExponent a).
  pose proof (pow2_pos e) as He.
  pose proof (rhe_error (a / 2 ^ e)) as H.
  assert (E : inject_Z (roundHalfEven (a / 2 ^ e)) * 2 ^ e - a
              == (inject_Z (roundHalfEven (a / 2 ^ e)) - a / 2 ^ e) * 2 ^ e).
  { field. lra. }
  rewrite E, Qabs_Qmult, (Qabs_pos (2 ^ e)) by lra.
  apply Qmult_le_compat_r; [exact H | lra].
Qed.

(** The relative error is at most [2^-53] on the normal range. *)
Lemma roundMagnitude_relative (a : Q) :
  2 ^ (-1022) <= a -> Qabs (roundMagnitude a - a) <= 2 ^ (-53) * a.
Proof.
  intros Hn. assert (Ha : 0 < a) by (pose proof (pow2_pos (-1022)); lra).
  apply Qle_trans with (1 := roundMagnitude_error a Ha).
  destruct (ilog2_spec a Ha) as [H1 H2].
  assert (Hk : (-1022 <= ilog2 a)%Z).
  { assert (-1022 < ilog2 a + 1)%Z by (apply pow2_lt_inv; lra). lia. }
  replace (ulpExponent a) with (ilog2 a - 52)%Z by (unfold ulpExponent; lia).
  assert (E : (1 # 2) * 2 ^ (ilog2 a - 52) == 2 ^ (-53) * 2 ^ ilog2 a).
  { replace (ilog2 a - 52)%Z with (ilog2 a + -53 + 1)%Z by lia.
    rewrite pow2_succ, pow2_plus. ring. }
  rewrite E. apply Qmult_le_l; [apply pow2_pos | exact H1].
Qed.

(** A number with at most 53 significant bits above [2^-1074] is kept. *)
Lemma roundMagnitude_exact (m e : Z) :
  (0 < m <= 2 ^ 53)%Z -> (-1074 <= e)%Z ->
  roundMagnitude (inject_Z m * 2 ^ e) == inject_Z m * 2 ^ e.
Proof.
  intros Hm He. set (a := inject_Z m * 2 ^ e).
  assert (Hmq : 0 < inject_Z m) by (change 0 with (inject_Z 0); rewrite <- Zlt_Qlt; lia).
  assert (Ha : 0 < a) by (apply Qmult_lt_0_compat; [exact Hmq | apply pow2_pos]).
  set (e' := ulpExponent a).
  assert (Hcase : (e' <= e)%Z \/ (m = 2 ^ 53 /\ e' = e + 1)%Z).
  { destruct (Z.eq_dec m (2 ^ 53)%Z) as [-> | Hne].
    - right. split; [reflexivity |]. unfold e', ulpExponent.
      rewrite (ilog2_unique a (e + 53)); [lia |]. unfold a.
      rewrite pow2_inject by lia. rewrite <- pow2_plus.
      replace (53 + e)%Z with (e + 53)%Z by lia. split; [apply Qle_refl |].
      apply pow2_lt. lia.
    - left. unfold e', ulpExponent.
      assert (a < 2 ^ (e + 53)).
      { unfold a. rewrite pow2_plus, (Qmult_comm (2 ^ e)).
        apply Qmult_lt_compat_r; [apply pow2_pos |].
        rewrite <- pow2_inject by lia. rewrite <- Zlt_Qlt. lia. }
      destruct (ilog2_spec a Ha) as [H1 _].
      assert (ilog2 a < e + 53)%Z by (apply pow2_lt_inv; lra). lia. }
  unfold roundMagnitude. fold e'.
  destruct Hcase as [Hle | [-> ->]].
  - assert (E : a / 2 ^ e' == inject_Z (m * 2 ^ (e - e'))).
    { rewrite inject_Z_mult, pow2_inject by lia. unfold a.
      rewrite (Qpower_minus 2 e e') by discriminate. field.
      pose proof (pow2_pos e'). lra. }
    rewrite (rhe_comp _ _ E), rhe_Z, inject_Z_mult, pow2_inject by lia.
    rewrite (Qpower_minus 2 e e') by discriminate. unfold a. field.
    pose proof (pow2_pos e'). lra.
  - assert (E : a / 2 ^ (e + 1) == inject_Z (2 ^ 52)).
    { unfold a. rewrite !pow2_inject by lia. rewrite pow2_succ.
      change (2 ^ 53) with (2 * 2 ^ 52). field. pose proof (pow2_pos e). lra. }
    rewrite (rhe_comp _ _ E), rhe_Z. unfold a. rewrite !pow2_inject by lia.
    rewrite pow2_succ. change (2 ^ 53) with (2 * 2 ^ 52). ring.
Qed.

Lemma roundMagnitude_comp (a b : Q) :
  a == b -> 0 < a -> roundMagnitude a = roundMagnitude b.
Proof.
  intros H Ha. unfold roundMagnitude, ulpExponent.
  rewrite <- (ilog2_comp a b H Ha).
  assert (E : a / 2 ^ Z.max (ilog2 a - 52) (-1074) == b / 2 ^ Z.max (ilog2 a - 52) (-1074))
    by (unfold Qdiv; apply Qmult_comp; [exact H | reflexivity]).
  now rewrite (rhe_comp _ _ E).
Qed.

(** Rounding twice is rounding once. *)
Lemma roundMagnitude_idem (a : Q) :
  0 < a -> 0 < roundMagnitude a ->
  roundMagnitude (roundMagnitude a) == roundMagnitude a.
Proof.
  intros Ha Hpos. unfold roundMagnitude at 2 3.
  set (m := roundHalfEven (a / 2 ^ ulpExponent a)).
  assert (Hm : (0 < m)%Z).
  { unfold roundMagnitude in Hpos. fold m in Hpos.
    destruct (Z_lt_le_dec 0 m) as [H | H]; [exact H | exfalso].
    assert (inject_Z m <= 0) by (change 0 with (inject_Z 0); now rewrite <- Zle_Qle).
    pose proof (pow2_pos (ulpExponent a)). nra. }
  apply roundMagnitude_exact; [| apply ulpExponent_ge].
  split; [exact Hm |].
  rewrite Zle_Qle. rewrite pow2_inject by lia.
  apply rhe_le_pow2; [lia |]. now apply Qlt_le_weak, scaled_lt.
Qed.


(** ** Rounding to binary64 *)

Lemma roundNearest_0 (q : Q) : q == 0 -> roundNearest q = 0.
Proof.
  intros H. unfold roundNearest.
  destruct (Qcompare_spec q 0); [reflexivity | exfalso; lra | exfalso; lra].
Qed.

Lemma roundNearest_pos (q : Q) : 0 < q -> roundNearest q = roundMagnitude q.
Proof.
  intros H. unfold roundNearest.
  destruct (Qcompare_spec q 0); [exfalso; lra | exfalso; lra | reflexivity].
Qed.

Lemma roundNearest_neg (q : Q) : q < 0 -> roundNearest q = - roundMagnitude (- q).
Proof.
  intros H. unfold roundNearest.
  destruct (Qcompare_spec q 0); [exfalso; lra | reflexivity | exfalso; lra].
Qed.

Lemma roundNearest_comp (q q' : Q) : q == q' -> roundNearest q = roundNearest q'.
Proof.
  intros H. unfold roundNearest.
  assert (E : (q ?= 0) = (q' ?= 0)) by (apply Qcompare_comp; [exact H | reflexivity]).
  rewrite <- E. destruct (Qcompare_spec q 0) as [H0|H0|H0]; [reflexivity | |].
  - f_equal. apply roundMagnitude_comp; lra.
  - apply roundMagnitude_comp; lra.
Qed.

Lemma roundNearest_opp (q : Q) : roundNearest (- q) == - roundNearest q.
Proof.
  destruct (Qcompare_spec q 0) as [H0|H0|H0].
  - rewrite (roundNearest_0 q H0), (roundNearest_0 (- q)) by lra. reflexivity.
  - rewrite (roundNearest_neg q H0), (roundNearest_pos (- q)) by lra. ring.
  - rewrite (roundNearest_pos q H0), (roundNearest_neg (- q)) by lra.
    now rewrite (roundMagnitude_comp (- - q) q) by lra.
Qed.

Lemma roundNearest_nonneg (q : Q) : 0 <= q -> 0 <= roundNearest q.
Proof.
  intros H. destruct (Qcompare_spec q 0) as [H0|H0|H0]; [| lra |].
  - rewrite (roundNearest_0 q H0). apply Qle_refl.
  - rewrite (roundNearest_pos q H0). now apply roundMagnitude_nonneg.
Qed.

Lemma roundNearest_nonpos (q : Q) : q <= 0 -> roundNearest q <= 0.
Proof.
  intros H. pose proof (roundNearest_nonneg (- q) ltac:(lra)) as Hn.
  rewrite roundNearest_opp in Hn. lra.
Qed.

(** Rounding keeps the order. *)
Lemma roundNearest_mono (q q' : Q) : q <= q' -> roundNearest q <= roundNearest q'.
Proof.
  intros H. destruct (Qlt_le_dec 0 q) as [Hq | Hq].
  - rewrite (roundNearest_pos q Hq), (roundNearest_pos q') by lra.
    now apply roundMagnitude_mono.
  - destruct (Qlt_le_dec q' 0) as [Hq' | Hq'].
    + rewrite (roundNearest_neg q), (roundNearest_neg q') by lra.
      apply Qopp_le_compat. apply roundMagnitude_mono; lra.
    + apply Qle_trans with 0; [now apply roundNearest_nonpos | now apply roundNearest_nonneg].
Qed.

(** A number of at most 53 significant bits, none below [2^-1074], is kept. *)
Lemma roundNearest_exact (m e : Z) :
  (Z.abs m <= 2 ^ 53)%Z -> (-1074 <= e)%Z ->
  roundNearest (inject_Z m * 2 ^ e) == inject_Z m * 2 ^ e.
Proof.
  intros Hm He. pose proof (pow2_pos e) as Hp.
  destruct (Z.lt_trichotomy m 0) as [Hneg | [-> | Hpos]].
  - assert (Hq : inject_Z m * 2 ^ e < 0).
    { assert (inject_Z m < 0) by (change 0 with (inject_Z 0); rewrite <- Zlt_Qlt; lia).
      nra. }
    rewrite (roundNearest_neg _ Hq).
    rewrite (roundMagnitude_comp _ (inject_Z (- m) * 2 ^ e)).
    + rewrite roundMagnitude_exact by lia. rewrite inject_Z_opp. ring.
    + rewrite inject_Z_opp. ring.
    + lra.
  - change (inject_Z 0) with 0. rewrite (roundNearest_0 (0 * 2 ^ e)) by ring. ring.
  - assert (Hq : 0 < inject_Z m * 2 ^ e).
    { assert (0 < inject_Z m) by (change 0 with (inject_Z 0); rewrite <- Zlt_Qlt; lia).
      nra. }
    rewrite (roundNearest_pos _ Hq). apply roundMagnitude_exact; lia.
Qed.

Lemma roundNearest_Z (n : Z) :
  (Z.abs n <= 2 ^ 53)%Z -> roundNearest (inject_Z n) == inject_Z n.
Proof.
  intros H. pose proof (roundNearest_exact n 0 H ltac:(lia)) as E.
  change (2 ^ 0) with 1 in E.
  rewrite (roundNearest_comp (inject_Z n) (inject_Z n * 1)) by ring.
  rewrite E. ring.
Qed.

(** Rounding twice is rounding once. *)
Lemma roundNearest_idem (q : Q) : roundNearest (roundNearest q) == roundNearest q.
Proof.
  assert (Hpos : forall a, 0 < a ->
            roundNearest (roundMagnitude a) == roundMagnitude a).
  { intros a Ha. pose proof (roundMagnitude_nonneg a Ha) as H0.
    destruct (Qcompare_spec (roundMagnitude a) 0) as [E|E|E]; [| lra |].
    - rewrite (roundNearest_0 _ E). now rewrite E.
    - rewrite (roundNearest_pos _ E). now apply roundMagnitude_idem. }
  destruct (Qcompare_spec q 0) as [H0|H0|H0].
  - rewrite (roundNearest_0 q H0). now rewrite roundNearest_0.
  - rewrite (roundNearest_neg q H0), roundNearest_opp, Hpos by lra. reflexivity.
  - rewrite (roundNearest_pos q H0). now apply Hpos.
Qed.

(** The error of rounding: at most [2^-53] of the magnitude, or half the
    smallest positive number. *)
Lemma roundNearest_error (q : Q) :
  Qabs (roundNearest q - q) <= 2 ^ (-53) * Qabs q + 2 ^ (-1075).
Proof.
  assert (Hpos : forall a, 0 < a ->
            Qabs (roundMagnitude a - a) <= 2 ^ (-53) * a + 2 ^ (-1075)).
  { intros a Ha. apply Qle_trans with (1 := roundMagnitude_error a Ha).
    destruct (ilog2_spec a Ha) as [H1 _].
    pose proof (pow2_pos (-53)). pose proof (pow2_pos (-1075)).
    unfold ulpExponent. destruct (Z.max_spec (ilog2 a - 52) (-1074)) as [[_ ->] | [_ ->]].
    - change ((1 # 2) * 2 ^ (-1074)) with (2 ^ (-1075)). nra.
    - assert (E : (1 # 2) * 2 ^ (ilog2 a - 52) == 2 ^ (-53) * 2 ^ ilog2 a).
      { replace (ilog2 a - 52)%Z with (ilog2 a + -53 + 1)%Z by lia.
        rewrite pow2_succ, pow2_plus. ring. }
      rewrite E. nra. }
  destruct (Qcompare_spec q 0) as [H0|H0|H0].
  - rewrite (roundNearest_0 q H0).
    pose proof (pow2_pos (-53)). pose proof (pow2_pos (-1075)).
    pose proof (Qabs_nonneg q).
    assert (E : 0 - q == 0) by lra. rewrite E. change (Qabs 0) with 0. nra.
  - rewrite (roundNearest_neg q H0).
    assert (E : - roundMagnitude (- q) - q == - (roundMagnitude (- q) - - q)) by ring.
    rewrite E, Qabs_opp, (Qabs_neg q) by lra. apply Hpos. lra.
  - rewrite (roundNearest_pos q H0), (Qabs_pos q) by lra. now apply Hpos.
Qed.

Lemma roundNearest_relative (q : Q) :
  2 ^ (-1022) <= Qabs q -> Qabs (roundNearest q - q) <= 2 ^ (-53) * Qabs q.
Proof.
  intros Hn. pose proof (pow2_pos (-1022)) as Hp.
  destruct (Qcompare_spec q 0) as [H0|H0|H0].
  - rewrite H0 in Hn. change (Qabs 0) with 0 in Hn. lra.
  - rewrite (Qabs_neg q) in Hn by lra.
    rewrite (roundNearest_neg q H0).
    assert (E : - roundMagnitude (- q) - q == - (roundMagnitude (- q) - - q)) by ring.
    rewrite E, Qabs_opp, (Qabs_neg q) by lra. now apply roundMagnitude_relative.
  - rewrite (Qabs_pos q) in * by lra.
    rewrite (roundNearest_pos q H0). now apply roundMagnitude_relative.
Qed.

(** ** Finite results and overflow *)

Lemma maxDouble_value : maxDouble == inject_Z (2 ^ 53 - 1) * 2 ^ 971.
Proof. vm_compute. reflexivity. Qed.

Lemma maxDouble_lt : maxDouble < 2 ^ 1024.
Proof. vm_compute. reflexivity. Qed.

Lemma roundNearest_maxDouble : roundNearest maxDouble == maxDouble.
Proof.
  rewrite (roundNearest_comp _ _ maxDouble_value), maxDouble_value.
  apply roundNearest_exact; [vm_compute; discriminate | lia].
Qed.

Lemma roundNearest_range (q : Q) :
  Qabs q <= maxDouble -> Qabs (roundNearest q) <= maxDouble.
Proof.
  intros H. apply Qabs_Qle_condition in H as [H1 H2].
  apply Qabs_Qle_condition. split.
  - pose proof (roundNearest_mono _ _ H1) as Hm.
    rewrite roundNearest_opp, roundNearest_maxDouble in Hm. exact Hm.
  - pose proof (roundNearest_mono _ _ H2) as Hm.
    now rewrite roundNearest_maxDouble in Hm.
Qed.

Lemma round64_Fin (q : Q) :
  - 2 ^ 1024 < roundNearest q -> roundNearest q < 2 ^ 1024 ->
  round64 q = Fin (roundNearest q).
Proof.
  intros H1 H2. unfold round64.
  destruct (Qle_bool (2 ^ 1024) (roundNearest q)) eqn:E1.
  { apply Qle_bool_iff in E1. exfalso. apply (Qlt_not_le _ _ H2 E1). }
  destruct (Qle_bool (roundNearest q) (- 2 ^ 1024)) eqn:E2.
  { apply Qle_bool_iff in E2. exfalso. apply (Qlt_not_le _ _ H1 E2). }
  reflexivity.
Qed.

Lemma round64_in_range (q : Q) :
  Qabs q <= maxDouble -> round64 q = Fin (roundNearest q).
Proof.
  intros H. apply roundNearest_range, Qabs_Qle_condition in H as [H1 H2].
  pose proof maxDouble_lt.
  apply round64_Fin.
  - apply Qlt_le_trans with (- maxDouble); [| exact H1].
    apply Qopp_lt_compat. assumption.
  - apply Qle_lt_trans with maxDouble; assumption.
Qed.

(** A rounding is the rounded number, or an infinity of the sign of the
    exact result. *)
Lemma round64_cases (q : Q) :
  round64 q = Fin (roundNearest q)
  \/ (round64 q = PInf /\ 0 < q)
  \/ (round64 q = NInf /\ q < 0).
Proof.
  unfold round64.
  destruct (Qle_bool (2 ^ 1024) (roundNearest q)) eqn:E1.
  - right. left. split; [reflexivity |]. apply Qle_bool_iff in E1.
    destruct (Qlt_le_dec 0 q) as [H | H]; [exact H | exfalso].
    pose proof (roundNearest_nonpos q H). pose proof (pow2_pos 1024).
    apply (Qlt_not_le 0 (2 ^ 1024)); [assumption |].
    apply Qle_trans with (roundNearest q); assumption.
  - destruct (Qle_bool (roundNearest q) (- 2 ^ 1024)) eqn:E2; [| now left].
    right. right. split; [reflexivity |]. apply Qle_bool_iff in E2.
    destruct (Qlt_le_dec q 0) as [H | H]; [exact H | exfalso].
    pose proof (roundNearest_nonneg q H). pose proof (pow2_pos 1024).
    apply (Qlt_not_le (- 2 ^ 1024) 0).
    + apply Qopp_lt_compat in H1. exact H1.
    + apply Qle_trans with (roundNearest q); assumption.
Qed.

Lemma round64_comp (q q' : Q) : q == q' -> round64 q = round64 q'.
Proof. intros H. unfold round64. now rewrite (roundNearest_comp q q' H). Qed.

(** Rounding keeps the order, also where it overflows. *)
Lemma round64_mono (q q' : Q) : q <= q' -> nle (round64 q) (round64 q') = true.
Proof.
  intros H. pose proof (roundNearest_mono q q' H) as Hm.
  pose proof (pow2_pos 1024) as Hp.
  unfold round64.
  destruct (Qle_bool (2 ^ 1024) (roundNearest q)) eqn:E1;
    destruct (Qle_bool (2 ^ 1024) (roundNearest q')) eqn:E1';
    destruct (Qle_bool (roundNearest q) (- 2 ^ 1024)) eqn:E2;
    destruct (Qle_bool (roundNearest q') (- 2 ^ 1024)) eqn:E2';
    try reflexivity;
    try apply Qle_bool_iff in E1; try apply Qle_bool_iff in E1';
    try apply Qle_bool_iff in E2; try apply Qle_bool_iff in E2';
    try (apply not_true_iff_false in E1; rewrite Qle_bool_iff in E1);
    try (apply not_true_iff_false in E1'; rewrite Qle_bool_iff in E1');
    try (apply not_true_iff_false in E2; rewrite Qle_bool_iff in E2);
    try (apply not_true_iff_false in E2'; rewrite Qle_bool_iff in E2');
    try (exfalso; lra).
  cbn [nle]. now apply Qle_bool_iff.
Qed.

Lemma lit_0_06 : lit 0.06 = Fin q0_06.
Proof. vm_compute. reflexivity. Qed.
Lemma lit_0_94 : lit 0.94 = Fin q0_94.
Proof. vm_compute. reflexivity. Qed.
Lemma lit_0_15 : lit 0.15 = Fin q0_15.
Proof. vm_compute. reflexivity. Qed.
Lemma lit_0_35 : lit 0.35 = Fin q0_35.
Proof. vm_compute. reflexivity. Qed.
Lemma lit_1_2 : lit 1.2 = Fin q1_2.
Proof. vm_compute. reflexivity. Qed.

(** The error of a rounding of a number that is not negative. *)
Lemma roundNearest_bounds (x : Q) :
  0 <= x ->
  x - (eps64 * x + eta64) <= roundNearest x /\ roundNearest x <= x + (eps64 * x + eta64).
Proof.
  intros Hx. pose proof (roundNearest_error x) as H.
  rewrite (Qabs_pos x) in H by exact Hx.
  change (2 ^ (-53)) with eps64 in H. change (2 ^ (-1075)) with eta64 in H.
  apply Qabs_Qle_condition in H as [H1 H2]. split; lra.
Qed.
(** ** The candidate planner *)

Lemma div64_Fin (x y : Q) : 0 < y -> (Fin x / Fin y)%num = round64 (x / y).
Proof. intros H. unfold div64. now rewrite ndiv_Fin_pos. Qed.

Lemma candidateCount_Fin (d : Q) (mc : Z) :
  candidateCount (Fin d) mc = of_Z (countZ d mc).
Proof.
  unfold candidateCount, countZ. rewrite lit_0_35, div64_Fin by reflexivity.
  destruct (round64_cases (d / q0_35)) as [-> | [[-> _] | [-> _]]].
  - cbn [nfloor nmax nmin of_Z]. change 40 with (inject_Z 40).
    now rewrite Qmax_inject_Z, Qmin_inject_Z.
  - reflexivity.
  - cbn [nfloor nmax nmin of_Z]. change 40 with (inject_Z 40).
    now rewrite Qmin_inject_Z.
Qed.

(** The loop pushes the timestamps of [i], [i+1], ..., [count], given fuel
    for that many iterations. *)
Lemma candidateLoop_spec (c : Z) (start step duration : num) :
  forall (fuel : nat) (i : Z) (times : list num),
    (0 <= i)%Z -> (c + 1 - i <= Z.of_nat fuel)%Z ->
    candidateLoop fuel i (of_Z c) start step duration times =
    times ++ map (fun k => candidateAt duration start step (Z.of_nat k))
               (seq (Z.to_nat i) (Z.to_nat (c + 1 - i))).
Proof.
  induction fuel as [|fuel IH]; intros i times Hi Hfuel; cbn [candidateLoop].
  - replace (Z.to_nat (c + 1 - i)) with O by lia. cbn [seq map].
    now rewrite app_nil_r.
  - rewrite nle_of_Z. destruct (Z.leb_spec i c) as [Hle|Hgt].
    + rewrite IH by lia.
      replace (Z.to_nat (c + 1 - i)) with (S (Z.to_nat (c + 1 - (i + 1)))) by lia.
      cbn [seq map]. rewrite <- app_assoc. cbn [app].
      rewrite Z2Nat.id by lia.
      now replace (Z.to_nat (i + 1)) with (S (Z.to_nat i)) by lia.
    + replace (Z.to_nat (c + 1 - i)) with O by lia. cbn [seq map].
      now rewrite app_nil_r.
Qed.

(** More fuel than the count changes nothing: the loop ends by its test. *)
Lemma candidateLoop_fuel (c : Z) (start step duration : num) (fuel fuel' : nat)
    (i : Z) (times : list num) :
  (0 <= i)%Z -> (c + 1 - i <= Z.of_nat fuel)%Z -> (fuel <= fuel')%nat ->
  candidateLoop fuel' i (of_Z c) start step duration times =
  candidateLoop fuel i (of_Z c) start step duration times.
Proof.
  intros Hi Hf Hle. rewrite !candidateLoop_spec by lia. reflexivity.
Qed.

Lemma countZ_nonneg (d : Q) (mc : Z) : (0 <= mc)%Z -> (0 <= countZ d mc)%Z.
Proof. unfold countZ. destruct (round64 (d / q0_35)); lia. Qed.

Lemma countZ_le (d : Q) (mc : Z) : (countZ d mc <= mc)%Z.
Proof. unfold countZ. destruct (round64 (d / q0_35)); lia. Qed.

Lemma countZ_180_range (d : Q) : (40 <= countZ d 180 <= 180)%Z.
Proof. unfold countZ. destruct (round64 (d / q0_35)); lia. Qed.

Lemma inject_Z_succ_pos (n : Z) : (0 <= n)%Z -> 0 < inject_Z n + 1.
Proof.
  intros H. rewrite Zle_Qle in H. change (inject_Z 0) with 0 in H. lra.
Qed.

(** The count is NaN or an integer that does not exceed [maxCandidates]. *)
Lemma candidateCount_cases (duration : num) (mc : Z) :
  candidateCount duration mc = NaN
  \/ exists c : Z, (c <= mc)%Z /\ candidateCount duration mc = of_Z c.
Proof.
  destruct duration as [d| | |].
  - right. exists (countZ d mc). split; [apply countZ_le | apply candidateCount_Fin].
  - right. exists mc. split; [lia |].
    unfold candidateCount. now rewrite lit_0_35.
  - right. exists (Z.min mc 40). split; [lia |].
    unfold candidateCount. rewrite lit_0_35.
    change (nmax (Fin 40) (nfloor (NInf / Fin q0_35)%num)) with (Fin (inject_Z 40)).
    unfold of_Z. cbn [nmin]. now rewrite Qmin_inject_Z.
  - left. unfold candidateCount. now rewrite lit_0_35.
Qed.

(** The planner is total: for each duration its loop is left by the test
    [i <= count] within the iterations that are unfolded, so that unfolding
    more of them returns the same list. *)
Lemma makeCandidateTimes_fuel (duration : num) (mc : Z) (fuel : nat) :
  (Z.to_nat mc <= fuel)%nat ->
  let start := (duration * lit 0.06)%num in
  let span := nmax (Fin 0) (duration * lit 0.94 - start)%num in
  let count := candidateCount duration mc in
  candidateLoop fuel 1 count start (span / (count + Fin 1))%num duration []
  = makeCandidateTimes duration mc.
Proof.
  intros Hfuel start span count. subst start span count. unfold makeCandidateTimes.
  destruct (candidateCount_cases duration mc) as [->|(c & Hc & ->)].
  - destruct fuel, (Z.to_nat mc); reflexivity.
  - apply candidateLoop_fuel; lia.
Qed.

(** The timestamps are those of [i = 1, ..., count]. *)
Lemma makeCandidateTimes_map (duration : num) (mc c : Z) :
  (c <= mc)%Z -> candidateCount duration mc = of_Z c ->
  let start := (duration * lit 0.06)%num in
  let span := nmax (Fin 0) (duration * lit 0.94 - start)%num in
  makeCandidateTimes duration mc =
  map (fun k => candidateAt duration start (span / (of_Z c + Fin 1))%num (Z.of_nat k))
    (seq 1 (Z.to_nat c)).
Proof.
  intros Hc Hcount start span. subst start span. unfold makeCandidateTimes.
  rewrite Hcount. rewrite candidateLoop_spec by lia.
  cbn [app]. replace (c + 1 - 1)%Z with c by lia. reflexivity.
Qed.

Lemma makeCandidateTimes_length (d : Q) (mc : Z) :
  (0 <= mc)%Z ->
  Z.of_nat (length (makeCandidateTimes (Fin d) mc)) = countZ d mc.
Proof.
  intros Hmc.
  rewrite (makeCandidateTimes_map (Fin d) mc (countZ d mc) (countZ_le d mc)
             (candidateCount_Fin d mc)).
  rewrite length_map, length_seq. pose proof (countZ_nonneg d mc Hmc). lia.
Qed.

Lemma q0_35_pos : 0 < q0_35.
Proof. reflexivity. Qed.

Lemma countZ_mono (d d' : Q) (mc : Z) : d <= d' -> (countZ d mc <= countZ d' mc)%Z.
Proof.
  intros H. unfold countZ.
  assert (Hq : d / q0_35 <= d' / q0_35).
  { apply Qmult_le_compat_r; [exact H |]. apply Qlt_le_weak, Qinv_lt_0_compat, q0_35_pos. }
  pose proof (round64_mono _ _ Hq) as Hm.
  destruct (round64 (d / q0_35)) as [q| | |], (round64 (d' / q0_35)) as [q'| | |];
    try discriminate; try lia.
  apply Qle_bool_iff in Hm. pose proof (Qfloor_resp_le _ _ Hm). lia.
Qed.

(** C5, as amended.  For every finite duration greater than 0 and
    [maxCandidates = 180] the planner returns [min(180, max(40, floor(q)))]
    timestamps, where [q] is the quotient [duration / 0.35] as the planner
    computes it, in binary64; they are 180 when the quotient overflows.  The
    count does not decrease when the duration grows, lies between 40 and 180,
    is 40 whenever [floor(q) < 40], and is 171 for a duration of 60. *)
Theorem planner_count (d : Q) :
  0 < d ->
  let count := fun x => length (makeCandidateTimes (Fin x) 180) in
  (forall q, (Fin d / lit 0.35)%num = Fin q ->
     Z.of_nat (count d) = Z.min 180 (Z.max 40 (Qfloor q)))
  /\ ((Fin d / lit 0.35)%num = PInf -> count d = 180%nat)
  /\ (forall d', d <= d' -> (count d <= count d')%nat)
  /\ (40 <= count d <= 180)%nat
  /\ (forall q, (Fin d / lit 0.35)%num = Fin q -> (Qfloor q < 40)%Z ->
        count d = 40%nat)
  /\ count 60 = 171%nat.
Proof.
  intros Hd count. subst count. cbv beta.
  assert (Hlen : forall x, Z.of_nat (length (makeCandidateTimes (Fin x) 180))
                           = countZ x 180).
  { intros x. now apply makeCandidateTimes_length. }
  assert (Hquot : (Fin d / lit 0.35)%num = round64 (d / q0_35)).
  { rewrite lit_0_35. apply div64_Fin, q0_35_pos. }
  rewrite Hquot.
  split; [| split; [| split; [| split; [| split]]]].
  - intros q Hq. rewrite Hlen. unfold countZ. now rewrite Hq.
  - intros Hq. pose proof (Hlen d) as H. unfold countZ in H. rewrite Hq in H. lia.
  - intros d' Hle. pose proof (countZ_mono d d' 180 Hle).
    rewrite <- !Hlen in H. lia.
  - pose proof (countZ_180_range d). rewrite <- Hlen in H. lia.
  - intros q Hq Hsmall. pose proof (Hlen d) as H. unfold countZ in H.
    rewrite Hq in H. lia.
  - vm_compute. reflexivity.
Qed.

Lemma planner_count_witness :
  0 < 5 /\ length (makeCandidateTimes (Fin 5) 180) = 40%nat.
Proof.
  split; [reflexivity |].
  destruct (planner_count 5 eq_refl) as (_ & _ & _ & _ & Hsmall & _).
  destruct (Fin 5 / lit 0.35)%num as [q| | |] eqn:E;
    try (vm_compute in E; discriminate).
  apply (Hsmall q eq_refl). vm_compute in E. injection E as <-.
  vm_compute. reflexivity.
Defined.

(** C5 fails as stated, where the quotient is rounded up to an integer.  The
    binary64 number written [14.35] is a little less than 14.35: the exact
    quotient by 0.35 is below 41 and its floor gives 40, but the planner
    computes the quotient 41 and returns 41 timestamps. *)
Lemma planner_count_rounded :
  let d := 8078331831595827 # 562949953421312 in
  0 < d
  /\ lit 14.35 = Fin d
  /\ Z.min 180 (Z.max 40 (Qfloor (d / 0.35))) = 40%Z
  /\ num_eq (Fin d / lit 0.35)%num (Fin 41)
  /\ length (makeCandidateTimes (Fin d) 180) = 41%nat.
Proof.
  cbv zeta. split; [reflexivity |]. split; [| split; [| split]];
    vm_compute; reflexivity.
Qed.

Lemma nle_Fin (x y : Q) : nle (Fin x) (Fin y) = true <-> x <= y.
Proof. apply Qle_bool_iff. Qed.

Lemma nlt_Fin (x y : Q) : nlt (Fin x) (Fin y) = true <-> x < y.
Proof.
  cbn [nlt]. rewrite negb_true_iff, <- not_true_iff_false, Qle_bool_iff.
  split; [apply Qnot_le_lt | apply Qlt_not_le].
Qed.

Lemma StronglySorted_map_seq {A : Type} (R : A -> A -> Prop) (f : nat -> A) :
  forall (len a : nat),
    (forall i j, (a <= i)%nat -> (i < j)%nat -> (j < a + len)%nat -> R (f i) (f j)) ->
    StronglySorted R (map f (seq a len)).
Proof.
  induction len as [|len IH]; intros a H; cbn [seq map]; constructor.
  - apply IH. intros i j Hi Hij Hj. apply H; lia.
  - apply List.Forall_forall. intros y Hy. apply in_map_iff in Hy as [j [<- Hj]].
    apply in_seq in Hj. apply H; lia.
Qed.

Lemma StronglySorted_nth_error {A : Type} (R : A -> A -> Prop) (l : list A) :
  StronglySorted R l ->
  forall (i j : nat) (a b : A),
    (i < j)%nat -> nth_error l i = Some a -> nth_error l j = Some b -> R a b.
Proof.
  induction 1 as [|x l Hs IH Hx]; intros i j a b Hij Ha Hb.
  - destruct i; discriminate.
  - destruct j as [|j]; [lia |]. cbn [nth_error] in Hb.
    destruct i as [|i]; cbn [nth_error] in Ha.
    + injection Ha as <-. apply nth_error_In in Hb.
      rewrite List.Forall_forall in Hx. now apply Hx.
    + apply (IH i j); [lia | assumption | assumption].
Qed.

Lemma Qmult_le_compat_l (x y z : Q) : x <= y -> 0 <= z -> z * x <= z * y.
Proof. intros H Hz. nra. Qed.

Lemma maxDouble_ge : 1000 <= maxDouble.
Proof. vm_compute. discriminate. Qed.

Lemma Qmax_0_nonpos (x : Q) : x <= 0 -> Qmax 0 x = 0.
Proof.
  intros H. unfold Qmax, GenericMinMax.gmax.
  destruct (0 ?= x) eqn:E; try reflexivity.
  apply Qlt_alt in E. lra.
Qed.

(** The count plus one is computed exactly. *)
Lemma count_plus_one (n : Z) :
  (0 <= n <= 180)%Z ->
  (of_Z n + Fin 1)%num = Fin (roundNearest (inject_Z n + 1))
  /\ roundNearest (inject_Z n + 1) == inject_Z n + 1.
Proof.
  intros Hn.
  assert (E : inject_Z n + 1 == inject_Z (n + 1)) by now rewrite inject_Z_plus.
  assert (Hex : roundNearest (inject_Z n + 1) == inject_Z n + 1).
  { rewrite (roundNearest_comp _ _ E), E. apply roundNearest_Z. lia. }
  split; [| exact Hex].
  unfold add64, of_Z. cbn [nadd r64]. apply round64_in_range.
  pose proof maxDouble_ge. destruct Hn as [H0 H1].
  rewrite Zle_Qle in H0, H1. change (inject_Z 0) with 0 in H0.
  change (inject_Z 180) with 180 in H1.
  apply Qabs_Qle_condition. split; lra.
Qed.

Section PlannerPositive.

Variable d : Q.
Variable n : Z.
Hypothesis d_pos : 0 < d.
Hypothesis d_max : d <= maxDouble.
Hypothesis n_range : (0 <= n <= 180)%Z.

Let S := startQ d.
Let E := endQ d.
Let D := roundNearest (E - S).
Let N := inject_Z n.
Let X := spanQ d / roundNearest (N + 1).

Lemma N_range : 0 <= N /\ N <= 180.
Proof.
  destruct n_range as [H0 H1]. rewrite Zle_Qle in H0, H1. now split.
Qed.

Lemma start_bounds :
  0 <= S /\ d * q0_06 - (eps64 * (d * q0_06) + eta64) <= S
  /\ S <= d * q0_06 + (eps64 * (d * q0_06) + eta64).
Proof.
  assert (H : 0 <= d * q0_06) by (unfold q0_06; lra).
  split; [now apply roundNearest_nonneg |]. now apply roundNearest_bounds.
Qed.

Lemma end_bounds :
  0 <= E /\ d * q0_94 - (eps64 * (d * q0_94) + eta64) <= E
  /\ E <= d * q0_94 + (eps64 * (d * q0_94) + eta64).
Proof.
  assert (H : 0 <= d * q0_94) by (unfold q0_94; lra).
  split; [now apply roundNearest_nonneg |]. now apply roundNearest_bounds.
Qed.

Lemma start_le_end : S <= E.
Proof. apply roundNearest_mono. unfold q0_06, q0_94. lra. Qed.

Lemma diff_bounds :
  0 <= D /\ D <= E
  /\ (E - S) - (eps64 * (E - S) + eta64) <= D
  /\ D <= (E - S) + (eps64 * (E - S) + eta64).
Proof.
  pose proof start_le_end as Hle. destruct start_bounds as (HS & _).
  assert (H : 0 <= E - S) by lra.
  split; [now apply roundNearest_nonneg |]. split; [| now apply roundNearest_bounds].
  pose proof (roundNearest_idem (d * q0_94)) as Hi. fold (endQ d) in Hi. fold E in Hi.
  apply Qle_trans with (roundNearest E); [apply roundNearest_mono; lra | lra].
Qed.

Lemma spanQ_eq : spanQ d == D.
Proof. unfold spanQ. fold S E D. destruct diff_bounds as (H & _). now apply Q.max_r. Qed.

Lemma X_facts : 0 <= X /\ X * (N + 1) == spanQ d.
Proof.
  destruct (count_plus_one n n_range) as [_ Hc]. fold N in Hc.
  destruct N_range as [HN _]. pose proof spanQ_eq as Hs.
  destruct diff_bounds as (HD & _).
  unfold X. rewrite Hc. split.
  - apply Qle_shift_div_l; lra.
  - field. lra.
Qed.

Lemma step_bounds :
  0 <= stepQ d n
  /\ X - (eps64 * X + eta64) <= stepQ d n
  /\ stepQ d n <= X + (eps64 * X + eta64).
Proof.
  destruct X_facts as [HX _].
  split; [now apply roundNearest_nonneg |]. now apply roundNearest_bounds.
Qed.

Lemma X_span : spanQ d <= 181 * X /\ X * N == spanQ d - X.
Proof.
  destruct X_facts as [HX HXN]. destruct N_range as [HN0 HN1].
  assert (0 <= X * (180 - N)) by (apply Qmult_le_0_compat; lra).
  split; lra.
Qed.

(** The products [step * i] up to [i = count]. *)
Lemma product_upper (i : Z) :
  (0 <= i <= n)%Z ->
  0 <= stepQ d n * inject_Z i
  /\ stepQ d n * inject_Z i <= (spanQ d - X) * (1 + eps64) + 180 * eta64.
Proof.
  intros [Hi0 Hin]. rewrite Zle_Qle in Hi0, Hin. change (inject_Z 0) with 0 in Hi0.
  fold N in Hin. destruct step_bounds as (Hs0 & _ & Hs).
  destruct X_span as [_ HXN]. destruct N_range as [HN0 HN1].
  split; [now apply Qmult_le_0_compat |].
  apply Qle_trans with (stepQ d n * N); [now apply Qmult_le_compat_l |].
  apply Qle_trans with ((X + (eps64 * X + eta64)) * N);
    [now apply Qmult_le_compat_r |].
  assert (Heta : eta64 * N <= 180 * eta64).
  { assert (0 <= eta64 * (180 - N)) by (apply Qmult_le_0_compat; [discriminate | lra]).
    lra. }
  unfold eps64 in *. lra.
Qed.

Lemma product_bounds (i : Z) :
  (0 <= i <= n)%Z ->
  0 <= stepQ d n * inject_Z i
  /\ stepQ d n * inject_Z i <= (180 # 181) * spanQ d * (1 + eps64) + 180 * eta64.
Proof.
  intros Hi. destruct (product_upper i Hi) as [H0 H1]. destruct X_span as [HX _].
  split; [exact H0 |]. unfold eps64 in *. lra.
Qed.

Lemma rounded_product_bounds (i : Z) :
  (0 <= i <= n)%Z ->
  let P := stepQ d n * inject_Z i in
  0 <= roundNearest P
  /\ P - (eps64 * P + eta64) <= roundNearest P
  /\ roundNearest P <= P + (eps64 * P + eta64).
Proof.
  intros Hi P. destruct (product_bounds i Hi) as [HP _]. fold P in HP.
  split; [now apply roundNearest_nonneg |]. now apply roundNearest_bounds.
Qed.

Lemma raw_bounds (i : Z) :
  (0 <= i <= n)%Z ->
  let A := S + roundNearest (stepQ d n * inject_Z i) in
  0 <= rawTimeAt d n i
  /\ A - (eps64 * A + eta64) <= rawTimeAt d n i
  /\ rawTimeAt d n i <= A + (eps64 * A + eta64).
Proof.
  intros Hi A. destruct (rounded_product_bounds i Hi) as (Hu & _).
  destruct start_bounds as (HS & _).
  assert (HA : 0 <= A) by (unfold A; lra).
  unfold rawTimeAt. fold S. fold A.
  split; [now apply roundNearest_nonneg |]. now apply roundNearest_bounds.
Qed.

(** No operation of the planner overflows. *)
Lemma planner_finite (i : Z) :
  (0 <= i <= n)%Z ->
  round64 (d * q0_06) = Fin S
  /\ round64 (d * q0_94) = Fin E
  /\ round64 (E - S) = Fin D
  /\ round64 (spanQ d / roundNearest (N + 1)) = Fin (stepQ d n)
  /\ round64 (stepQ d n * inject_Z i) = Fin (roundNearest (stepQ d n * inject_Z i))
  /\ round64 (S + roundNearest (stepQ d n * inject_Z i)) = Fin (rawTimeAt d n i)
  /\ round64 (d - q0_15) = Fin (capQ d).
Proof.
  intros Hi. pose proof maxDouble_ge as HM.
  destruct start_bounds as (HS0 & HS1 & HS2). destruct end_bounds as (HE0 & HE1 & HE2).
  destruct diff_bounds as (HD0 & HDE & HD1 & HD2).
  pose proof start_le_end as HSE. pose proof spanQ_eq as Hspan.
  destruct X_facts as [HX HXN]. destruct N_range as [HN0 HN1].
  destruct step_bounds as (Hs0 & Hs1 & Hs2).
  destruct (product_bounds i Hi) as [HP0 HP1].
  destruct (rounded_product_bounds i Hi) as (Hu0 & Hu1 & Hu2). cbv zeta in Hu1, Hu2.
  assert (HEmax : E <= maxDouble).
  { assert (H : Qabs (d * q0_94) <= maxDouble).
    { apply Qabs_Qle_condition. unfold q0_94. split; lra. }
    apply roundNearest_range, Qabs_Qle_condition in H. fold (endQ d) in H. fold E in H.
    apply H. }
  assert (HXle : X <= spanQ d).
  { assert (0 <= X * N) by now apply Qmult_le_0_compat. lra. }
  repeat split; apply round64_in_range; apply Qabs_Qle_condition.
  - unfold q0_06. split; lra.
  - unfold q0_94. split; lra.
  - split; lra.
  - fold X. split; lra.
  - unfold eps64, eta64 in *. split; lra.
  - unfold eps64, eta64, q0_06, q0_94 in *. split; lra.
  - unfold q0_15. split; lra.
Qed.

Lemma candidateAt_Fin (i : Z) :
  (0 <= i <= n)%Z ->
  candidateAt (Fin d) (Fin d * lit 0.06)%num
    (nmax (Fin 0) (Fin d * lit 0.94 - Fin d * lit 0.06) / (of_Z n + Fin 1))%num i
  = Fin (timeAt d n i).
Proof.
  intros Hi. destruct (planner_finite i Hi) as (H1 & H2 & H3 & H4 & H5 & H6 & H7).
  destruct (count_plus_one n n_range) as [Hc Hc1]. fold N in Hc, Hc1.
  destruct N_range as [HN0 _].
  unfold candidateAt. rewrite lit_0_06, lit_0_94, lit_0_15, Hc.
  unfold mul64, sub64, add64, div64, of_Z. cbn [nmul nsub nadd nneg r64].
  rewrite H1, H2. cbn [nsub nadd nneg r64].
  change (E + - S) with (E - S). rewrite H3. cbn [nmax].
  change (Qmax 0 D) with (spanQ d).
  rewrite ndiv_Fin_pos by lra. cbn [r64]. rewrite H4.
  cbn [nmul r64]. rewrite H5. cbn [nadd r64]. rewrite H6.
  change (d + - q0_15) with (d - q0_15). rewrite H7. reflexivity.
Qed.

Lemma rawTimeAt_le (i j : Z) :
  (0 <= i <= j)%Z -> rawTimeAt d n i <= rawTimeAt d n j.
Proof.
  intros Hij. destruct step_bounds as (Hs0 & _).
  unfold rawTimeAt. apply roundNearest_mono.
  apply Qplus_le_r. apply roundNearest_mono.
  apply Qmult_le_compat_l; [| exact Hs0]. rewrite <- Zle_Qle. lia.
Qed.

Lemma timeAt_le (i j : Z) : (0 <= i <= j)%Z -> timeAt d n i <= timeAt d n j.
Proof.
  intros Hij. pose proof (rawTimeAt_le i j Hij). unfold timeAt.
  apply Q.max_le_compat_l, Q.min_le_compat_l. assumption.
Qed.

Lemma timeAt_bounds (i : Z) : 0 <= timeAt d n i /\ timeAt d n i <= Qmax 0 (capQ d).
Proof.
  unfold timeAt. split; [apply Q.le_max_l |].
  apply Q.max_le_compat_l, Q.le_min_l.
Qed.

(** From 2 seconds on no timestamp meets the clamp, and each one is well
    inside the window. *)
Section LongVideo.

Hypothesis d_long : 2 <= d.
Hypothesis n_count : (40 <= n)%Z.
Hypothesis n_cases : n = 40%Z \/ 14 <= d.

Lemma rawTimeAt_window (i : Z) :
  (1 <= i <= n)%Z ->
  d * 0.06 < rawTimeAt d n i
  /\ rawTimeAt d n i < d * 0.94
  /\ rawTimeAt d n i < d - 0.15
  /\ rawTimeAt d n i < capQ d.
Proof.
  intros Hi.
  destruct start_bounds as (HS0 & HS1 & HS2). destruct end_bounds as (HE0 & HE1 & HE2).
  destruct diff_bounds as (HD0 & HDE & HD1 & HD2).
  pose proof spanQ_eq as Hspan. destruct X_facts as [HX HXN].
  destruct X_span as [HX181 _]. destruct N_range as [HN0 HN1].
  destruct step_bounds as (Hs0 & Hs1 & Hs2).
  destruct (product_upper i ltac:(lia)) as [HP0 HP1].
  destruct (rounded_product_bounds i ltac:(lia)) as (Hu0 & Hu1 & Hu2).
  destruct (raw_bounds i ltac:(lia)) as (Hr0 & Hr1 & Hr2).
  cbv zeta in Hu1, Hu2, Hr1, Hr2.
  assert (HP2 : stepQ d n <= stepQ d n * inject_Z i).
  { assert (E1 : stepQ d n == stepQ d n * 1) by ring. rewrite E1 at 1.
    apply Qmult_le_compat_l; [| exact Hs0].
    change 1 with (inject_Z 1). rewrite <- Zle_Qle. lia. }
  assert (Hcap : (d - q0_15) - (eps64 * (d - q0_15) + eta64) <= capQ d).
  { apply roundNearest_bounds. unfold q0_15. lra. }
  assert (HX41 : n = 40%Z -> 41 * X == spanQ d).
  { intros Hn. rewrite <- HXN. unfold N. rewrite Hn. change (inject_Z 40) with 40. ring. }
  set (P := stepQ d n * inject_Z i) in *.
  set (u := roundNearest P) in *.
  unfold eps64, eta64, q0_06, q0_94, q0_15 in *.
  split; [lra |]. split; [lra |].
  destruct n_cases as [Hn | Hd14].
  - specialize (HX41 Hn). split; lra.
  - split; lra.
Qed.

Lemma rawTimeAt_lt (i : Z) :
  (1 <= i < n)%Z -> rawTimeAt d n i < rawTimeAt d n (i + 1).
Proof.
  intros Hi.
  destruct start_bounds as (HS0 & HS1 & HS2). destruct end_bounds as (HE0 & HE1 & HE2).
  destruct diff_bounds as (HD0 & HDE & HD1 & HD2).
  pose proof spanQ_eq as Hspan. destruct X_facts as [HX HXN].
  destruct X_span as [HX181 _].
  destruct step_bounds as (Hs0 & Hs1 & Hs2).
  destruct (product_upper i ltac:(lia)) as [HP0 HP1].
  destruct (rounded_product_bounds i ltac:(lia)) as (Hu0 & Hu1 & Hu2).
  destruct (rounded_product_bounds (i + 1) ltac:(lia)) as (Hv0 & Hv1 & Hv2).
  destruct (raw_bounds i ltac:(lia)) as (Hr0 & Hr1 & Hr2).
  destruct (raw_bounds (i + 1) ltac:(lia)) as (Hq0 & Hq1 & Hq2).
  cbv zeta in Hu1, Hu2, Hv1, Hv2, Hr1, Hr2, Hq1, Hq2.
  assert (HP : stepQ d n * inject_Z (i + 1) == stepQ d n * inject_Z i + stepQ d n).
  { rewrite inject_Z_plus. change (inject_Z 1) with 1. ring. }
  set (P := stepQ d n * inject_Z i) in *.
  set (P' := stepQ d n * inject_Z (i + 1)) in *.
  set (u := roundNearest P) in *. set (u' := roundNearest P') in *.
  unfold eps64, eta64, q0_06, q0_94 in *. lra.
Qed.

Lemma rawTimeAt_strict (i j : Z) :
  (1 <= i < j)%Z -> (j <= n)%Z -> rawTimeAt d n i < rawTimeAt d n j.
Proof.
  intros Hij Hj. apply Qlt_le_trans with (rawTimeAt d n (i + 1)).
  - apply rawTimeAt_lt. lia.
  - apply rawTimeAt_le. lia.
Qed.

Lemma timeAt_unclamped (i : Z) :
  (1 <= i <= n)%Z -> timeAt d n i == rawTimeAt d n i.
Proof.
  intros Hi. destruct (rawTimeAt_window i Hi) as (H1 & _ & _ & H4).
  unfold timeAt. rewrite Q.min_r by lra. apply Q.max_r. lra.
Qed.

End LongVideo.

End PlannerPositive.

Lemma makeCandidateTimes_Fin (d : Q) :
  0 < d -> d <= maxDouble ->
  makeCandidateTimes (Fin d) 180 =
  map (fun k => Fin (timeAt d (countZ d 180) (Z.of_nat k)))
    (seq 1 (Z.to_nat (countZ d 180))).
Proof.
  intros Hd Hmax. pose proof (countZ_180_range d) as Hn.
  rewrite (makeCandidateTimes_map (Fin d) 180 (countZ d 180) (countZ_le d 180)
             (candidateCount_Fin d 180)).
  apply map_ext_in. intros k Hk. apply in_seq in Hk.
  apply candidateAt_Fin; try assumption; lia.
Qed.

(** Below 14 seconds the count is 40. *)
Lemma countZ_cases (d : Q) : countZ d 180 = 40%Z \/ 14 <= d.
Proof.
  destruct (Qlt_le_dec d 14) as [Hshort | Hlong]; [left | now right].
  assert (Hq : d / q0_35 <= 14 / q0_35).
  { apply Qmult_le_compat_r; [lra |]. apply Qlt_le_weak, Qinv_lt_0_compat, q0_35_pos. }
  pose proof (round64_mono _ _ Hq) as Hm. unfold countZ.
  assert (E : exists c, round64 (14 / q0_35) = Fin c /\ c < 41).
  { eexists. split; [vm_compute; reflexivity | vm_compute; reflexivity]. }
  destruct E as (c & Ec & Hc). rewrite Ec in Hm. clear Ec.
  destruct (round64 (d / q0_35)) as [q| | |]; try discriminate Hm; try reflexivity.
  apply nle_Fin in Hm. assert (Hq41 : q < 41) by lra.
  assert (Qfloor q < 41)%Z.
  { apply Z.lt_nge. intros H41. rewrite Zle_Qle in H41.
    pose proof (Qfloor_le q). change (inject_Z 41) with 41 in H41. lra. }
  lia.
Qed.

(** The clamp [duration - 0.15] as the planner computes it is at most
    [duration * 0.94] up to 2 seconds. *)
Lemma capQ_short (d : Q) : 0 < d -> d <= 2 -> Qmax 0 (capQ d) <= d * 0.94.
Proof.
  intros Hd Hshort. apply Q.max_lub; [lra |].
  destruct (Qlt_le_dec (d - q0_15) 0) as [Hneg | Hpos].
  - apply Qle_trans with 0; [apply roundNearest_nonpos; lra | lra].
  - destruct (roundNearest_bounds _ Hpos) as [_ H]. fold (capQ d) in H.
    unfold eps64, eta64, q0_15 in *. lra.
Qed.

(** C2, as amended.  For every finite duration greater than 0 every
    timestamp of the planner is at least 0, at most [duration * 0.94] and at
    most [max(0, duration - 0.15)], the difference as the planner computes
    it, and the sequence never decreases.  From 2 seconds on each timestamp
    satisfies [duration * 0.06 <= t <= duration * 0.94] and
    [t <= duration - 0.15], and the sequence is strictly ascending. *)
Theorem planner_window (d : Q) :
  0 < d -> d <= maxDouble ->
  let times := makeCandidateTimes (Fin d) 180 in
  Forall (inWindow 0 (d * 0.94) (Qmax 0 (capQ d))) times
  /\ nondecreasing times
  /\ (2 <= d ->
      Forall (inWindow (d * 0.06) (d * 0.94) (d - 0.15)) times
      /\ ascending times).
Proof.
  intros Hd Hmax times. subst times.
  rewrite makeCandidateTimes_Fin by assumption.
  pose proof (countZ_180_range d) as Hn.
  pose proof (countZ_cases d) as Hcases.
  set (n := countZ d 180) in *.
  assert (Hn' : (0 <= n <= 180)%Z) by lia.
  assert (Hlong : 2 <= d ->
            Forall (inWindow (d * 0.06) (d * 0.94) (d - 0.15))
              (map (fun k => Fin (timeAt d n (Z.of_nat k))) (seq 1 (Z.to_nat n)))).
  { intros H2. apply List.Forall_forall. intros t Ht.
    apply in_map_iff in Ht as [k [<- Hk]]. apply in_seq in Hk.
    assert (Hk' : (1 <= Z.of_nat k <= n)%Z) by lia.
    assert (Heq : timeAt d n (Z.of_nat k) == rawTimeAt d n (Z.of_nat k))
      by (apply timeAt_unclamped; try assumption; lia).
    assert (Hw : d * 0.06 < rawTimeAt d n (Z.of_nat k)
                 /\ rawTimeAt d n (Z.of_nat k) < d * 0.94
                 /\ rawTimeAt d n (Z.of_nat k) < d - 0.15
                 /\ rawTimeAt d n (Z.of_nat k) < capQ d)
      by (apply rawTimeAt_window; try assumption; lia).
    destruct Hw as (H1 & H3 & H4 & _).
    unfold inWindow. rewrite !nle_Fin. repeat split; lra. }
  split; [| split; [| intros H2; split; [now apply Hlong |]]].
  - apply List.Forall_forall. intros t Ht.
    destruct (Qlt_le_dec d 2) as [Hshort | H2].
    + apply in_map_iff in Ht as [k [<- Hk]].
      destruct (timeAt_bounds d n (Z.of_nat k)) as [H0 H1].
      pose proof (capQ_short d Hd ltac:(lra)).
      unfold inWindow. rewrite !nle_Fin. repeat split; lra.
    + specialize (Hlong H2). rewrite List.Forall_forall in Hlong.
      destruct (Hlong t Ht) as (H1 & H3 & _).
      apply in_map_iff in Ht as [k [<- Hk]].
      destruct (timeAt_bounds d n (Z.of_nat k)) as [H0 Hc].
      unfold inWindow in *. rewrite !nle_Fin in *. repeat split; lra.
  - apply StronglySorted_map_seq. intros i j Hi Hij Hj.
    apply nle_Fin, timeAt_le; try assumption. lia.
  - apply StronglySorted_map_seq. intros i j Hi Hij Hj.
    apply nlt_Fin.
    assert (Ei : timeAt d n (Z.of_nat i) == rawTimeAt d n (Z.of_nat i))
      by (apply timeAt_unclamped; try assumption; lia).
    assert (Ej : timeAt d n (Z.of_nat j) == rawTimeAt d n (Z.of_nat j))
      by (apply timeAt_unclamped; try assumption; lia).
    assert (Hlt : rawTimeAt d n (Z.of_nat i) < rawTimeAt d n (Z.of_nat j))
      by (apply rawTimeAt_strict; try assumption; lia).
    lra.
Qed.

Lemma planner_window_witness :
  0 < 60 /\ 2 <= 60 /\ ascending (makeCandidateTimes (Fin 60) 180).
Proof.
  split; [reflexivity | split; [discriminate |]].
  apply (planner_window 60); [reflexivity | vm_compute; discriminate | discriminate].
Defined.

(** C2 fails as stated: for a duration of 1 second the last four timestamps
    are all clamped to [1 - 0.15], so the sequence is not strictly
    ascending. *)
Lemma planner_window_short_video :
  0 < 1 /\
  ~ (Forall (inWindow (1 * 0.06) (1 * 0.94) (1 - 0.15)) (makeCandidateTimes (Fin 1) 180)
     /\ ascending (makeCandidateTimes (Fin 1) 180)).
Proof.
  split; [reflexivity |]. intros [_ Hasc].
  assert (H : nlt (Fin (capQ 1)) (Fin (capQ 1)) = true).
  { apply (StronglySorted_nth_error _ _ Hasc 38 39); [lia | |];
      vm_compute; reflexivity. }
  apply nlt_Fin in H. exact (Qlt_irrefl _ H).
Qed.

Lemma round64_0 (q : Q) : q == 0 -> round64 q = Fin 0.
Proof. intros H. rewrite (round64_comp q 0 H). vm_compute. reflexivity. Qed.

(** A duration that is not positive: the span is 0 and the clamp is
    negative. *)
Lemma candidateAt_nonpos (d : Q) (n i : Z) :
  - maxDouble <= d -> d <= 0 -> (0 <= n <= 180)%Z ->
  candidateAt (Fin d) (Fin d * lit 0.06)%num
    (nmax (Fin 0) (Fin d * lit 0.94 - Fin d * lit 0.06) / (of_Z n + Fin 1))%num i
  = Fin 0.
Proof.
  intros Hmin Hd Hn. pose proof maxDouble_ge as HM.
  destruct (count_plus_one n Hn) as [Hc Hc1].
  assert (HN : 0 <= inject_Z n).
  { destruct Hn as [H0 _]. now rewrite Zle_Qle in H0. }
  assert (H1 : round64 (d * q0_06) = Fin (startQ d)).
  { apply round64_in_range, Qabs_Qle_condition. unfold q0_06. split; lra. }
  assert (H2 : round64 (d * q0_94) = Fin (endQ d)).
  { apply round64_in_range, Qabs_Qle_condition. unfold q0_94. split; lra. }
  assert (HS : - maxDouble <= startQ d /\ startQ d <= 0).
  { split; [| apply roundNearest_nonpos; unfold q0_06; lra].
    assert (H : Qabs (d * q0_06) <= maxDouble).
    { apply Qabs_Qle_condition. unfold q0_06. split; lra. }
    apply roundNearest_range, Qabs_Qle_condition in H. apply H. }
  assert (HE : - maxDouble <= endQ d /\ endQ d <= startQ d).
  { split; [| apply roundNearest_mono; unfold q0_06, q0_94; lra].
    assert (H : Qabs (d * q0_94) <= maxDouble).
    { apply Qabs_Qle_condition. unfold q0_94. split; lra. }
    apply roundNearest_range, Qabs_Qle_condition in H. apply H. }
  assert (H3 : round64 (endQ d - startQ d) = Fin (roundNearest (endQ d - startQ d))).
  { apply round64_in_range, Qabs_Qle_condition. split; lra. }
  assert (HD : roundNearest (endQ d - startQ d) <= 0)
    by (apply roundNearest_nonpos; lra).
  assert (H7 : exists c, round64 (d - q0_15) = Fin c /\ c < 0).
  { exists (roundNearest (d - q0_15)).
    assert (Hlo : roundNearest (- maxDouble - 1) <= roundNearest (d - q0_15))
      by (apply roundNearest_mono; unfold q0_15; lra).
    assert (Hhi : roundNearest (d - q0_15) <= roundNearest (- q0_15))
      by (apply roundNearest_mono; lra).
    assert (E1 : - 2 ^ 1024 < roundNearest (- maxDouble - 1)) by (vm_compute; reflexivity).
    assert (E2 : roundNearest (- q0_15) < 0) by (vm_compute; reflexivity).
    split; [apply round64_Fin |]; lra. }
  destruct H7 as (c & H7 & Hc0).
  unfold candidateAt. rewrite lit_0_06, lit_0_94, lit_0_15, Hc.
  unfold mul64, sub64, add64, div64, of_Z. cbn [nmul nsub nadd nneg r64].
  rewrite H1, H2. cbn [nsub nadd nneg r64].
  change (endQ d + - startQ d) with (endQ d - startQ d). rewrite H3. cbn [nmax].
  rewrite (Qmax_0_nonpos _ HD).
  rewrite ndiv_Fin_pos by lra. cbn [r64].
  rewrite (round64_0 (0 / roundNearest (inject_Z n + 1))) by (unfold Qdiv; ring).
  cbn [nmul r64]. rewrite (round64_0 (0 * inject_Z i)) by ring.
  cbn [nadd r64].
  assert (H6 : round64 (startQ d + 0) = Fin (roundNearest (startQ d + 0))).
  { apply round64_in_range, Qabs_Qle_condition. split; lra. }
  rewrite H6. change (d + - q0_15) with (d - q0_15). rewrite H7.
  cbn [nmin nmax]. f_equal. apply Qmax_0_nonpos.
  pose proof (Q.le_min_l c (roundNearest (startQ d + 0))). lra.
Qed.

Lemma countZ_nonpos (d : Q) : d <= 0 -> countZ d 180 = 40%Z.
Proof.
  intros H. destruct (countZ_cases d) as [E | E]; [exact E | lra].
Qed.

(** C6, as amended.  The planner has no check of its argument and never
    throws.  For a NaN duration it returns the empty sequence; for every
    finite duration that is 0 or negative (a number not below the least
    finite binary64 number) it returns 40 timestamps, all 0; for an infinite
    duration it returns NaN entries, 180 of them for +Infinity and 40 for
    -Infinity. *)
Theorem planner_degenerate :
  makeCandidateTimes NaN 180 = []
  /\ (forall d : Q, - maxDouble <= d -> d <= 0 ->
        makeCandidateTimes (Fin d) 180 = repeat (Fin 0) 40)
  /\ makeCandidateTimes PInf 180 = repeat NaN 180
  /\ makeCandidateTimes NInf 180 = repeat NaN 40.
Proof.
  split; [| split; [| split]].
  - vm_compute. reflexivity.
  - intros d Hmin Hd.
    rewrite (makeCandidateTimes_map (Fin d) 180 (countZ d 180) (countZ_le d 180)
               (candidateCount_Fin d 180)).
    rewrite (countZ_nonpos d Hd).
    transitivity (map (fun _ : nat => Fin 0) (seq 1 (Z.to_nat 40))).
    + apply map_ext. intros k. apply candidateAt_nonpos; [assumption | assumption | lia].
    + reflexivity.
  - vm_compute. reflexivity.
  - vm_compute. reflexivity.
Qed.

Lemma planner_degenerate_witness :
  -5 <= 0 /\ makeCandidateTimes (Fin (-5)) 180 = repeat (Fin 0) 40.
Proof.
  split; [discriminate |].
  apply (proj1 (proj2 planner_degenerate)); [vm_compute | ]; discriminate.
Defined.

(** C6 fails as stated: a duration of 0 yields 40 timestamps, not the empty
    sequence. *)
Lemma planner_zero_duration :
  0 <= 0
  /\ makeCandidateTimes (Fin 0) 180 <> []
  /\ length (makeCandidateTimes (Fin 0) 180) = 40%nat.
Proof.
  split; [discriminate |].
  split; [vm_compute; discriminate | vm_compute; reflexivity].
Qed.

(** ** Numbers read from text *)

Lemma digitValue_range (base : Z) (c : ascii) (v : Z) :
  digitValue base c = Some v -> (0 <= v < base)%Z.
Proof.
  unfold digitValue.
  repeat match goal with
         | |- context [if ?b then _ else _] => destruct b eqn:?
         end; intros [= <-] || discriminate; lia.
Qed.

Lemma takeDigits_nonneg (base : Z) (s : string) :
  forall (acc : Z) (n : nat) (v : Z) (n' : nat) (r : string),
    takeDigits base s acc n = (v, n', r) -> (0 <= acc)%Z -> (0 <= v)%Z.
Proof.
  induction s as [|c s IH]; intros acc n v n' r H Hacc; cbn [takeDigits] in H.
  - now injection H as <- _ _.
  - destruct (digitValue base c) as [dv|] eqn:Hd.
    + apply digitValue_range in Hd. apply (IH _ _ _ _ _ H). nia.
    + now injection H as <- _ _.
Qed.

Lemma literalValue_notNegative (q : Q) : 0 <= q -> notNegative (literalValue q).
Proof. intros H. unfold literalValue. now destruct (Qle_bool overflowBound q). Qed.

Lemma parseUnsignedDecimal_notNegative (s : string) (v : num) :
  parseUnsignedDecimal s = Some v -> notNegative v.
Proof.
  unfold parseUnsignedDecimal.
  destruct (s =? "Infinity")%string; [now intros [= <-] |].
  destruct (takeDigits 10 s 0 0) as [[ip ni] r1] eqn:Hip.
  set (frac := match r1 with
               | String c r => if (c =? ".")%char then takeDigits 10 r 0 0 else (0%Z, O, r1)
               | EmptyString => (0%Z, O, r1)
               end).
  assert (Hfp : (0 <= fst (fst frac))%Z).
  { subst frac. destruct r1 as [|c r]; [cbn; lia |].
    destruct (c =? ".")%char; [| cbn; lia].
    destruct (takeDigits 10 r 0 0) as [[fp nf] r2] eqn:Ht.
    apply (takeDigits_nonneg _ _ _ _ _ _ _ Ht). lia. }
  destruct frac as [[fp nf] r2]. cbn [fst] in Hfp.
  apply takeDigits_nonneg in Hip; [| lia].
  assert (Hval : forall e, notNegative
            (literalValue ((inject_Z ip + inject_Z fp / inject_Z (10 ^ Z.of_nat nf))
                           * Qpower 10 e))).
  { intros e. apply literalValue_notNegative.
    apply Qmult_le_0_compat; [| apply Qpower_0_le; discriminate].
    assert (0 <= inject_Z ip) by (rewrite Zle_Qle in Hip; exact Hip).
    assert (0 <= inject_Z fp) by (rewrite Zle_Qle in Hfp; exact Hfp).
    assert (0 < inject_Z (10 ^ Z.of_nat nf)).
    { change 0 with (inject_Z 0). rewrite <- Zlt_Qlt. lia. }
    assert (0 <= inject_Z fp / inject_Z (10 ^ Z.of_nat nf)).
    { apply Qle_shift_div_l; [assumption | lra]. }
    lra. }
  destruct ni, nf; try discriminate;
    (destruct (parseExponent r2); [intros [= <-]; apply Hval | discriminate]).
Qed.

Lemma parseNonDecimal_notNegative (s : string) (v : num) :
  parseNonDecimal s = Some v -> notNegative v.
Proof.
  unfold parseNonDecimal. destruct s as [|z [|p r]]; try discriminate.
  match goal with
  | |- match ?b with _ => _ end = _ -> _ => destruct b as [base|]; [| discriminate]
  end.
  destruct (takeDigits base r 0 0) as [[val n] rest] eqn:Ht.
  apply takeDigits_nonneg in Ht; [| lia].
  destruct n; [discriminate |]. destruct rest; [| discriminate].
  intros [= <-]. apply literalValue_notNegative.
  rewrite Zle_Qle in Ht. exact Ht.
Qed.

(** A string without white space is its own trim. *)
Lemma trim_id (s : string) :
  allChars (fun c => negb (isWhiteSpace c)) s = true -> trim s = s.
Proof.
  intros H. unfold trim.
  assert (Hs : trimStart s = s).
  { destruct s as [|c s]; [reflexivity |]. cbn in *.
    apply andb_true_iff in H as [Hc _]. apply negb_true_iff in Hc. now rewrite Hc. }
  rewrite Hs. clear Hs. induction s as [|c s IH]; [reflexivity |].
  cbn [allChars] in H. apply andb_true_iff in H as [Hc Hs].
  apply negb_true_iff in Hc. cbn [trimEnd]. rewrite (IH Hs), Hc.
  now destruct s.
Qed.

Lemma isStatChar_cases (c : ascii) :
  isStatChar c = true ->
  isWhiteSpace c = false /\ (c =? "+")%char = false /\ (c =? "-")%char = false.
Proof.
  unfold isStatChar, isDigit, isWhiteSpace. intros H.
  apply orb_true_iff in H as [H|H].
  - apply andb_true_iff in H as [H1 H2]. apply Z.leb_le in H1, H2.
    repeat split.
    + apply orb_false_iff. split.
      * apply andb_false_iff. right. apply Z.leb_gt. lia.
      * apply Z.eqb_neq. lia.
    + apply Ascii.eqb_neq. intros ->. vm_compute in H1. now apply H1.
    + apply Ascii.eqb_neq. intros ->. vm_compute in H1. now apply H1.
  - apply Ascii.eqb_eq in H as ->. repeat split; reflexivity.
Qed.

(** The text of a statistic, made of digits and dots, never converts to a
    negative number. *)
Lemma StringToNumber_stat (v : string) :
  allChars isStatChar v = true -> notNegative (StringToNumber v).
Proof.
  intros H. unfold StringToNumber. rewrite trim_id.
  - destruct v as [|c r]; [cbn; lra |].
    cbn [allChars] in H. apply andb_true_iff in H as [Hc _].
    destruct (isStatChar_cases c Hc) as (_ & -> & ->).
    destruct (parseNonDecimal (String c r)) as [x|] eqn:Hx.
    + now apply parseNonDecimal_notNegative in Hx.
    + destruct (parseUnsignedDecimal (String c r)) as [y|] eqn:Hy; [| exact I].
      now apply parseUnsignedDecimal_notNegative in Hy.
  - clear -H. induction v as [|c r IH]; [reflexivity |].
    cbn [allChars] in *. apply andb_true_iff in H as [Hc Hr].
    destruct (isStatChar_cases c Hc) as (-> & _). now rewrite IH.
Qed.

(** ** The frame scorer *)

Lemma takeWhile_allChars (p : ascii -> bool) (s : string) :
  allChars p (fst (takeWhile p s)) = true.
Proof.
  induction s as [|c s IH]; [reflexivity |]. cbn [takeWhile].
  destruct (p c) eqn:Hc; [| reflexivity].
  destruct (takeWhile p s) as [a r]. cbn [fst allChars] in *. now rewrite Hc.
Qed.

Lemma matchStatAt_value (s k v : string) (len : nat) :
  matchStatAt s = Some (k, v, len) -> allChars isStatChar v = true.
Proof.
  unfold matchStatAt. destruct (dropPrefix statsPrefix s) as [r|]; [| discriminate].
  destruct (takeWhile isUpper r) as [[|k0 k'] [|c r']]; try discriminate.
  destruct (c =? "=")%char; [| discriminate].
  pose proof (takeWhile_allChars isStatChar r') as Hv.
  destruct (takeWhile isStatChar r') as [[|v0 v'] rest]; [discriminate |].
  intros [= _ <- _]. exact Hv.
Qed.

Lemma execAll_values (s : string) :
  forall (skip : nat) (k v : string),
    In (k, v) (execAll skip s) -> allChars isStatChar v = true.
Proof.
  induction s as [|c s IH]; intros skip k v Hin; cbn [execAll] in Hin.
  - destruct Hin.
  - destruct skip as [|n]; [| now apply (IH n k v)].
    destruct (matchStatAt (String c s)) as [[[k' v'] len]|] eqn:Hm.
    + destruct Hin as [[= <- <-]|Hin].
      * now apply matchStatAt_value in Hm.
      * now apply (IH (Nat.pred len) k v).
    + now apply (IH 0%nat k v).
Qed.

(** No statistic is parsed to a negative number. *)
Lemma parseSignalstats_notNegative (stderr key : string) (v : num) :
  parseSignalstats stderr !! key = Some v -> notNegative v.
Proof.
  unfold parseSignalstats.
  pose proof (execAll_values stderr 0) as Hvals.
  assert (Hinit : forall k x, (∅ : gmap string num) !! k = Some x -> notNegative x).
  { intros k x. rewrite lookup_empty. discriminate. }
  revert Hvals Hinit key v.
  generalize (∅ : gmap string num) as out. generalize (execAll 0 stderr) as ms.
  induction ms as [|[k0 v0] ms IH]; intros out Hvals Hout key v; cbn [fold_left].
  - apply Hout.
  - apply IH.
    + intros k x Hin. apply (Hvals k x). now right.
    + intros k x. cbn [fst snd]. destruct (decide (k0 = k)) as [->|Hne].
      * rewrite lookup_insert_eq. intros [= <-].
        apply StringToNumber_stat, (Hvals k v0). now left.
      * rewrite lookup_insert_ne by assumption. apply Hout.
Qed.

Lemma readStats_notNegative (o : ExecOutcome) (stats : gmap string num)
    (key : string) (v : num) :
  readStats o = Ok stats -> stats !! key = Some v -> notNegative v.
Proof.
  unfold readStats. destruct (runExecFile o) as [[out err]|m]; [| discriminate].
  intros [= <-]. apply parseSignalstats_notNegative.
Qed.

Lemma finiteOr_nonneg (v : option num) (d : Q) :
  (forall x, v = Some x -> notNegative x) -> 0 <= d -> 0 <= finiteOr v d.
Proof.
  intros Hv Hd. destruct v as [[q| | |]|]; cbn; try assumption.
  now apply (Hv (Fin q)).
Qed.

Lemma finiteOr_default (v : option num) (d : Q) :
  isFiniteProp v = false -> finiteOr v d = d.
Proof. now destruct v as [[q| | |]|]. Qed.

Lemma Qmin_1_range (x : Q) : 0 <= x -> 0 <= Qmin 1 x <= 1.
Proof. intros H. minmax_cases; lra. Qed.

Lemma exposureOf_range (g : Signals) : 0 <= exposureOf g <= 1.
Proof.
  unfold exposureOf.
  assert (0 <= Qabs (yavg g - 128) / 128).
  { apply Qle_shift_div_l; [reflexivity |]. pose proof (Qabs_nonneg (yavg g - 128)). lra. }
  pose proof (Qmin_1_range _ H). lra.
Qed.

Lemma scoreOf_range (g : Signals) :
  0 <= ystd g -> 0 <= edge g -> 0 <= scoreOf g <= 1.
Proof.
  intros Hs He. unfold scoreOf, contrastOf, sharpOf.
  pose proof (exposureOf_range g).
  assert (0 <= ystd g / 64) by (apply Qle_shift_div_l; [reflexivity | lra]).
  assert (0 <= edge g / 40) by (apply Qle_shift_div_l; [reflexivity | lra]).
  pose proof (Qmin_1_range _ H0). pose proof (Qmin_1_range _ H1). lra.
Qed.

(** The signals taken from parsed statistics are never negative. *)
Lemma signalsOf_nonneg (baseStats edgeStats : gmap string num) :
  (forall k v, baseStats !! k = Some v -> notNegative v) ->
  (forall k v, edgeStats !! k = Some v -> notNegative v) ->
  0 <= yavg (signalsOf baseStats edgeStats)
  /\ 0 <= ystd (signalsOf baseStats edgeStats)
  /\ 0 <= edge (signalsOf baseStats edgeStats).
Proof.
  intros Hb He. unfold signalsOf. cbn [yavg ystd edge].
  repeat split; apply finiteOr_nonneg; eauto; discriminate.
Qed.

Lemma orEmpty_notNegative (o : ExecOutcome) (key : string) (v : num) :
  orEmpty (readStats o) !! key = Some v -> notNegative v.
Proof.
  destruct (readStats o) as [stats|m] eqn:Hr; cbn [orEmpty].
  - now apply (readStats_notNegative o).
  - rewrite lookup_empty. discriminate.
Qed.

(** What a run of the scorer returns, by the outcome of the first tool. *)
Lemma scoreFrameJpg_cases (w : World) (jpg : FramePath) :
  (exists m, readStats (ffmpegSignalstats w jpg) = Throw m
             /\ scoreFrameJpg w jpg = Ok 0)
  \/ (exists b, readStats (ffmpegSignalstats w jpg) = Ok b
                /\ scoreFrameJpg w jpg =
                   Ok (scoreOf (signalsOf b
                         (orEmpty (readStats (ffmpegEdgeSignalstats w jpg)))))).
Proof.
  unfold scoreFrameJpg.
  destruct (readStats (ffmpegSignalstats w jpg)) as [b|m]; eauto.
Qed.

Lemma scoreFrameJpg_range (w : World) (jpg : FramePath) :
  exists q, scoreFrameJpg w jpg = Ok q /\ 0 <= q <= 1.
Proof.
  destruct (scoreFrameJpg_cases w jpg) as [(m & Hb & ->)|(b & Hb & ->)].
  - exists 0. split; [reflexivity | lra].
  - eexists. split; [reflexivity |].
    destruct (signalsOf_nonneg b (orEmpty (readStats (ffmpegEdgeSignalstats w jpg))))
      as (_ & Hs & He).
    + intros k v. now apply (readStats_notNegative _ _ _ _ Hb).
    + intros k v. apply orEmpty_notNegative.
    + now apply scoreOf_range.
Qed.



(** The same closed instances in binary64: the weights add up to 1 exactly. *)
Example scoreOf_b64_ideal : scoreOf_b64 128 64 40 = 1%float.
Proof. reflexivity. Qed.

Example scoreOf_b64_black : scoreOf_b64 0 0 0 = 0%float.
Proof. reflexivity. Qed.

(** C7.  The scorer never raises.  When the request for the base statistics
    fails it returns 0.  Otherwise the score is computed from the three
    signals, each of which is its default (128 for Y, 0 for S, 0 for E) when
    its field is absent or not finite; and when the request for the edge
    statistics fails, the sharpness term is 0 and the score is
    [0.45*exposure + 0.30*contrast]. *)
Theorem scorer_never_raises (w : World) (jpg : FramePath) :
  (exists q, scoreFrameJpg w jpg = Ok q)
  /\ (forall m, readStats (ffmpegSignalstats w jpg) = Throw m ->
        scoreFrameJpg w jpg = Ok 0)
  /\ (forall b, readStats (ffmpegSignalstats w jpg) = Ok b ->
        let e := orEmpty (readStats (ffmpegEdgeSignalstats w jpg)) in
        let g := signalsOf b e in
        scoreFrameJpg w jpg = Ok (scoreOf g)
        /\ (isFiniteProp (b !! "YAVG"%string) = false -> yavg g = 128)
        /\ (isFiniteProp (b !! "YSTD"%string) = false -> ystd g = 0)
        /\ (isFiniteProp (e !! "YAVG"%string) = false -> edge g = 0)
        /\ (forall m, readStats (ffmpegEdgeSignalstats w jpg) = Throw m ->
              sharpOf g == 0
              /\ scoreOf g == 0.45 * exposureOf g + 0.30 * contrastOf g)).
Proof.
  split; [| split].
  - destruct (scoreFrameJpg_range w jpg) as (q & Hq & _). now exists q.
  - intros m Hm. unfold scoreFrameJpg. now rewrite Hm.
  - intros b Hb e g. subst e g. unfold scoreFrameJpg. rewrite Hb.
    split; [reflexivity |].
    unfold signalsOf. cbn [yavg ystd edge].
    repeat split; try apply finiteOr_default.
    + rewrite H. reflexivity.
    + rewrite H. unfold scoreOf, sharpOf. cbn [orEmpty signalsOf edge].
      rewrite lookup_empty. cbn [finiteOr].
      assert (Qmin 1 (0 / 40) == 0) as -> by reflexivity. lra.
Qed.

Lemma scorer_never_raises_witness :
  let g := signalsOf (parseSignalstats "lavfi.signalstats.YAVG=96") ∅ in
  scoreFrameJpg noEdgeWorld {| frameIndex := 0; frameTs := Fin 1 |} = Ok (scoreOf g)
  /\ ystd g = 0 /\ sharpOf g == 0.
Proof.
  destruct (scorer_never_raises noEdgeWorld {| frameIndex := 0; frameTs := Fin 1 |})
    as (_ & _ & H).
  destruct (H (parseSignalstats "lavfi.signalstats.YAVG=96")) as (Hs & _ & HS & _ & He);
    [vm_compute; reflexivity |].
  split; [exact Hs |]. split.
  - apply HS. vm_compute. reflexivity.
  - apply (He "Command failed"%string). vm_compute. reflexivity.
Defined.

(** ** The selection: distances between timestamps *)

Lemma num_eq_refl (a : num) : num_eq a a.
Proof. destruct a; cbn; reflexivity || exact I. Qed.

Lemma num_eq_sym (a b : num) : num_eq a b -> num_eq b a.
Proof. destruct a, b; cbn; auto. intros H. now symmetry. Qed.

Lemma nle_num_eq (a a' b b' : num) :
  num_eq a a' -> num_eq b b' -> nle a b = nle a' b'.
Proof.
  destruct a as [x| | |], a' as [x'| | |]; cbn [num_eq]; try contradiction;
    destruct b as [y| | |], b' as [y'| | |]; cbn [num_eq]; try contradiction;
    try reflexivity.
  intros Hx Hy. cbn [nle]. apply eq_true_iff_eq. rewrite !Qle_bool_iff. split; lra.
Qed.

Lemma nabs_num_eq (a b : num) : num_eq a b -> num_eq (nabs a) (nabs b).
Proof.
  destruct a as [x| | |], b as [y| | |]; cbn [num_eq nabs]; try contradiction; auto.
  intros H. now rewrite H.
Qed.

Lemma nabs_nneg (a : num) : num_eq (nabs (nneg a)) (nabs a).
Proof. destruct a as [x| | |]; cbn [nneg nabs num_eq]; auto. apply Qabs_opp. Qed.

(** Rounding is symmetric. *)
Lemma round64_opp (q : Q) : num_eq (round64 (- q)) (nneg (round64 q)).
Proof.
  pose proof (roundNearest_opp q) as Ho. pose proof (pow2_pos 1024) as Hp.
  unfold round64.
  destruct (Qle_bool (2 ^ 1024) (roundNearest (- q))) eqn:E1;
    destruct (Qle_bool (roundNearest (- q)) (- 2 ^ 1024)) eqn:E2;
    destruct (Qle_bool (2 ^ 1024) (roundNearest q)) eqn:E3;
    destruct (Qle_bool (roundNearest q) (- 2 ^ 1024)) eqn:E4;
    try apply Qle_bool_iff in E1; try apply Qle_bool_iff in E2;
    try apply Qle_bool_iff in E3; try apply Qle_bool_iff in E4;
    try (apply not_true_iff_false in E1; rewrite Qle_bool_iff in E1);
    try (apply not_true_iff_false in E2; rewrite Qle_bool_iff in E2);
    try (apply not_true_iff_false in E3; rewrite Qle_bool_iff in E3);
    try (apply not_true_iff_false in E4; rewrite Qle_bool_iff in E4);
    cbn [nneg num_eq]; try exact I; try exact Ho; exfalso; lra.
Qed.

Lemma sub64_Fin (x y : Q) : (Fin x - Fin y)%num = round64 (x - y).
Proof. reflexivity. Qed.

(** [Math.abs(a - b)] and [Math.abs(b - a)] are the same number. *)
Lemma nabs_sub64_sym (a b : num) : num_eq (nabs (a - b)) (nabs (b - a)).
Proof.
  destruct a as [x| | |], b as [y| | |]; try exact I.
  rewrite !sub64_Fin.
  rewrite (round64_comp (y - x) (- (x - y))) by ring.
  apply num_eq_sym.
  pose proof (nabs_num_eq _ _ (round64_opp (x - y))) as H1.
  pose proof (nabs_nneg (round64 (x - y))) as H2.
  destruct (nabs (round64 (- (x - y)))) as [u| | |],
    (nabs (nneg (round64 (x - y)))) as [v| | |],
    (nabs (round64 (x - y))) as [w| | |];
    cbn [num_eq] in *; try contradiction; auto.
  now rewrite H1.
Qed.

Lemma apart_sym (gap : num) (a b : Scored) : apart gap a b -> apart gap b a.
Proof.
  unfold apart, nge. intros H.
  rewrite (nle_num_eq gap gap _ _ (num_eq_refl gap) (nabs_sub64_sym (ts b) (ts a))).
  exact H.
Qed.

Lemma nle_trans (a b c : num) : nle a b = true -> nle b c = true -> nle a c = true.
Proof.
  destruct a as [x| | |], b as [y| | |], c as [z| | |];
    cbn [nle]; try discriminate; try reflexivity.
  rewrite !Qle_bool_iff. apply Qle_trans.
Qed.

(** The first gap is NaN or at least the number [1.2]. *)
Lemma minGapOf_cases (duration : num) :
  minGapOf duration = NaN \/ nle (Fin q1_2) (minGapOf duration) = true.
Proof.
  unfold minGapOf. rewrite lit_1_2, lit_0_06.
  destruct duration as [d| | |].
  - right. unfold mul64. cbn [nmul r64].
    destruct (round64_cases (d * q0_06)) as [-> | [[-> _] | [-> _]]].
    + cbn [nmax nle]. apply Qle_bool_iff, Q.le_max_l.
    + reflexivity.
    + cbn [nmax nle]. apply Qle_bool_iff, Qle_refl.
  - right. reflexivity.
  - right. cbn. apply Qle_bool_iff, Qle_refl.
  - now left.
Qed.

(** What is at least [minGap] is at least 1; this holds for each duration,
    finite or not. *)
Lemma nge_minGap_1 (duration v : num) :
  nge v (minGapOf duration) = true -> nge v (Fin 1) = true.
Proof.
  unfold nge. intros H.
  destruct (minGapOf_cases duration) as [E | Hge].
  - rewrite E in H. discriminate H.
  - apply nle_trans with (2 := H). apply nle_trans with (2 := Hge).
    vm_compute. reflexivity.
Qed.

Lemma apart_minGap_1 (duration : num) (a b : Scored) :
  apart (minGapOf duration) a b -> apart (Fin 1) a b.
Proof. apply nge_minGap_1. Qed.

(** No entry is 1 apart from an entry with the same timestamp, itself
    included. *)
Lemma not_apart_same (a b : Scored) : num_eq (ts a) (ts b) -> ~ apart (Fin 1) a b.
Proof.
  unfold apart, nge. destruct (ts a) as [x| | |], (ts b) as [y| | |];
    cbn [num_eq]; try contradiction; try (intros _ H; discriminate H).
  intros Heq. rewrite sub64_Fin, (round64_0 (x - y)) by lra.
  intros H. discriminate H.
Qed.

Lemma not_apart_self (a : Scored) : ~ apart (Fin 1) a a.
Proof. apply not_apart_same, num_eq_refl. Qed.

(** Entries 1 apart are ordered one way or the other by their timestamps. *)
Lemma apart_1_ordered (a b : Scored) :
  apart (Fin 1) a b -> nlt (ts a) (ts b) = true \/ nlt (ts b) (ts a) = true.
Proof.
  intros H. pose proof (not_apart_same a b) as Hne.
  unfold apart, nge in H, Hne.
  destruct (ts a) as [x| | |], (ts b) as [y| | |]; cbn [num_eq] in Hne;
    try discriminate H; cbn [nlt]; auto.
  rewrite !negb_true_iff, <- !not_true_iff_false, !Qle_bool_iff.
  destruct (Qlt_le_dec x y) as [Hlt|Hge]; [left; lra |].
  right. intros Hle. apply Hne; [lra | exact H].
Qed.

Lemma nlt_trans (a b c : num) : nlt a b = true -> nlt b c = true -> nlt a c = true.
Proof.
  destruct a as [x| | |], b as [y| | |], c as [z| | |];
    cbn [nlt]; try discriminate; try reflexivity.
  rewrite !negb_true_iff, <- !not_true_iff_false, !Qle_bool_iff. lra.
Qed.

(** For entries 1 apart the comparison [a.ts - b.ts] is positive exactly when
    [b.ts < a.ts]: the rounded difference has the sign of the exact one. *)
Lemma byTsAsc_pos (a b : Scored) :
  apart (Fin 1) a b -> nlt (Fin 0) (byTsAsc a b) = nlt (ts b) (ts a).
Proof.
  unfold apart, nge, byTsAsc.
  destruct (ts a) as [x| | |], (ts b) as [y| | |]; try reflexivity.
  rewrite sub64_Fin. intros H.
  destruct (Qlt_le_dec y x) as [Hlt | Hge].
  - assert (E : nlt (Fin y) (Fin x) = true) by now apply nlt_Fin.
    rewrite E. pose proof (roundNearest_nonneg (x - y) ltac:(lra)) as Hr.
    destruct (round64_cases (x - y)) as [Er | [[Er _] | [Er Hneg]]]; rewrite Er in *.
    + cbn [nabs nle] in H. apply Qle_bool_iff in H.
      rewrite Qabs_pos in H by exact Hr. apply nlt_Fin. lra.
    + reflexivity.
    + lra.
  - assert (E : nlt (Fin y) (Fin x) = false).
    { apply not_true_iff_false. rewrite nlt_Fin. lra. }
    rewrite E. pose proof (roundNearest_nonpos (x - y) ltac:(lra)) as Hr.
    destruct (round64_cases (x - y)) as [Er | [[Er Hpos] | [Er _]]]; rewrite Er in *.
    + apply not_true_iff_false. rewrite nlt_Fin. lra.
    + lra.
    + reflexivity.
Qed.

(** ** Sorting with a comparison function *)

Lemma sortInsert_perm {A : Type} (cmp : A -> A -> num) (x : A) (l : list A) :
  Permutation (sortInsert cmp x l) (x :: l).
Proof.
  induction l as [|y l IH]; cbn [sortInsert]; [reflexivity |].
  destruct (Fin 0 <? cmp x y)%num; [| reflexivity].
  rewrite IH. apply perm_swap.
Qed.

Lemma jsSort_perm {A : Type} (cmp : A -> A -> num) (l : list A) :
  Permutation (jsSort cmp l) l.
Proof.
  induction l as [|x l IH]; cbn [jsSort fold_right]; [reflexivity |].
  fold (jsSort cmp l). rewrite sortInsert_perm. now constructor.
Qed.

Lemma jsSort_In {A : Type} (cmp : A -> A -> num) (l : list A) (x : A) :
  In x (jsSort cmp l) <-> In x l.
Proof.
  split; apply Permutation_in; [| symmetry]; apply jsSort_perm.
Qed.

Lemma Forall_perm {A : Type} (P : A -> Prop) (l l' : list A) :
  Permutation l l' -> Forall P l -> Forall P l'.
Proof. intros Hp H. now rewrite <- Hp. Qed.

Section SortCorrect.

Context {A : Type} (cmp : A -> A -> num) (R : A -> A -> Prop).
Hypothesis R_trans : forall x y z, R x y -> R y z -> R x z.

Lemma sortInsert_sorted (x : A) (l : list A) :
  StronglySorted R l -> Forall (ordersBy cmp R x) l ->
  StronglySorted R (sortInsert cmp x l).
Proof.
  induction l as [|y l IH]; intros Hs Hx; cbn [sortInsert].
  - repeat constructor.
  - apply StronglySorted_inv in Hs as [Hs Hy].
    apply List.Forall_cons_iff in Hx as [Hxy Hx]. unfold ordersBy in Hxy.
    destruct (Fin 0 <? cmp x y)%num.
    + constructor; [now apply IH |].
      apply (Forall_perm _ (x :: l)); [symmetry; apply sortInsert_perm |].
      now constructor.
    + constructor; [now constructor |].
      constructor; [assumption |].
      apply List.Forall_forall. intros z Hz.
      apply (R_trans x y z); [assumption |].
      rewrite List.Forall_forall in Hy. now apply Hy.
Qed.

(** Where [R] agrees with the comparison on every pair of the input, the
    sorted list is ordered by [R]. *)
Lemma jsSort_sorted (l : list A) :
  ForallOrdPairs (ordersBy cmp R) l -> StronglySorted R (jsSort cmp l).
Proof.
  induction 1 as [|x l Hx Hl IH]; cbn [jsSort fold_right]; [constructor |].
  fold (jsSort cmp l). apply sortInsert_sorted; [assumption |].
  apply (Forall_perm _ l); [symmetry; apply jsSort_perm | assumption].
Qed.

End SortCorrect.

(** ** Relations on all pairs of a list *)

Lemma ForallOrdPairs_snoc {A : Type} (R : A -> A -> Prop) (l : list A) (x : A) :
  ForallOrdPairs R l -> Forall (fun p => R p x) l -> ForallOrdPairs R (l ++ [x]).
Proof.
  induction 1 as [|a l Ha Hl IH]; intros Hx; cbn [app].
  - repeat constructor.
  - apply List.Forall_cons_iff in Hx as [Hax Hx].
    constructor; [| now apply IH].
    apply List.Forall_app. split; [assumption | now constructor].
Qed.

Lemma ForallOrdPairs_impl {A : Type} (R R' : A -> A -> Prop) (l : list A) :
  (forall a b, R a b -> R' a b) -> ForallOrdPairs R l -> ForallOrdPairs R' l.
Proof.
  intros HR. induction 1 as [|a l Ha Hl IH]; constructor; [| assumption].
  revert Ha. apply List.Forall_impl. apply HR.
Qed.

Lemma ForallOrdPairs_inv {A : Type} (R : A -> A -> Prop) (x : A) (l : list A) :
  ForallOrdPairs R (x :: l) -> Forall (R x) l /\ ForallOrdPairs R l.
Proof. inversion 1; subst; now split. Qed.

Lemma ForallOrdPairs_perm {A : Type} (R : A -> A -> Prop) (l l' : list A) :
  (forall a b, R a b -> R b a) ->
  Permutation l l' -> ForallOrdPairs R l -> ForallOrdPairs R l'.
Proof.
  intros Hsym. induction 1 as [|x l l' Hp IH|x y l|l l' l'' Hp1 IH1 Hp2 IH2]; intros H.
  - assumption.
  - apply ForallOrdPairs_inv in H as [Hx Hl].
    constructor; [| now apply IH]. now apply (Forall_perm _ l).
  - apply ForallOrdPairs_inv in H as [Hy H].
    apply ForallOrdPairs_inv in H as [Hx Hl].
    apply List.Forall_cons_iff in Hy as [Hyx Hy].
    constructor; [| now constructor].
    constructor; [now apply Hsym | assumption].
  - auto.
Qed.

Lemma ForallOrdPairs_nth_error {A : Type} (R : A -> A -> Prop) (l : list A) :
  ForallOrdPairs R l ->
  forall (i j : nat) (a b : A),
    (i < j)%nat -> nth_error l i = Some a -> nth_error l j = Some b -> R a b.
Proof.
  induction 1 as [|x l Hx Hl IH]; intros i j a b Hij Ha Hb.
  - destruct i; discriminate.
  - destruct j as [|j]; [lia |]. cbn [nth_error] in Hb.
    destruct i as [|i]; cbn [nth_error] in Ha.
    + injection Ha as <-. apply nth_error_In in Hb.
      rewrite List.Forall_forall in Hx. now apply Hx.
    + apply (IH i j); [lia | assumption | assumption].
Qed.

Lemma ForallOrdPairs_allApart (gap : num) (l : list Scored) :
  ForallOrdPairs (apart gap) l -> allApart gap l.
Proof.
  intros H i j a b Hij Ha Hb.
  destruct (Nat.lt_total i j) as [Hlt|[Heq|Hgt]]; [| contradiction |].
  - exact (ForallOrdPairs_nth_error _ _ H i j a b Hlt Ha Hb).
  - apply apart_sym. exact (ForallOrdPairs_nth_error _ _ H j i b a Hgt Hb Ha).
Qed.

Lemma allApart_ForallOrdPairs (gap : num) (l : list Scored) :
  allApart gap l -> ForallOrdPairs (apart gap) l.
Proof.
  induction l as [|x l IH]; intros H; constructor.
  - apply List.Forall_forall. intros y Hy.
    apply In_nth_error in Hy as [j Hj].
    apply (H 0%nat (S j)); [lia | reflexivity | exact Hj].
  - apply IH. intros i j a b Hij Ha Hb.
    apply (H (S i) (S j)); [lia | exact Ha | exact Hb].
Qed.

(** ** The greedy walks *)

Lemma farFromAll_spec (gap : num) (picks : list Scored) (item : Scored) :
  farFromAll gap picks item = true <-> Forall (fun p => apart gap p item) picks.
Proof.
  unfold farFromAll. rewrite forallb_forall, List.Forall_forall. reflexivity.
Qed.

Lemma greedyPass_keeps (gap : num) (items : list Scored) :
  forall (picks : list Scored) (p : Scored),
    In p picks -> In p (greedyPass gap items picks).
Proof.
  induction items as [|item rest IH]; intros picks p Hp; cbn [greedyPass];
    [assumption |].
  destruct (5 <=? length picks)%nat; [assumption |].
  destruct (farFromAll gap picks item); apply IH; [| assumption].
  apply in_or_app. now left.
Qed.

Lemma greedyPass_from (gap : num) (items : list Scored) :
  forall (picks : list Scored) (p : Scored),
    In p (greedyPass gap items picks) -> In p picks \/ In p items.
Proof.
  induction items as [|item rest IH]; intros picks p Hp; cbn [greedyPass] in Hp;
    [now left |].
  destruct (5 <=? length picks)%nat; [now left |].
  destruct (farFromAll gap picks item).
  - apply IH in Hp as [Hp|Hp]; [| right; now right].
    apply in_app_or in Hp as [Hp|[<-|[]]]; [now left | right; now left].
  - apply IH in Hp as [Hp|Hp]; [now left | right; now right].
Qed.

(** A walk keeps the picks pairwise [gap] apart. *)
Lemma greedyPass_apart (gap : num) (items : list Scored) :
  forall picks : list Scored,
    ForallOrdPairs (apart gap) picks ->
    ForallOrdPairs (apart gap) (greedyPass gap items picks).
Proof.
  induction items as [|item rest IH]; intros picks Hp; cbn [greedyPass];
    [assumption |].
  destruct (5 <=? length picks)%nat; [assumption |].
  destruct (farFromAll gap picks item) eqn:Hfar; apply IH; [| assumption].
  apply ForallOrdPairs_snoc; [assumption | now apply farFromAll_spec].
Qed.

(** A walk never takes the picks beyond five. *)
Lemma greedyPass_length (gap : num) (items : list Scored) :
  forall picks : list Scored,
    (length picks <= 5)%nat -> (length (greedyPass gap items picks) <= 5)%nat.
Proof.
  induction items as [|item rest IH]; intros picks Hp; cbn [greedyPass];
    [assumption |].
  destruct (Nat.leb_spec 5 (length picks)); [assumption |].
  destruct (farFromAll gap picks item); apply IH; [| assumption].
  rewrite length_app. cbn. lia.
Qed.

Lemma firstPass_apart (duration : num) (scored : list Scored) :
  ForallOrdPairs (apart (minGapOf duration)) (firstPass duration scored).
Proof. apply greedyPass_apart. constructor. Qed.

Lemma secondPass_apart (duration : num) (scored : list Scored) :
  ForallOrdPairs (apart (Fin 1)) (secondPass duration scored).
Proof.
  pose proof (firstPass_apart duration scored) as H1.
  apply (ForallOrdPairs_impl _ (apart (Fin 1))) in H1;
    [| intros a b; apply apart_minGap_1].
  unfold secondPass. destruct (length (firstPass duration scored) <? 5)%nat;
    [now apply greedyPass_apart | assumption].
Qed.

Lemma selectTop_perm (duration : num) (scored : list Scored) :
  Permutation (selectTop duration scored) (secondPass duration scored).
Proof. apply jsSort_perm. Qed.

Lemma selectTop_allApart (duration : num) (scored : list Scored) :
  allApart (Fin 1) (selectTop duration scored).
Proof.
  apply ForallOrdPairs_allApart.
  apply (ForallOrdPairs_perm _ (secondPass duration scored));
    [apply apart_sym | symmetry; apply selectTop_perm | apply secondPass_apart].
Qed.

(** Two timestamps that pass the test with the gap 1.0 differ by more than
    [1 - 2^-53]: a smaller difference is rounded to a number below 1. *)
Lemma apart_1_exact (a b : Scored) (x y : Q) :
  ts a = Fin x -> ts b = Fin y -> apart (Fin 1) a b -> 1 - eps64 < Qabs (x - y).
Proof.
  unfold apart, nge. intros -> ->. rewrite sub64_Fin. intros H.
  apply Qnot_le_lt. intros Hclose. apply Qabs_Qle_condition in Hclose as [H1 H2].
  assert (E : roundNearest (1 - eps64) == 1 - eps64) by (vm_compute; reflexivity).
  pose proof (roundNearest_mono _ _ H2) as Hhi. rewrite E in Hhi.
  pose proof (roundNearest_mono _ _ H1) as Hlo.
  rewrite roundNearest_opp, E in Hlo.
  assert (Hbig : 1 < 2 ^ 1024) by (vm_compute; reflexivity).
  assert (Hfin : round64 (x - y) = Fin (roundNearest (x - y))).
  { set (B := 2 ^ 1024) in *. unfold eps64 in *. apply round64_Fin; fold B; lra. }
  rewrite Hfin in H. cbn [nabs nle] in H. apply Qle_bool_iff in H.
  assert (Habs : Qabs (roundNearest (x - y)) <= 1 - eps64)
    by (apply Qabs_Qle_condition; split; assumption).
  unfold eps64 in *. lra.
Qed.

(** C1, as amended.  In the list returned by the selection every two picks
    pass the test of the selector with the gap 1.0: the difference of their
    timestamps, computed in binary64, is at least 1.0.  The exact difference
    of two finite timestamps then exceeds [1 - 2^-53], so no timestamp occurs
    twice.  When the relaxed walk added nothing, so that each pick was
    accepted in the first walk, every two picks pass the test with the gap
    [max(1.2, duration*0.06)].  This holds for each duration and each list of
    scored candidates. *)
Theorem selector_gaps (duration : num) (scored : list Scored) :
  let picks := selectTop duration scored in
  allApart (Fin 1) picks
  /\ (forall (i j : nat) (a b : Scored) (x y : Q),
        i <> j -> nth_error picks i = Some a -> nth_error picks j = Some b ->
        ts a = Fin x -> ts b = Fin y -> 1 - eps64 < Qabs (x - y))
  /\ (forall (i j : nat) (a b : Scored),
        i <> j -> nth_error picks i = Some a -> nth_error picks j = Some b ->
        ~ num_eq (ts a) (ts b))
  /\ (secondPass duration scored = firstPass duration scored ->
      allApart (minGapOf duration) picks).
Proof.
  intros picks. subst picks.
  pose proof (selectTop_allApart duration scored) as H1.
  split; [exact H1 | split; [| split]].
  - intros i j a b x y Hij Ha Hb Hx Hy.
    exact (apart_1_exact a b x y Hx Hy (H1 i j a b Hij Ha Hb)).
  - intros i j a b Hij Ha Hb Heq.
    exact (not_apart_same a b Heq (H1 i j a b Hij Ha Hb)).
  - intros Hsame. apply ForallOrdPairs_allApart.
    apply (ForallOrdPairs_perm _ (secondPass duration scored));
      [apply apart_sym | symmetry; apply selectTop_perm |].
    rewrite Hsame. apply firstPass_apart.
Qed.

Lemma selector_gaps_witness :
  apart (minGapOf (Fin 60))
    {| ts := Fin 1; score := 0.5 |} {| ts := Fin 5; score := 0.9 |}.
Proof.
  apply (proj2 (proj2 (proj2 (selector_gaps (Fin 60) samplePool)))
           ltac:(vm_compute; reflexivity) 0%nat 1%nat);
    [lia | vm_compute; reflexivity | vm_compute; reflexivity].
Defined.

(** C1 fails as stated: the binary64 numbers written [0.2] and [1.2] differ
    by less than 1, but their difference is rounded to 1 and the selection
    returns both. *)
Lemma selector_gaps_rounded :
  exists x y : Q,
    lit 0.2 = Fin x /\ lit 1.2 = Fin y
    /\ selectTop (Fin 60)
         [ {| ts := Fin x; score := 0.5 |}; {| ts := Fin y; score := 0.9 |} ]
       = [ {| ts := Fin x; score := 0.5 |}; {| ts := Fin y; score := 0.9 |} ]
    /\ Qabs (x - y) < 1.
Proof.
  do 2 eexists. split; [vm_compute; reflexivity |].
  split; [vm_compute; reflexivity |].
  split; vm_compute; reflexivity.
Qed.

(** ** The best candidate is always picked *)

Lemma ForallOrdPairs_all {A : Type} (R : A -> A -> Prop) (l : list A) :
  (forall a b, R a b) -> ForallOrdPairs R l.
Proof.
  intros H. induction l as [|x l IH]; constructor; [| assumption].
  apply List.Forall_forall. intros y _. apply H.
Qed.

(** After the sort by score no entry has a smaller score than a later one. *)
Lemma sort_byScoreDesc_sorted (scored : list Scored) :
  StronglySorted (fun a b => score b <= score a) (jsSort byScoreDesc scored).
Proof.
  apply jsSort_sorted.
  - intros x y z Hxy Hyz. lra.
  - apply ForallOrdPairs_all. intros a b. unfold ordersBy, byScoreDesc.
    destruct (Fin 0 <? Fin (score b - score a))%num eqn:E.
    + apply nlt_Fin in E. lra.
    + apply not_true_iff_false in E. rewrite nlt_Fin in E. lra.
Qed.

Lemma secondPass_keeps_first (duration : num) (scored : list Scored) (p : Scored) :
  In p (firstPass duration scored) -> In p (secondPass duration scored).
Proof.
  intros H. unfold secondPass.
  destruct (length (firstPass duration scored) <? 5)%nat;
    [now apply greedyPass_keeps | assumption].
Qed.

Lemma secondPass_from (duration : num) (scored : list Scored) (p : Scored) :
  In p (secondPass duration scored) -> In p scored.
Proof.
  assert (H1 : In p (firstPass duration scored) -> In p scored).
  { intros H. apply greedyPass_from in H as [[]|H]. now apply jsSort_In in H. }
  unfold secondPass. destruct (length (firstPass duration scored) <? 5)%nat;
    [| exact H1].
  intros H. apply greedyPass_from in H as [H|H]; [now apply H1 |].
  now apply jsSort_In in H.
Qed.

Lemma selectTop_In (duration : num) (scored : list Scored) (p : Scored) :
  In p (selectTop duration scored) <-> In p (secondPass duration scored).
Proof. apply jsSort_In. Qed.

(** C10.  For a list of scored candidates that is not empty the selection is
    not empty: the first entry of the order by descending score is accepted
    whatever the gap, and it has the largest score of the list.  Each pick is
    an entry of the list, timestamp and score as they were. *)
Theorem selector_keeps_best (duration : num) (scored : list Scored) :
  scored <> [] ->
  let picks := selectTop duration scored in
  picks <> []
  /\ (exists p, hd_error (jsSort byScoreDesc scored) = Some p
                /\ In p picks
                /\ forall q, In q scored -> score q <= score p)
  /\ (forall p, In p picks -> In p scored).
Proof.
  intros Hne picks. subst picks.
  assert (Hbest : exists p, hd_error (jsSort byScoreDesc scored) = Some p
                  /\ In p (selectTop duration scored)
                  /\ forall q, In q scored -> score q <= score p).
  { pose proof (sort_byScoreDesc_sorted scored) as Hsorted.
    pose proof (jsSort_In byScoreDesc scored) as Hin.
    assert (Hfirst : forall p, In p (firstPass duration scored) ->
                               In p (selectTop duration scored)).
    { intros p Hp. now apply selectTop_In, secondPass_keeps_first. }
    unfold firstPass in Hfirst.
    destruct (jsSort byScoreDesc scored) as [|h rest].
    - destruct scored as [|x l]; [contradiction |].
      destruct (proj2 (Hin x)). now left.
    - exists h. split; [reflexivity |]. split.
      + apply Hfirst. cbn [greedyPass length Nat.leb farFromAll forallb app].
        apply greedyPass_keeps. now left.
      + intros q Hq. apply Hin in Hq as [<-|Hq]; [lra |].
        apply StronglySorted_inv in Hsorted as [_ Hh].
        rewrite List.Forall_forall in Hh. now apply Hh. }
  split; [| split; [exact Hbest |]].
  - destruct Hbest as (p & _ & Hp & _). intros E. rewrite E in Hp. destruct Hp.
  - intros p Hp. now apply selectTop_In, secondPass_from in Hp.
Qed.

Lemma selector_keeps_best_witness :
  exists p, In p (selectTop (Fin 60) samplePool)
            /\ forall q, In q samplePool -> score q <= score p.
Proof.
  destruct (selector_keeps_best (Fin 60) samplePool ltac:(discriminate))
    as (_ & (p & _ & Hp & Hmax) & _).
  exists p. split; assumption.
Defined.

(** ** Chronological order and small pools *)

(** The picks are returned in strictly ascending order of timestamp. *)
Lemma selectTop_chronological (duration : num) (scored : list Scored) :
  chronological (selectTop duration scored).
Proof.
  apply jsSort_sorted.
  - intros x y z. apply nlt_trans.
  - apply (ForallOrdPairs_impl (apart (Fin 1))); [| apply secondPass_apart].
    intros a b Hab. unfold ordersBy. rewrite (byTsAsc_pos a b Hab).
    destruct (nlt (ts b) (ts a)) eqn:E; [reflexivity |].
    destruct (apart_1_ordered a b Hab) as [H|H]; [exact H | congruence].
Qed.

Lemma Scored_eq_dec (a b : Scored) : {a = b} + {a <> b}.
Proof. repeat decide equality. Qed.

Lemma forallb_false_exists {A : Type} (f : A -> bool) (l : list A) :
  forallb f l = false -> exists x, In x l /\ f x = false.
Proof.
  induction l as [|y l IH]; cbn [forallb]; [discriminate |].
  intros H. apply andb_false_iff in H as [H|H].
  - exists y. split; [now left | exact H].
  - destruct (IH H) as (x & Hx & Hf). exists x. split; [now right | exact Hf].
Qed.

Lemma allApart_NoDup (l : list Scored) : allApart (Fin 1) l -> List.NoDup l.
Proof.
  intros H. apply NoDup_nth_error. intros i j Hi Heq.
  destruct (Nat.eq_dec i j) as [|Hne]; [assumption | exfalso].
  destruct (nth_error l i) as [a|] eqn:Ha; [| now apply nth_error_None in Ha; lia].
  exact (not_apart_self a (H i j a a Hne Ha (eq_sym Heq))).
Qed.

Lemma allApart_In (l : list Scored) (a b : Scored) :
  allApart (Fin 1) l -> In a l -> In b l -> a <> b -> apart (Fin 1) a b.
Proof.
  intros H Ha Hb Hab.
  apply In_nth_error in Ha as [i Hi]. apply In_nth_error in Hb as [j Hj].
  apply (H i j); [| assumption | assumption]. intros ->. congruence.
Qed.

(** In a pool of fewer than five entries that are pairwise 1 apart, a walk
    with gap 1 ends with every entry it walked over among the picks. *)
Lemma greedyPass_covers (pool : list Scored) :
  allApart (Fin 1) pool -> (length pool < 5)%nat ->
  forall (items picks : list Scored),
    List.NoDup picks -> incl picks pool -> incl items pool ->
    forall x, In x items -> In x (greedyPass (Fin 1) items picks).
Proof.
  intros Hpool Hlen. induction items as [|item rest IH];
    intros picks Hnd Hpicks Hitems x Hx; [destruct Hx |].
  cbn [greedyPass].
  pose proof (NoDup_incl_length Hnd Hpicks) as Hshort.
  destruct (Nat.leb_spec 5 (length picks)) as [|_]; [lia |].
  assert (Hrest : incl rest pool) by (intros y Hy; apply Hitems; now right).
  destruct (farFromAll (Fin 1) picks item) eqn:Hfar.
  - assert (Hfresh : ~ In item picks).
    { intros Hin. apply farFromAll_spec in Hfar.
      rewrite List.Forall_forall in Hfar. exact (not_apart_self item (Hfar item Hin)). }
    assert (Hnd' : List.NoDup (picks ++ [item])).
    { apply List.NoDup_app; [assumption | repeat constructor; intros [] |].
      intros y Hy [<-|[]]. contradiction. }
    assert (Hpicks' : incl (picks ++ [item]) pool).
    { apply incl_app; [assumption |]. intros y [<-|[]]. apply Hitems. now left. }
    destruct Hx as [<-|Hx].
    + apply greedyPass_keeps, in_or_app. right. now left.
    + now apply IH.
  - destruct Hx as [<-|Hx]; [| now apply IH].
    apply greedyPass_keeps.
    apply forallb_false_exists in Hfar as (p & Hp & Hclose).
    destruct (Scored_eq_dec p item) as [<-|Hne]; [assumption | exfalso].
    apply not_true_iff_false in Hclose. apply Hclose.
    apply (allApart_In pool); [assumption | now apply Hpicks | | assumption].
    apply Hitems. now left.
Qed.

Lemma ForallOrdPairs_apart_NoDup (l : list Scored) :
  ForallOrdPairs (apart (Fin 1)) l -> List.NoDup l.
Proof. intros H. now apply allApart_NoDup, ForallOrdPairs_allApart. Qed.

(** C9, as amended.  For a pool of fewer than 5 scored entries the selection
    returns entries of the pool in strictly ascending order of timestamp,
    every two of them passing the test of the selector with the gap 1.0 (the
    difference of their timestamps, computed in binary64, is at least 1.0);
    it returns all entries of the pool exactly when every two entries of the
    pool pass that test. *)
Theorem selector_small_pool (duration : num) (scored : list Scored) :
  (length scored < 5)%nat ->
  let picks := selectTop duration scored in
  chronological picks
  /\ allApart (Fin 1) picks
  /\ (forall p, In p picks -> In p scored)
  /\ (Permutation picks scored <-> allApart (Fin 1) scored).
Proof.
  intros Hlen picks. subst picks.
  split; [apply selectTop_chronological |].
  split; [apply selectTop_allApart |].
  split; [intros p Hp; now apply selectTop_In, secondPass_from in Hp |].
  split.
  - intros Hperm. apply ForallOrdPairs_allApart.
    apply (ForallOrdPairs_perm _ (selectTop duration scored));
      [apply apart_sym | assumption |].
    apply allApart_ForallOrdPairs, selectTop_allApart.
  - intros Hpool.
    pose proof (allApart_NoDup scored Hpool) as Hnd.
    pose proof (ForallOrdPairs_apart_NoDup _ (secondPass_apart duration scored)) as Hnd2.
    rewrite selectTop_perm.
    apply Permutation.NoDup_Permutation; [assumption | assumption |].
    intros x. split; [apply secondPass_from |]. intros Hx.
    assert (Hnd1 : List.NoDup (firstPass duration scored)).
    { apply ForallOrdPairs_apart_NoDup.
      apply (ForallOrdPairs_impl (apart (minGapOf duration)));
        [intros a b; apply apart_minGap_1 | apply firstPass_apart]. }
    assert (Hincl1 : incl (firstPass duration scored) scored).
    { intros y Hy. now apply secondPass_from with duration, secondPass_keeps_first. }
    pose proof (NoDup_incl_length Hnd1 Hincl1) as Hshort.
    unfold secondPass.
    destruct (Nat.ltb_spec (length (firstPass duration scored)) 5) as [_|]; [| lia].
    apply (greedyPass_covers scored); try assumption.
    + intros y Hy. now apply jsSort_In in Hy.
    + now apply jsSort_In.
Qed.

Lemma selector_small_pool_witness :
  (length [ {| ts := Fin 1; score := 0.5 |}; {| ts := Fin 4; score := 0.9 |} ] < 5)%nat
  /\ chronological
       (selectTop (Fin 60)
          [ {| ts := Fin 1; score := 0.5 |}; {| ts := Fin 4; score := 0.9 |} ]).
Proof.
  split; [cbn; lia |].
  apply (selector_small_pool (Fin 60)). cbn. lia.
Defined.

(** C9 fails as stated: of two entries half a second apart only the one with
    the better score is returned. *)
Lemma selector_small_pool_drops :
  (length closePool < 5)%nat
  /\ selectTop (Fin 60) closePool = [ {| ts := Fin 1.5; score := 0.9 |} ]
  /\ ~ Permutation (selectTop (Fin 60) closePool) closePool.
Proof.
  split; [cbn; lia |]. split; [vm_compute; reflexivity |].
  intros H. apply Permutation_length in H. vm_compute in H. discriminate.
Qed.

(** ** The prober *)

(** The prober raises exactly when the tool fails or the trimmed report does
    not convert to a finite number, and returns that number otherwise. *)
Lemma ffprobeDurationSeconds_spec (w : World) (video : string) :
  ffprobeDurationSeconds w video =
  match runExecFile (ffprobe w video) with
  | Throw m => Throw m
  | Ok out =>
      match StringToNumber (trim (fst out)) with
      | Fin n => Ok n
      | _ => Throw "Bad duration"
      end
  end.
Proof.
  unfold ffprobeDurationSeconds. now destruct (runExecFile (ffprobe w video)).
Qed.

Lemma trimStart_blank (s : string) :
  allChars isWhiteSpace s = true -> trimStart s = EmptyString.
Proof.
  induction s as [|c s IH]; [reflexivity |]. cbn [allChars trimStart].
  intros H. apply andb_true_iff in H as [-> Hs]. now apply IH.
Qed.

Lemma StringToNumber_blank (s : string) :
  allChars isWhiteSpace s = true -> StringToNumber (trim s) = Fin 0.
Proof.
  intros H. unfold trim. rewrite (trimStart_blank s H). reflexivity.
Qed.

(** C8, the failing case.  When the tool exits normally and its report is
    empty or only white space, the prober does not raise: the report
    converts to 0 and the duration returned is 0. *)
Theorem prober_blank_report (w : World) (video out err : string) :
  ffprobe w video = exited out err ->
  allChars isWhiteSpace out = true ->
  ffprobeDurationSeconds w video = Ok 0.
Proof.
  intros Hw Hblank. rewrite ffprobeDurationSeconds_spec, Hw.
  cbn [runExecFile exited execError execStdout execStderr fst].
  now rewrite StringToNumber_blank.
Qed.

Lemma prober_blank_report_witness :
  ffprobeDurationSeconds silentProbeWorld "video.mp4" = Ok 0.
Proof.
  apply (prober_blank_report silentProbeWorld "video.mp4" "" ""); reflexivity.
Defined.

(** The reports the tool really prints: a decimal number and a line feed, or
    [N/A] when the container has no duration. *)
Example prober_decimal_report (w : World) :
  ffprobe w "video.mp4" = exited (String.append "12.500000" (String "010" "")) "" ->
  ffprobeDurationSeconds w "video.mp4" = Ok 12.500000.
Proof.
  intros Hw. rewrite ffprobeDurationSeconds_spec, Hw. reflexivity.
Qed.

Example prober_unknown_duration (w : World) :
  ffprobe w "video.mp4" = exited (String.append "N/A" (String "010" "")) "" ->
  ffprobeDurationSeconds w "video.mp4" = Throw "Bad duration".
Proof.
  intros Hw. rewrite ffprobeDurationSeconds_spec, Hw. reflexivity.
Qed.

(** ** The selection run *)

Lemma scoreFrameJpg_Ok (w : World) (jpg : FramePath) :
  exists q, scoreFrameJpg w jpg = Ok q.
Proof. destruct (scoreFrameJpg_range w jpg) as (q & Hq & _). now exists q. Qed.

(** A rejected extraction ends the scoring loop with a rejection: the first
    one met. *)
Lemma scoreLoop_throws (w : World) (video : string) :
  forall (candidates : list num) (i : nat) (scored : list Scored)
         (k : nat) (t : num) (m : string),
    nth_error candidates k = Some t ->
    extractJpgAt w video t {| frameIndex := i + k; frameTs := t |} (Some 320%Z)
    = Throw m ->
    exists (k' : nat) (t' : num) (m' : string),
      (k' <= k)%nat
      /\ nth_error candidates k' = Some t'
      /\ extractJpgAt w video t' {| frameIndex := i + k'; frameTs := t' |} (Some 320%Z)
         = Throw m'
      /\ (forall j tj, (j < k')%nat -> nth_error candidates j = Some tj ->
            extractJpgAt w video tj {| frameIndex := i + j; frameTs := tj |}
              (Some 320%Z) = Ok tt)
      /\ scoreLoop w video candidates i scored = Throw m'.
Proof.
  induction candidates as [|c rest IH]; intros i scored k t m Hk Hfail.
  - destruct k; discriminate.
  - cbn [scoreLoop].
    destruct (extractJpgAt w video c {| frameIndex := i; frameTs := c |} (Some 320%Z))
      as [[]|m0] eqn:Hc.
    + destruct k as [|k].
      * injection Hk as <-. rewrite Nat.add_0_r in Hfail. congruence.
      * cbn [nth_error] in Hk. rewrite <- Nat.add_succ_comm in Hfail.
        destruct (scoreFrameJpg_Ok w {| frameIndex := i; frameTs := c |}) as [q ->].
        destruct (IH (S i) (scored ++ [{| ts := c; score := q |}]) k t m Hk Hfail)
          as (k' & t' & m' & Hle & Hk' & Hf' & Hbefore & Hloop).
        exists (S k'), t', m'. rewrite <- Nat.add_succ_comm.
        repeat split; [lia | assumption | assumption | | exact Hloop].
        intros [|j] tj Hj Hnth; cbn [nth_error] in Hnth.
        -- injection Hnth as <-. now rewrite Nat.add_0_r.
        -- rewrite <- Nat.add_succ_comm. apply Hbefore; [lia | assumption].
    + exists 0%nat, c, m0. rewrite Nat.add_0_r.
      repeat split; [lia | assumption | intros j tj Hj; lia].
Qed.

(** C3, as amended.  When the extraction of a frame is rejected for a
    candidate during the scoring loop, the loop is left at the first such
    candidate and the selection run is rejected with the message of that
    extraction: no candidate is scored after it and no picks are returned. *)
Theorem extraction_failure_aborts (w : World) (video : string) (duration : Q)
    (k : nat) (t : num) (m : string) :
  ffprobeDurationSeconds w video = Ok duration ->
  nth_error (makeCandidateTimes (Fin duration) 180) k = Some t ->
  extractJpgAt w video t {| frameIndex := k; frameTs := t |} (Some 320%Z) = Throw m ->
  exists (k' : nat) (t' : num) (m' : string),
    (k' <= k)%nat
    /\ nth_error (makeCandidateTimes (Fin duration) 180) k' = Some t'
    /\ extractJpgAt w video t' {| frameIndex := k'; frameTs := t' |} (Some 320%Z)
       = Throw m'
    /\ (forall j tj, (j < k')%nat ->
          nth_error (makeCandidateTimes (Fin duration) 180) j = Some tj ->
          extractJpgAt w video tj {| frameIndex := j; frameTs := tj |} (Some 320%Z)
          = Ok tt)
    /\ autoPickTop5Times w video = Throw m'.
Proof.
  intros Hprobe Hk Hfail.
  destruct (scoreLoop_throws w video _ 0%nat [] k t m Hk Hfail)
    as (k' & t' & m' & Hle & Hk' & Hf' & Hbefore & Hloop).
  exists k', t', m'. repeat split; try assumption.
  unfold autoPickTop5Times. rewrite Hprobe. cbn [mbind result_bind].
  now rewrite Hloop.
Qed.

Lemma extraction_failure_aborts_witness :
  exists m, autoPickTop5Times brokenFrameWorld "video.mp4" = Throw m.
Proof.
  destruct (extraction_failure_aborts brokenFrameWorld "video.mp4" 60.000000 3
              (Fin (5435740015361133 # 1125899906842624))
              "Invalid data found when processing input")
    as (k' & t' & m' & _ & _ & _ & _ & Hrun);
    [reflexivity | vm_compute; reflexivity | reflexivity |].
  exists m'. exact Hrun.
Defined.

(** C3 fails as stated: with a single frame that cannot be extracted the run
    is rejected, although the frames before and after it can be extracted. *)
Lemma extraction_failure_not_absorbed :
  (forall (t : num) (i : nat), i <> 3%nat ->
     extractJpgAt brokenFrameWorld "video.mp4" t
       {| frameIndex := i; frameTs := t |} (Some 320%Z) = Ok tt)
  /\ autoPickTop5Times brokenFrameWorld "video.mp4"
     = Throw "Invalid data found when processing input".
Proof.
  split.
  - intros t i Hi. unfold extractJpgAt, brokenFrameWorld. cbn.
    destruct (Nat.eqb_spec i 3); [contradiction | reflexivity].
  - vm_compute. reflexivity.
Qed.

(** The loop scores every candidate when every extraction succeeds. *)
Lemma scoreLoop_ok (w : World) (video : string) :
  forall (candidates : list num) (i : nat) (scored : list Scored),
    (forall k t, nth_error candidates k = Some t ->
       extractJpgAt w video t {| frameIndex := i + k; frameTs := t |} (Some 320%Z)
       = Ok tt) ->
    exists added : list Scored,
      scoreLoop w video candidates i scored = Ok (scored ++ added)
      /\ map ts added = candidates
      /\ Forall (fun s => 0 <= score s <= 1) added.
Proof.
  induction candidates as [|c rest IH]; intros i scored Hall.
  - exists []. now rewrite app_nil_r.
  - cbn [scoreLoop].
    pose proof (Hall 0%nat c eq_refl) as Hc. rewrite Nat.add_0_r in Hc. rewrite Hc.
    destruct (scoreFrameJpg_range w {| frameIndex := i; frameTs := c |})
      as (q & -> & Hq).
    cbn [mbind result_bind].
    destruct (IH (S i) (scored ++ [{| ts := c; score := q |}])) as (added & -> & Hts & Hsc).
    { intros k t Hk. rewrite Nat.add_succ_comm. now apply (Hall (S k)). }
    exists ({| ts := c; score := q |} :: added).
    rewrite <- app_assoc. repeat split.
    + cbn [map ts]. now rewrite Hts.
    + now constructor.
Qed.

Lemma selectTop_length (duration : num) (scored : list Scored) :
  (length (selectTop duration scored) <= 5)%nat.
Proof.
  rewrite (Permutation_length (selectTop_perm duration scored)).
  assert (H1 : (length (firstPass duration scored) <= 5)%nat).
  { apply greedyPass_length. cbn. lia. }
  unfold secondPass. destruct (length (firstPass duration scored) <? 5)%nat;
    [now apply greedyPass_length | assumption].
Qed.

(** The run as a whole.  When the duration is read and every frame can be
    extracted, the run returns the duration and at most five picks, chosen
    among one scored entry per planned timestamp with scores in [[0,1]],
    pairwise 1.0 apart and in chronological order. *)
Theorem autoPick_succeeds (w : World) (video : string) (duration : Q) :
  ffprobeDurationSeconds w video = Ok duration ->
  (forall k t, nth_error (makeCandidateTimes (Fin duration) 180) k = Some t ->
     extractJpgAt w video t {| frameIndex := k; frameTs := t |} (Some 320%Z) = Ok tt) ->
  exists scored : list Scored,
    autoPickTop5Times w video = Ok (duration, selectTop (Fin duration) scored)
    /\ map ts scored = makeCandidateTimes (Fin duration) 180
    /\ Forall (fun s => 0 <= score s <= 1) scored
    /\ (length (selectTop (Fin duration) scored) <= 5)%nat
    /\ allApart (Fin 1) (selectTop (Fin duration) scored)
    /\ chronological (selectTop (Fin duration) scored).
Proof.
  intros Hprobe Hall.
  destruct (scoreLoop_ok w video (makeCandidateTimes (Fin duration) 180) 0%nat [])
    as (scored & Hloop & Hts & Hsc); [exact Hall |].
  exists scored. unfold autoPickTop5Times. rewrite Hprobe. cbn [mbind result_bind].
  rewrite Hloop. cbn [app].
  repeat split; try assumption.
  - apply selectTop_length.
  - apply selectTop_allApart.
  - apply selectTop_chronological.
Qed.

(** ** The shape of the selection *)

(** X1.  For each duration and each pool the selection returns at most five
    picks, in strictly ascending order of timestamp. *)
Theorem selector_shape (duration : num) (scored : list Scored) :
  (length (selectTop duration scored) <= 5)%nat
  /\ chronological (selectTop duration scored).
Proof. split; [apply selectTop_length | apply selectTop_chronological]. Qed.

Lemma autoPick_succeeds_witness :
  exists scored : list Scored,
    autoPickTop5Times idealFrameWorld "video.mp4"
    = Ok (60.000000, selectTop (Fin 60.000000) scored).
Proof.
  destruct (autoPick_succeeds idealFrameWorld "video.mp4" 60.000000)
    as (scored & Hrun & _); [reflexivity | intros k t _; reflexivity |].
  exists scored. exact Hrun.
Defined.

(** ** Parsing the statistics *)

Lemma append_cons (c : ascii) (a b : string) : String c a +:+ b = String c (a +:+ b).
Proof. reflexivity. Qed.

Lemma append_nil_l (b : string) : EmptyString +:+ b = b.
Proof. reflexivity. Qed.

Lemma append_nil_r (a : string) : a +:+ EmptyString = a.
Proof. induction a as [|x a IH]; [reflexivity | now rewrite append_cons, IH]. Qed.

Lemma append_assoc (a b c : string) : (a +:+ b) +:+ c = a +:+ (b +:+ c).
Proof.
  induction a as [|x a IH]; [reflexivity | now rewrite !append_cons, IH].
Qed.

Lemma append_length (a b : string) :
  String.length (a +:+ b) = (String.length a + String.length b)%nat.
Proof.
  induction a as [|x a IH]; [reflexivity |].
  rewrite append_cons. cbn [String.length]. now rewrite IH.
Qed.

Lemma dropPrefix_app (p r : string) : dropPrefix p (p +:+ r) = Some r.
Proof.
  induction p as [|c p IH]; [now destruct r |].
  rewrite append_cons. cbn [dropPrefix]. now rewrite Ascii.eqb_refl.
Qed.

(** Up to a character outside of the class the longest prefix is the whole
    run. *)
Lemma takeWhile_app (p : ascii -> bool) (a : string) (c : ascii) (r : string) :
  allChars p a = true -> p c = false ->
  takeWhile p (a +:+ String c r) = (a, String c r).
Proof.
  intros Ha Hc. induction a as [|x a IH].
  - rewrite append_nil_l. cbn [takeWhile]. now rewrite Hc.
  - cbn [allChars] in Ha. apply andb_true_iff in Ha as [Hx Ha].
    rewrite append_cons. cbn [takeWhile]. now rewrite Hx, IH.
Qed.

Lemma execAll_skip (a r : string) : execAll (String.length a) (a +:+ r) = execAll 0 r.
Proof.
  induction a as [|x a IH]; [reflexivity |].
  rewrite append_cons. cbn [String.length execAll]. exact IH.
Qed.

Lemma matchStatAt_other (c : ascii) (s : string) :
  notMarkerStart c = true -> matchStatAt (String c s) = None.
Proof.
  unfold notMarkerStart, matchStatAt, statsPrefix. intros H.
  apply negb_true_iff in H. cbn [dropPrefix]. now rewrite Ascii.eqb_sym, H.
Qed.

(** Text without an [l] holds no match. *)
Lemma execAll_junk (junk r : string) :
  allChars notMarkerStart junk = true -> execAll 0 (junk +:+ r) = execAll 0 r.
Proof.
  induction junk as [|c junk IH]; intros H; [reflexivity |].
  cbn [allChars] in H. apply andb_true_iff in H as [Hc Hj].
  rewrite append_cons. cbn [execAll]. rewrite (matchStatAt_other c _ Hc). now apply IH.
Qed.

Lemma statsPrefix_cons (r : string) :
  statsPrefix +:+ r = String "l" ("avfi.signalstats." +:+ r).
Proof. reflexivity. Qed.

Lemma execAll_match (c : ascii) (s k v : string) (len : nat) :
  matchStatAt (String c s) = Some (k, v, len) ->
  execAll 0 (String c s) = (k, v) :: execAll (Nat.pred len) s.
Proof. intros H. cbn [execAll]. now rewrite H. Qed.

Lemma matchStatAt_line (k v tail : string) :
  k <> EmptyString -> v <> EmptyString ->
  allChars isUpper k = true -> allChars isStatChar v = true ->
  matchStatAt (statsPrefix +:+ k +:+ String "=" (v +:+ String "010" tail))
  = Some (k, v, (String.length statsPrefix + String.length k + 1 + String.length v)%nat).
Proof.
  intros Hk0 Hv0 Hk Hv. unfold matchStatAt. rewrite dropPrefix_app.
  rewrite (takeWhile_app isUpper _ "=" _ Hk eq_refl).
  rewrite (takeWhile_app isStatChar _ "010" _ Hv eq_refl).
  destruct k as [|k0 k]; [contradiction |].
  destruct v as [|v0 v]; [contradiction |].
  now rewrite Ascii.eqb_refl.
Qed.

(** A well-formed line gives one match, whatever follows it. *)
Lemma execAll_line (l : StatLine) (rest : string) :
  wellFormedLine l ->
  execAll 0 (renderLine l +:+ rest) = (lineKey l, lineValue l) :: execAll 0 rest.
Proof.
  intros (Hjunk & Hk0 & Hk & Hv0 & Hv). unfold renderLine, lineFeed.
  rewrite !append_assoc, (execAll_junk _ _ Hjunk).
  rewrite !append_cons, !append_nil_l.
  pose proof (matchStatAt_line (lineKey l) (lineValue l) rest Hk0 Hv0 Hk Hv) as Hmatch.
  rewrite statsPrefix_cons in Hmatch |- *.
  rewrite (execAll_match _ _ _ _ _ Hmatch).
  f_equal.
  replace (Nat.pred (String.length statsPrefix + String.length (lineKey l) + 1
                     + String.length (lineValue l)))
    with (String.length ("avfi.signalstats." +:+ lineKey l +:+ String "=" (lineValue l))).
  - replace ("avfi.signalstats." +:+ lineKey l +:+ String "=" (lineValue l +:+ String "010" rest))
      with (("avfi.signalstats." +:+ lineKey l +:+ String "=" (lineValue l)) +:+ String "010" rest)
      by now rewrite !append_assoc, !append_cons.
    rewrite execAll_skip. cbn [execAll]. now rewrite matchStatAt_other.
  - rewrite !append_length. cbn [String.length statsPrefix]. lia.
Qed.

(** The matches of a text of well-formed lines are its keys and values, in
    the order of the lines. *)
Lemma execAll_lines (ls : list StatLine) :
  Forall wellFormedLine ls ->
  execAll 0 (renderLines ls) = map (fun l => (lineKey l, lineValue l)) ls.
Proof.
  induction 1 as [|l ls Hl Hls IH]; [reflexivity |].
  cbn [renderLines fold_right map]. fold (renderLines ls).
  now rewrite execAll_line, IH.
Qed.

Lemma renderLines_app (ls ls' : list StatLine) :
  renderLines (ls ++ ls') = renderLines ls +:+ renderLines ls'.
Proof.
  induction ls as [|l ls IH]; [reflexivity |].
  cbn [app renderLines fold_right]. fold (renderLines (ls ++ ls')).
  fold (renderLines ls). now rewrite IH, append_assoc.
Qed.

(** X.  Printing and parsing.  From a text of well-formed lines
    [parseSignalstats] reads each line: after a further line the object maps
    the key of that line to the number its value converts to, whatever the
    key held before, and every other key to what it held before. *)
Theorem parseSignalstats_lines (ls : list StatLine) (l : StatLine) :
  Forall wellFormedLine ls -> wellFormedLine l ->
  parseSignalstats (renderLines (ls ++ [l]))
  = <[lineKey l := StringToNumber (lineValue l)]> (parseSignalstats (renderLines ls))
  /\ parseSignalstats (renderLines (ls ++ [l])) !! lineKey l
     = Some (StringToNumber (lineValue l))
  /\ forall key, key <> lineKey l ->
       parseSignalstats (renderLines (ls ++ [l])) !! key
       = parseSignalstats (renderLines ls) !! key.
Proof.
  intros Hls Hl.
  assert (E : parseSignalstats (renderLines (ls ++ [l]))
              = <[lineKey l := StringToNumber (lineValue l)]>
                  (parseSignalstats (renderLines ls))).
  { unfold parseSignalstats. rewrite !execAll_lines; [| assumption |].
    - rewrite map_app, fold_left_app. reflexivity.
    - apply List.Forall_app. split; [assumption | now constructor]. }
  split; [exact E |]. rewrite E. split.
  - apply lookup_insert_eq.
  - intros key Hne. now apply lookup_insert_ne.
Qed.

Lemma parseSignalstats_lines_witness :
  parseSignalstats (renderLines sampleLines) !! "YAVG"%string = Some (Fin 120).
Proof.
  apply (parseSignalstats_lines
           (firstn 2 sampleLines)
           {| lineJunk := ""; lineKey := "YAVG"; lineValue := "120" |});
    repeat constructor; discriminate.
Defined.

Lemma matchStatAt_key (s k v : string) (len : nat) :
  matchStatAt s = Some (k, v, len) -> k <> EmptyString /\ allChars isUpper k = true.
Proof.
  unfold matchStatAt. destruct (dropPrefix statsPrefix s) as [r|]; [| discriminate].
  pose proof (takeWhile_allChars isUpper r) as Hk.
  destruct (takeWhile isUpper r) as [[|k0 k'] [|c r']]; try discriminate.
  destruct (c =? "=")%char; [| discriminate].
  destruct (takeWhile isStatChar r') as [[|v0 v'] rest]; [discriminate |].
  intros [= <- _ _]. split; [discriminate | exact Hk].
Qed.

Lemma execAll_keys (s : string) :
  forall (skip : nat) (k v : string),
    In (k, v) (execAll skip s) -> k <> EmptyString /\ allChars isUpper k = true.
Proof.
  induction s as [|c s IH]; intros skip k v Hin; cbn [execAll] in Hin.
  - destruct Hin.
  - destruct skip as [|n]; [| now apply (IH n k v)].
    destruct (matchStatAt (String c s)) as [[[k' v'] len]|] eqn:Hm.
    + destruct Hin as [[= <- <-]|Hin].
      * now apply matchStatAt_key in Hm.
      * now apply (IH (Nat.pred len) k v).
    + now apply (IH 0%nat k v).
Qed.

Lemma fold_insert_from (ms : list (string * string)) :
  forall (out : gmap string num) (key : string) (v : num),
    fold_left (fun out m => <[fst m := StringToNumber (snd m)]> out) ms out !! key
    = Some v ->
    out !! key = Some v
    \/ exists text, In (key, text) ms /\ v = StringToNumber text.
Proof.
  induction ms as [|[k0 v0] ms IH]; intros out key v H; cbn [fold_left] in H;
    [now left |].
  apply IH in H as [H|(text & Hin & ->)].
  - cbn [fst snd] in H. destruct (decide (k0 = key)) as [->|Hne].
    + rewrite lookup_insert_eq in H. injection H as <-.
      right. exists v0. split; [now left | reflexivity].
    + rewrite lookup_insert_ne in H by assumption. now left.
  - right. exists text. split; [now right | reflexivity].
Qed.

Lemma parseSignalstats_from_match (stderr key : string) (v : num) :
  parseSignalstats stderr !! key = Some v ->
  exists text, In (key, text) (execAll 0 stderr) /\ v = StringToNumber text.
Proof.
  intros H. apply fold_insert_from in H as [H|H]; [| exact H].
  rewrite lookup_empty in H. discriminate.
Qed.

(** X.  Whatever the text, each property of the object that
    [parseSignalstats] returns has a name made of capital letters, at least
    one, and a value that is NaN, [+Infinity] or a rational that is not
    negative; a text without the marker gives the empty object. *)
Theorem parseSignalstats_properties (stderr : string) :
  (forall key v, parseSignalstats stderr !! key = Some v ->
     key <> EmptyString /\ allChars isUpper key = true /\ notNegative v)
  /\ (allChars notMarkerStart stderr = true -> parseSignalstats stderr = ∅).
Proof.
  split.
  - intros key v Hv. split; [| split].
    + destruct (parseSignalstats_from_match _ _ _ Hv) as (text & Hin & _).
      now apply execAll_keys in Hin.
    + destruct (parseSignalstats_from_match _ _ _ Hv) as (text & Hin & _).
      now apply execAll_keys in Hin.
    + now apply parseSignalstats_notNegative in Hv.
  - intros Hjunk. unfold parseSignalstats.
    rewrite <- (append_nil_r stderr). now rewrite execAll_junk.
Qed.

Lemma parseSignalstats_properties_witness :
  notNegative (Fin 120).
Proof.
  apply (proj1 (parseSignalstats_properties (renderLines sampleLines))
           "YAVG"%string (Fin 120)).
  vm_compute. reflexivity.
Defined.

(** ** [uniqueWithGap] *)

Lemma lastOf_snoc {A : Type} (l : list A) (x : A) : lastOf (l ++ [x]) = Some x.
Proof.
  induction l as [|y l IH]; [reflexivity |].
  cbn [app lastOf]. rewrite IH. now destruct (l ++ [x]) eqn:E; [destruct l |].
Qed.

Lemma Sorted_snoc {A : Type} (R : A -> A -> Prop) (l : list A) (x : A) :
  Sorted R l -> (forall a, lastOf l = Some a -> R a x) -> Sorted R (l ++ [x]).
Proof.
  induction l as [|a l IH]; intros Hl Hx; cbn [app].
  - repeat constructor.
  - apply Sorted_inv in Hl as [Hl Ha]. constructor.
    + apply IH; [assumption |]. intros b Hb. apply Hx.
      cbn [lastOf]. now destruct l.
    + destruct l as [|b l]; cbn [app]; constructor.
      * apply Hx. reflexivity.
      * now inversion Ha.
Qed.

(** The loop appends to [out] entries of [times], in their order. *)
Lemma uniqueLoop_appends (gap : num) (times : list num) :
  forall out, exists added,
    uniqueLoop gap times out = out ++ added /\ sublist added times.
Proof.
  induction times as [|t rest IH]; intros out; cbn [uniqueLoop].
  - exists []. split; [now rewrite app_nil_r | constructor].
  - match goal with
    | |- context [if ?b then _ else _] => destruct b
    end.
    + destruct (IH (out ++ [t])) as (added & -> & Hsub).
      exists (t :: added). split; [now rewrite <- app_assoc | now constructor].
    + destruct (IH out) as (added & -> & Hsub).
      exists added. split; [reflexivity | now constructor].
Qed.

(** It keeps neighbours [gap] apart. *)
Lemma uniqueLoop_sorted (gap : num) (times : list num) :
  forall out, Sorted (gapped gap) out -> Sorted (gapped gap) (uniqueLoop gap times out).
Proof.
  induction times as [|t rest IH]; intros out Hout; cbn [uniqueLoop]; [assumption |].
  destruct (lastOf out) as [l|] eqn:Hlast.
  - destruct (nabs (t - l) >=? gap)%num eqn:Hgap; apply IH; [| assumption].
    apply Sorted_snoc; [assumption |]. intros a Ha.
    rewrite Hlast in Ha. injection Ha as <-. exact Hgap.
  - apply IH. apply Sorted_snoc; [assumption |]. intros a Ha.
    rewrite Hlast in Ha. discriminate.
Qed.

(** Times whose neighbours are [gap] apart are all kept. *)
Lemma uniqueLoop_keeps_all (gap : num) (times : list num) :
  forall out,
    Sorted (gapped gap) times ->
    (forall a t, lastOf out = Some a -> hd_error times = Some t -> gapped gap a t) ->
    uniqueLoop gap times out = out ++ times.
Proof.
  induction times as [|t rest IH]; intros out Hs Hlink; cbn [uniqueLoop].
  - now rewrite app_nil_r.
  - apply Sorted_inv in Hs as [Hs Ht].
    assert (Hkeep : match lastOf out with
                    | Some l => (nabs (t - l) >=? gap)%num
                    | None => true
                    end = true).
    { destruct (lastOf out) as [l|] eqn:Hlast; [| reflexivity].
      now apply (Hlink l t). }
    rewrite Hkeep, IH; [now rewrite <- app_assoc | assumption |].
    intros a u Ha Hu. rewrite lastOf_snoc in Ha. injection Ha as <-.
    destruct rest as [|u' rest]; [discriminate | injection Hu as <-].
    now inversion Ht.
Qed.

Lemma nabs_round64_nonneg (q : Q) : 0 <= q -> num_eq (nabs (round64 q)) (round64 q).
Proof.
  intros Hq. pose proof (roundNearest_nonneg q Hq) as Hr.
  destruct (round64_cases q) as [-> | [[-> _] | [_ Hneg]]].
  - cbn [nabs num_eq]. now apply Qabs_pos.
  - exact I.
  - exfalso. lra.
Qed.

(** Between ascending finite numbers a distance only grows towards the
    outside, also when it is rounded. *)
Lemma gapped_wider (gap : num) (a b c : Q) :
  a <= b -> b <= c -> gapped gap (Fin b) (Fin c) -> gapped gap (Fin a) (Fin c).
Proof.
  unfold gapped, nge. intros Hab Hbc. rewrite !sub64_Fin. intros H.
  rewrite (nle_num_eq gap gap _ _ (num_eq_refl gap)
             (nabs_round64_nonneg (c - b) ltac:(lra))) in H.
  rewrite (nle_num_eq gap gap _ _ (num_eq_refl gap)
             (nabs_round64_nonneg (c - a) ltac:(lra))).
  apply nle_trans with (1 := H). apply round64_mono. lra.
Qed.

Lemma sublist_StronglySorted {A : Type} (R : A -> A -> Prop) (l k : list A) :
  sublist l k -> StronglySorted R k -> StronglySorted R l.
Proof.
  induction 1 as [|x l k Hsub IH|x l k Hsub IH]; intros Hk.
  - constructor.
  - apply StronglySorted_inv in Hk as [Hk Hx]. constructor; [now apply IH |].
    rewrite List.Forall_forall in *. intros y Hy. apply Hx.
    apply list_elem_of_In. apply (sublist_subseteq _ _ Hsub). now apply list_elem_of_In.
  - apply StronglySorted_inv in Hk as [Hk _]. now apply IH.
Qed.

(** Of ascending finite numbers with neighbours [gap] apart every two are
    [gap] apart. *)
Lemma gapped_all_pairs (gap : num) (l : list Q) :
  StronglySorted Qle l -> Sorted (gapped gap) (map Fin l) ->
  StronglySorted (gapped gap) (map Fin l).
Proof.
  induction l as [|a l IH]; intros Hasc Hadj; cbn [map] in *; [constructor |].
  apply StronglySorted_inv in Hasc as [Hasc Ha].
  apply Sorted_inv in Hadj as [Hadj Hhd].
  specialize (IH Hasc Hadj). constructor; [exact IH |].
  destruct l as [|b l]; cbn [map] in *; [constructor |].
  apply HdRel_inv in Hhd.
  apply StronglySorted_inv in IH as [_ Hb].
  apply List.Forall_cons_iff in Ha as [Hab Ha].
  apply StronglySorted_inv in Hasc as [_ Hbl].
  constructor; [exact Hhd |].
  rewrite List.Forall_forall in *. intros y Hy.
  apply in_map_iff in Hy as (c & <- & Hc).
  apply (gapped_wider gap a b c); [assumption | now apply Hbl |].
  apply Hb. now apply in_map.
Qed.

Lemma sublist_map_Fin (r : list num) (l : list Q) :
  sublist r (map Fin l) -> exists l', r = map Fin l' /\ sublist l' l.
Proof.
  revert r. induction l as [|a l IH]; intros r H; cbn [map] in H.
  - apply sublist_nil_r in H as ->. exists []. split; [reflexivity | constructor].
  - inversion H as [|x r1 k Hsub|x r1 k Hsub]; subst.
    + destruct (IH _ Hsub) as (l' & -> & Hl').
      exists (a :: l'). split; [reflexivity | now constructor].
    + destruct (IH _ Hsub) as (l' & -> & Hl').
      exists l'. split; [reflexivity | now constructor].
Qed.

(** X.  [uniqueWithGap] returns entries of its input in their order,
    starting with the first one, so that neighbours in the result are at
    least the gap apart; it returns an input whose neighbours are that far
    apart unchanged, so that applying it twice is applying it once. *)
Theorem uniqueWithGap_filters (times : list num) (gap : num) :
  sublist (uniqueWithGap times gap) times
  /\ hd_error (uniqueWithGap times gap) = hd_error times
  /\ Sorted (gapped gap) (uniqueWithGap times gap)
  /\ (Sorted (gapped gap) times -> uniqueWithGap times gap = times)
  /\ uniqueWithGap (uniqueWithGap times gap) gap = uniqueWithGap times gap.
Proof.
  assert (Hsorted : Sorted (gapped gap) (uniqueWithGap times gap)).
  { apply uniqueLoop_sorted. constructor. }
  assert (Hfix : forall l, Sorted (gapped gap) l -> uniqueWithGap l gap = l).
  { intros l Hl. unfold uniqueWithGap. rewrite uniqueLoop_keeps_all; [reflexivity | assumption |].
    intros a t Ha. discriminate. }
  split; [| split; [| split; [exact Hsorted | split; [apply Hfix | now apply Hfix]]]].
  - unfold uniqueWithGap. destruct (uniqueLoop_appends gap times []) as (added & -> & Hsub).
    exact Hsub.
  - unfold uniqueWithGap. destruct times as [|t rest]; [reflexivity |].
    cbn [uniqueLoop lastOf app hd_error].
    destruct (uniqueLoop_appends gap rest [t]) as (added & -> & _). reflexivity.
Qed.

Lemma uniqueWithGap_filters_witness :
  uniqueWithGap [Fin 1; Fin 3; Fin 5] (Fin 2) = [Fin 1; Fin 3; Fin 5].
Proof.
  apply (proj1 (proj2 (proj2 (proj2
           (uniqueWithGap_filters [Fin 1; Fin 3; Fin 5] (Fin 2)))))).
  repeat constructor.
Defined.

(** X.  On ascending finite times every two entries that [uniqueWithGap]
    returns are at least the gap apart, and the result is ascending. *)
Theorem uniqueWithGap_sorted_input (times : list Q) (gap : num) :
  StronglySorted Qle times ->
  exists kept : list Q,
    uniqueWithGap (map Fin times) gap = map Fin kept
    /\ StronglySorted Qle kept
    /\ StronglySorted (gapped gap) (map Fin kept).
Proof.
  intros Hasc.
  assert (Hsub : sublist (uniqueWithGap (map Fin times) gap) (map Fin times)).
  { unfold uniqueWithGap.
    destruct (uniqueLoop_appends gap (map Fin times) []) as (added & -> & Hsub).
    exact Hsub. }
  destruct (sublist_map_Fin _ _ Hsub) as (kept & Hkept & Hk).
  exists kept. split; [exact Hkept |].
  assert (Hasc' : StronglySorted Qle kept) by now apply (sublist_StronglySorted _ _ _ Hk).
  split; [exact Hasc' |].
  apply gapped_all_pairs; [exact Hasc' |].
  rewrite <- Hkept. apply uniqueLoop_sorted. constructor.
Qed.

Lemma uniqueWithGap_sorted_input_witness :
  exists kept : list Q,
    uniqueWithGap (map Fin [1; 1.5; 3; 3.2; 6]) (Fin 2) = map Fin kept.
Proof.
  destruct (uniqueWithGap_sorted_input [1; 1.5; 3; 3.2; 6] (Fin 2)) as (kept & H & _).
  - repeat constructor; discriminate.
  - exists kept. exact H.
Defined.

(** ** The routes *)

Lemma autoPickTop5Times_picks (w : World) (video : string) (d : Q)
    (picks : list Scored) :
  autoPickTop5Times w video = Ok (d, picks) ->
  (length picks <= 5)%nat /\ chronological picks.
Proof.
  unfold autoPickTop5Times.
  destruct (ffprobeDurationSeconds w video) as [dur|e];
    cbn [mbind result_bind]; [| discriminate].
  destruct (scoreLoop w video (makeCandidateTimes (Fin dur) 180) 0 []) as [scored|e];
    cbn [mbind result_bind]; [| discriminate].
  intros [= <- <-]. split; [apply selectTop_length | apply selectTop_chronological].
Qed.

Lemma autoPickTop5Times_ok (w : World) (video : string) (duration : Q) :
  ffprobeDurationSeconds w video = Ok duration ->
  (forall k t, nth_error (makeCandidateTimes (Fin duration) 180) k = Some t ->
     extractJpgAt w video t {| frameIndex := k; frameTs := t |} (Some 320%Z) = Ok tt) ->
  exists picks : list Scored, autoPickTop5Times w video = Ok (duration, picks).
Proof.
  intros Hprobe Hall.
  destruct (scoreLoop_ok w video (makeCandidateTimes (Fin duration) 180) 0%nat [])
    as (scored & Hloop & _); [exact Hall |].
  exists (selectTop (Fin duration) scored).
  unfold autoPickTop5Times. rewrite Hprobe. cbn [mbind result_bind].
  now rewrite Hloop.
Qed.

Lemma thumbLoop_ok (w : World) (video : string) :
  forall (picks : list Scored) (i : nat) (files : list FramePath),
    (i + length picks <= 5)%nat ->
    (forall k p, nth_error picks k = Some p ->
       extractJpgAt w video (ts p) (thumbPath (i + k) p) None = Ok tt) ->
    exists added : list FramePath,
      thumbLoop w video picks i files = Ok (files ++ added)
      /\ length added = length picks
      /\ forall k p, nth_error picks k = Some p ->
           nth_error added k = Some (thumbPath (i + k) p).
Proof.
  induction picks as [|p rest IH]; intros i files Hlen Hall.
  - exists []. rewrite app_nil_r. repeat split. intros [|k] q; discriminate.
  - cbn [thumbLoop]. cbn [length] in Hlen.
    destruct (5 <=? i)%nat eqn:E; [apply Nat.leb_le in E; lia |].
    pose proof (Hall 0%nat p eq_refl) as Hp. rewrite Nat.add_0_r in Hp. rewrite Hp.
    cbn [mbind result_bind].
    destruct (IH (S i) (files ++ [thumbPath i p])) as (added & -> & Hl & Hnth).
    { lia. }
    { intros k q Hk. rewrite Nat.add_succ_comm. now apply (Hall (S k)). }
    exists (thumbPath i p :: added). rewrite <- app_assoc.
    split; [reflexivity |]. split; [cbn [length]; now rewrite Hl |].
    intros [|k] q Hk.
    + cbn in Hk. injection Hk as <-. now rewrite Nat.add_0_r.
    + cbn [nth_error] in Hk |- *. rewrite <- Nat.add_succ_comm. now apply Hnth.
Qed.

Lemma thumbLoop_throws (w : World) (video : string) (e : string) :
  forall (picks : list Scored) (i : nat) (files : list FramePath) (k : nat)
         (p : Scored),
    (i + k < 5)%nat ->
    nth_error picks k = Some p ->
    (forall j q, (j < k)%nat -> nth_error picks j = Some q ->
       extractJpgAt w video (ts q) (thumbPath (i + j) q) None = Ok tt) ->
    extractJpgAt w video (ts p) (thumbPath (i + k) p) None = Throw e ->
    thumbLoop w video picks i files = Throw e.
Proof.
  induction picks as [|p0 rest IH]; intros i files k p Hik Hk Hbefore Hfail.
  - destruct k; discriminate.
  - cbn [thumbLoop].
    destruct (5 <=? i)%nat eqn:E; [apply Nat.leb_le in E; lia |].
    destruct k as [|k].
    + cbn in Hk. injection Hk as ->. rewrite Nat.add_0_r in Hfail.
      now rewrite Hfail.
    + pose proof (Hbefore 0%nat p0 ltac:(lia) eq_refl) as H0.
      rewrite Nat.add_0_r in H0. rewrite H0. cbn [mbind result_bind].
      apply (IH (S i) _ k p); [lia | exact Hk | | now rewrite Nat.add_succ_comm].
      intros j q Hj Hq. rewrite Nat.add_succ_comm. apply (Hbefore (S j)); [lia | exact Hq].
Qed.

(** X.  The archive holds every pick.  When the selection run returns
    [picks] and each of them can be extracted at full size, the route
    produces one file per pick, in the order of the picks and numbered from
    1: the bound [Math.min(5, picks.length)] never leaves a pick out. *)
Theorem top5Files_every_pick (w : World) (video : string) (d : Q)
    (picks : list Scored) :
  autoPickTop5Times w video = Ok (d, picks) ->
  (forall k p, nth_error picks k = Some p ->
     extractJpgAt w video (ts p) (thumbPath k p) None = Ok tt) ->
  exists files : list FramePath,
    top5Files w video = Ok files
    /\ length files = length picks
    /\ forall k p, nth_error picks k = Some p ->
         nth_error files k = Some {| frameIndex := S k; frameTs := ts p |}.
Proof.
  intros Hrun Hall. destruct (autoPickTop5Times_picks w video d picks Hrun) as [Hlen _].
  destruct (thumbLoop_ok w video picks 0%nat []) as (files & Hloop & Hl & Hnth);
    [exact Hlen | exact Hall |].
  exists files. unfold top5Files. rewrite Hrun. cbn [mbind result_bind snd].
  rewrite Hloop. repeat split; [exact Hl |].
  intros k p Hk. now rewrite (Hnth k p Hk).
Qed.

Lemma top5Files_every_pick_witness :
  exists (picks : list Scored) (files : list FramePath),
    autoPickTop5Times idealFrameWorld "video.mp4" = Ok (60.000000, picks)
    /\ top5Files idealFrameWorld "video.mp4" = Ok files
    /\ length files = length picks.
Proof.
  destruct (autoPickTop5Times_ok idealFrameWorld "video.mp4" 60.000000)
    as (picks & Hrun); [reflexivity | intros k t _; reflexivity |].
  destruct (top5Files_every_pick idealFrameWorld "video.mp4" 60.000000 picks Hrun)
    as (files & Hfiles & Hlen & _); [intros k p _; reflexivity |].
  exists picks, files. split; [exact Hrun | split; assumption].
Defined.

(** X.  The archive fails with the first frame that fails.  When the
    extraction of a pick at full size is rejected after those of the picks
    before it succeeded, the route is left with that rejection: no file of
    the picks behind it is made and no partial archive is sent. *)
Theorem top5Files_failure (w : World) (video : string) (d : Q)
    (picks : list Scored) (k : nat) (p : Scored) (e : string) :
  autoPickTop5Times w video = Ok (d, picks) ->
  nth_error picks k = Some p ->
  (forall j q, (j < k)%nat -> nth_error picks j = Some q ->
     extractJpgAt w video (ts q) (thumbPath j q) None = Ok tt) ->
  extractJpgAt w video (ts p) (thumbPath k p) None = Throw e ->
  top5Files w video = Throw e.
Proof.
  intros Hrun Hk Hbefore Hfail.
  destruct (autoPickTop5Times_picks w video d picks Hrun) as [Hlen _].
  unfold top5Files. rewrite Hrun. cbn [mbind result_bind snd].
  apply (thumbLoop_throws w video e picks 0%nat [] k p); try assumption.
  assert (k < length picks)%nat by (apply List.nth_error_Some; congruence). lia.
Qed.

Lemma top5Files_failure_witness :
  top5Files fullSizeFailsWorld "video.mp4" = Throw "Conversion failed!".
Proof.
  destruct (autoPickTop5Times fullSizeFailsWorld "video.mp4") as [[d picks]|e] eqn:Hrun;
    [| vm_compute in Hrun; discriminate].
  pose proof Hrun as Hpicks. vm_compute in Hpicks. injection Hpicks as _ Hpicks.
  destruct picks as [|p picks]; [discriminate |].
  apply (top5Files_failure fullSizeFailsWorld "video.mp4" d (p :: picks) 0 p);
    [exact Hrun | reflexivity | intros j q Hj; inversion Hj | reflexivity].
Defined.

Lemma captionLoop_ok (w : World) (video : string) :
  forall (chosen : list num) (i : nat) (framePaths : list FramePath),
    (forall k t, nth_error chosen k = Some t ->
       extractJpgAt w video t (capPath (i + k) t) None = Ok tt) ->
    exists added : list FramePath,
      captionLoop w video chosen i framePaths = Ok (framePaths ++ added)
      /\ length added = length chosen
      /\ forall k t, nth_error chosen k = Some t ->
           nth_error added k = Some (capPath (i + k) t).
Proof.
  induction chosen as [|t rest IH]; intros i files Hall.
  - exists []. rewrite app_nil_r. repeat split. intros [|k] q; discriminate.
  - cbn [captionLoop].
    pose proof (Hall 0%nat t eq_refl) as Ht. rewrite Nat.add_0_r in Ht. rewrite Ht.
    cbn [mbind result_bind].
    destruct (IH (S i) (files ++ [capPath i t])) as (added & -> & Hl & Hnth).
    { intros k q Hk. rewrite Nat.add_succ_comm. now apply (Hall (S k)). }
    exists (capPath i t :: added). rewrite <- app_assoc.
    split; [reflexivity |]. split; [cbn [length]; now rewrite Hl |].
    intros [|k] q Hk.
    + cbn in Hk. injection Hk as <-. now rewrite Nat.add_0_r.
    + cbn [nth_error] in Hk |- *. rewrite <- Nat.add_succ_comm. now apply Hnth.
Qed.

Lemma In_firstn_or_skipn {A : Type} (n : nat) (l : list A) (x : A) :
  In x (firstn n l) \/ In x (skipn n l) -> In x l.
Proof.
  intros H. rewrite <- (firstn_skipn n l). apply in_or_app. exact H.
Qed.

Lemma chronological_split (l : list Scored) (n : nat) :
  chronological l ->
  forall a b, In a (firstn n l) -> In b (skipn n l) -> nlt (ts a) (ts b) = true.
Proof.
  intros Hs. revert n. induction Hs as [|x l Hs IH Hx]; intros n a b Ha Hb.
  - rewrite firstn_nil in Ha. destruct Ha.
  - destruct n as [|n]; [destruct Ha |]. cbn [firstn skipn] in Ha, Hb.
    destruct Ha as [<- | Ha].
    + rewrite List.Forall_forall in Hx. apply Hx. apply (In_firstn_or_skipn n). now right.
    + now apply (IH n).
Qed.

Lemma chronological_firstn (l : list Scored) (n : nat) :
  chronological l -> ascending (map ts (firstn n l)).
Proof.
  intros Hs. revert n. induction Hs as [|x l Hs IH Hx]; intros n.
  - rewrite firstn_nil. constructor.
  - destruct n as [|n]; [constructor |]. cbn [firstn map]. constructor; [apply IH |].
    rewrite List.Forall_forall in Hx |- *. intros t Ht.
    apply in_map_iff in Ht as (p & <- & Hp). apply Hx. apply (In_firstn_or_skipn n). now left.
Qed.

(** X.  The frames of a caption are those of the three earliest picks, not
    of the three best.  When the selection run returns [picks] and the chosen
    frames can be extracted, the route makes one frame per chosen timestamp,
    at most three, numbered from 1; the chosen timestamps ascend, and every
    pick that is left out lies after all of them, whatever its score. *)
Theorem captionFrames_earliest (w : World) (video : string) (d : Q)
    (picks : list Scored) :
  autoPickTop5Times w video = Ok (d, picks) ->
  (forall k t, nth_error (chosenOf picks) k = Some t ->
     extractJpgAt w video t (capPath k t) None = Ok tt) ->
  exists framePaths : list FramePath,
    captionFrames w video = Ok framePaths
    /\ length framePaths = Nat.min 3 (length picks)
    /\ (forall k p, (k < 3)%nat -> nth_error picks k = Some p ->
          nth_error framePaths k = Some {| frameIndex := S k; frameTs := ts p |})
    /\ ascending (chosenOf picks)
    /\ (forall k p t, (3 <= k)%nat -> nth_error picks k = Some p ->
          In t (chosenOf picks) -> nlt t (ts p) = true).
Proof.
  intros Hrun Hall. destruct (autoPickTop5Times_picks w video d picks Hrun) as [_ Hchrono].
  destruct (captionLoop_ok w video (chosenOf picks) 0%nat []) as (frames & Hloop & Hl & Hnth);
    [exact Hall |].
  exists frames. unfold captionFrames. rewrite Hrun. cbn [mbind result_bind snd].
  rewrite Hloop. split; [reflexivity |]. split; [| split; [| split]].
  - rewrite Hl. unfold chosenOf. now rewrite length_map, length_firstn.
  - intros k p Hk Hp. apply (Hnth k (ts p)). unfold chosenOf.
    rewrite nth_error_map, nth_error_firstn.
    destruct (k <? 3)%nat eqn:E; [now rewrite Hp |].
    apply Nat.ltb_ge in E. lia.
  - now apply chronological_firstn.
  - intros k p t Hk Hp Ht. unfold chosenOf in Ht.
    apply in_map_iff in Ht as (a & <- & Ha).
    apply (chronological_split picks 3 Hchrono a p Ha).
    rewrite <- (firstn_skipn 3 picks) in Hp.
    rewrite nth_error_app2 in Hp; [| rewrite length_firstn; lia].
    now apply nth_error_In in Hp.
Qed.

Lemma captionFrames_earliest_witness :
  exists framePaths : list FramePath,
    captionFrames idealFrameWorld "video.mp4" = Ok framePaths
    /\ length framePaths = 3%nat.
Proof.
  destruct (autoPickTop5Times idealFrameWorld "video.mp4") as [[d picks]|e] eqn:Hrun;
    [| vm_compute in Hrun; discriminate].
  pose proof Hrun as Hpicks. vm_compute in Hpicks. injection Hpicks as _ Hpicks.
  destruct (captionFrames_earliest idealFrameWorld "video.mp4" d picks Hrun)
    as (frames & Hframes & Hlen & _); [intros k t _; reflexivity |].
  exists frames. split; [exact Hframes |]. rewrite Hlen, <- Hpicks. reflexivity.
Defined.

(** ** The timestamp of a manual thumbnail *)

(** X.  A timestamp given in the request never makes the route fail and
    never asks for the duration.  For each [ts] other than [mid] the
    timestamp is the number that [ts] converts to when that is finite and not
    negative, and 0 otherwise: a negative number, an infinite one and a text
    that is no number all give 0, and there is no upper bound. *)
Theorem thumbnailSeconds_given (w : World) (video tsParam : string) :
  tsParam <> "" -> tsParam <> "mid" ->
  exists s : Q,
    thumbnailSeconds w video (Some tsParam) = Ok s
    /\ 0 <= s
    /\ (forall w' video', thumbnailSeconds w' video' (Some tsParam) = Ok s)
    /\ (forall n, StringToNumber tsParam = Fin n -> 0 <= n -> s == n)
    /\ (forall n, StringToNumber tsParam = Fin n -> n <= 0 -> s == 0)
    /\ (isFinite (StringToNumber tsParam) = false -> s = 0).
Proof.
  intros Hne Hmid.
  assert (E1 : (tsParam =? "")%string = false) by now apply String.eqb_neq.
  assert (E2 : (tsParam =? "mid")%string = false) by now apply String.eqb_neq.
  unfold thumbnailSeconds, tsParamOf. rewrite E1, E2.
  eexists. split; [reflexivity |].
  destruct (StringToNumber tsParam) as [n| | |].
  - split; [apply Q.le_max_l |]. split; [reflexivity |].
    split; [| split].
    + intros m [= <-] Hm. now apply Q.max_r.
    + intros m [= <-] Hm. now apply Q.max_l.
    + discriminate.
  - repeat split; try discriminate; apply Qle_refl.
  - repeat split; try discriminate; apply Qle_refl.
  - repeat split; try discriminate; apply Qle_refl.
Qed.

Lemma thumbnailSeconds_given_witness :
  exists s : Q, thumbnailSeconds noProbeWorld "video.mp4" (Some "2.5") = Ok s /\ s == 2.5.
Proof.
  destruct (thumbnailSeconds_given noProbeWorld "video.mp4" "2.5")
    as (s & Hs & _ & _ & Hn & _); [discriminate | discriminate |].
  exists s. split; [exact Hs |].
  apply (Hn 2.5); [reflexivity | discriminate].
Defined.

(** X.  Without a timestamp the route takes the middle of the video.  A
    request with no [ts], with an empty one or with [mid] asks the prober:
    the timestamp is half the duration, 0 for a negative duration, and a
    failure of the prober is the failure of the request. *)
Theorem thumbnailSeconds_mid (w : World) (video : string) (query : option string) :
  query = None \/ query = Some "" \/ query = Some "mid" ->
  match ffprobeDurationSeconds w video with
  | Ok dur =>
      exists s : Q,
        thumbnailSeconds w video query = Ok s
        /\ 0 <= s
        /\ (0 <= dur -> s == dur / 2)
        /\ (dur <= 0 -> s == 0)
  | Throw e => thumbnailSeconds w video query = Throw e
  end.
Proof.
  intros Hq.
  assert (E : tsParamOf query = "mid") by now destruct Hq as [-> | [-> | ->]].
  unfold thumbnailSeconds. rewrite E. cbn [String.eqb Ascii.eqb Bool.eqb].
  change ("mid" =? "mid")%string with true. cbv iota.
  destruct (ffprobeDurationSeconds w video) as [dur|e]; cbn [mbind result_bind];
    [| reflexivity].
  eexists. split; [reflexivity |]. split; [apply Q.le_max_l |]. split.
  - intros Hd. rewrite Q.max_r; [field | lra].
  - intros Hd. rewrite Q.max_l; [reflexivity | lra].
Qed.

Lemma thumbnailSeconds_mid_witness :
  exists s : Q, thumbnailSeconds idealFrameWorld "video.mp4" None = Ok s /\ s == 30.
Proof.
  pose proof (thumbnailSeconds_mid idealFrameWorld "video.mp4" None (or_introl eq_refl))
    as H.
  change (ffprobeDurationSeconds idealFrameWorld "video.mp4") with (@Ok Q 60.000000) in H.
  destruct H as (s & Hs & _ & Hhalf & _).
  exists s. split; [exact Hs |]. rewrite Hhalf; [reflexivity | discriminate].
Defined.

(** ** The port *)

Lemma StringToNumber_blank_text (s : string) :
  allChars isWhiteSpace s = true -> StringToNumber s = Fin 0.
Proof.
  intros H. unfold StringToNumber, trim. now rewrite (trimStart_blank s H).
Qed.

(** X.  The server always gets a port to listen on that is neither 0 nor
    NaN.  It is 5050 when [PORT] is unset, empty or blank, when it is no
    number and when it is a zero; each other number is taken as it is, be it
    negative, fractional or infinite. *)
Theorem serverPort_fallback (envPort : option string) :
  truthy (serverPort envPort) = true
  /\ (envPort = None -> serverPort envPort = Fin 5050)
  /\ (forall s, envPort = Some s -> allChars isWhiteSpace s = true ->
        serverPort envPort = Fin 5050)
  /\ (forall s, envPort = Some s -> StringToNumber s = NaN ->
        serverPort envPort = Fin 5050)
  /\ (forall s q, envPort = Some s -> StringToNumber s = Fin q -> q == 0 ->
        serverPort envPort = Fin 5050)
  /\ (forall s, envPort = Some s -> truthy (StringToNumber s) = true ->
        serverPort envPort = StringToNumber s).
Proof.
  split; [| split; [| split; [| split; [| split]]]].
  - unfold serverPort.
    destruct (truthy (match envPort with Some s => StringToNumber s | None => NaN end))
      eqn:E; [exact E | reflexivity].
  - now intros ->.
  - intros s -> Hs. unfold serverPort. now rewrite StringToNumber_blank_text.
  - intros s -> Hs. unfold serverPort. now rewrite Hs.
  - intros s q -> Hs Hq. unfold serverPort. rewrite Hs. cbn [truthy].
    apply Qeq_bool_iff in Hq. now rewrite Hq.
  - intros s -> Hs. unfold serverPort. now rewrite Hs.
Qed.

Lemma serverPort_fallback_witness :
  serverPort (Some "  ") = Fin 5050
  /\ serverPort (Some "8080") = StringToNumber "8080"
  /\ serverPort (Some "-0.5") = StringToNumber "-0.5".
Proof.
  split; [| split].
  - apply (proj1 (proj2 (proj2 (serverPort_fallback (Some "  ")))) "  ");
      reflexivity.
  - apply (proj2 (proj2 (proj2 (proj2 (proj2 (serverPort_fallback (Some "8080")))))));
      reflexivity.
  - apply (proj2 (proj2 (proj2 (proj2 (proj2 (serverPort_fallback (Some "-0.5")))))));
      reflexivity.
Defined.

(** ** The name of an upload *)

Lemma allChars_app (p : ascii -> bool) (a b : string) :
  allChars p (a +:+ b) = allChars p a && allChars p b.
Proof.
  induction a as [|c a IH]; [reflexivity |].
  rewrite append_cons. cbn [allChars]. now rewrite IH, andb_assoc.
Qed.

Lemma pretty_N_char_digit (x : N) : isDigit (pretty_N_char x) = true.
Proof. unfold pretty_N_char. repeat case_match; reflexivity. Qed.

Lemma pretty_N_go_digits (x : N) :
  forall s, exists p, pretty_N_go x s = p +:+ s /\ allChars isDigit p = true.
Proof.
  induction (N.lt_wf_0 x) as [x _ IH]; intros s.
  destruct (N.eq_dec x 0%N) as [-> | Hx].
  - exists EmptyString. now rewrite pretty_N_go_0.
  - rewrite pretty_N_go_step by lia.
    destruct (IH (x `div` 10)%N ltac:(apply N.div_lt; lia)
                (String (pretty_N_char (x `mod` 10)) s)) as (p & -> & Hp).
    exists (p +:+ String (pretty_N_char (x `mod` 10)) EmptyString). split.
    + now rewrite append_assoc, append_cons, append_nil_l.
    + rewrite allChars_app, Hp. cbn [allChars]. now rewrite pretty_N_char_digit.
Qed.

(** The decimal numeral of a number: digits, and at least one. *)
Lemma pretty_N_shape (x : N) :
  exists c r, pretty x = String c r /\ allChars isDigit (String c r) = true.
Proof.
  unfold pretty, pretty_N. destruct (decide (x = 0%N)) as [_ | Hx].
  - now exists "0"%char, EmptyString.
  - rewrite pretty_N_go_step by lia.
    destruct (pretty_N_go_digits (x `div` 10)%N
                (String (pretty_N_char (x `mod` 10)) EmptyString)) as (p & -> & Hp).
    assert (H : allChars isDigit
                  (p +:+ String (pretty_N_char (x `mod` 10)) EmptyString) = true).
    { rewrite allChars_app, Hp. cbn [allChars]. now rewrite pretty_N_char_digit. }
    destruct p as [|c p].
    + rewrite append_nil_l in H |- *. eauto.
    + rewrite append_cons in H |- *. eauto.
Qed.

Lemma replaceSpaceRuns_noSpace (s : string) :
  forall inRun, noSpace (replaceSpaceRuns inRun s).
Proof.
  unfold noSpace. induction s as [|c s IH]; intros inRun; [reflexivity |].
  cbn [replaceSpaceRuns]. destruct (isSpaceClass c) eqn:E.
  - destruct inRun; [apply IH |]. cbn [allChars]. now rewrite IH.
  - cbn [allChars]. now rewrite E, IH.
Qed.

Lemma replaceSpaceRuns_id (s : string) :
  noSpace s -> forall inRun, replaceSpaceRuns inRun s = s.
Proof.
  unfold noSpace. induction s as [|c s IH]; intros H inRun; [reflexivity |].
  cbn [allChars] in H. apply andb_true_iff in H as [Hc Hs].
  cbn [replaceSpaceRuns]. apply negb_true_iff in Hc. rewrite Hc.
  now rewrite IH.
Qed.

Lemma isDigit_not_space (c : ascii) : isDigit c = true -> isSpaceClass c = false.
Proof. unfold isDigit, isSpaceClass, isWhiteSpace. lia. Qed.

Lemma digits_noSpace (s : string) : allChars isDigit s = true -> noSpace s.
Proof.
  unfold noSpace. induction s as [|c s IH]; [reflexivity |]. cbn [allChars].
  intros H. apply andb_true_iff in H as [Hc Hs].
  now rewrite (isDigit_not_space c Hc), IH.
Qed.

(** Two texts that start with digits and an underscore agree on the digits
    and on the rest. *)
Lemma digits_underscore_inj (x y a b : string) :
  allChars isDigit x = true -> allChars isDigit y = true ->
  x +:+ String "_" a = y +:+ String "_" b -> x = y /\ a = b.
Proof.
  revert y. induction x as [|c x IH]; intros [|c' y] Hx Hy H.
  - rewrite !append_nil_l in H. now injection H as ->.
  - rewrite append_nil_l, append_cons in H. injection H as <- _.
    cbn [allChars] in Hy. discriminate.
  - rewrite append_nil_l, append_cons in H. injection H as -> _.
    cbn [allChars] in Hx. discriminate.
  - rewrite !append_cons in H. injection H as <- H.
    cbn [allChars] in Hx, Hy.
    apply andb_true_iff in Hx as [_ Hx]. apply andb_true_iff in Hy as [_ Hy].
    destruct (IH y Hx Hy H) as [-> ->]. now split.
Qed.

(** X.  The name under which an upload is stored has no white space, and it
    tells the time and the cleaned name apart.  A name without white space is
    kept as it is behind the time and an underscore; cleaning a cleaned name
    changes nothing; and two uploads get the same stored name only at the
    same millisecond and with names that are equal once cleaned. *)
Theorem uploadFilename_clean (now : N) (originalname : string) :
  noSpace (uploadFilename now originalname)
  /\ (noSpace originalname ->
        uploadFilename now originalname = pretty now +:+ "_" +:+ originalname)
  /\ replaceSpaceRuns false (replaceSpaceRuns false originalname)
     = replaceSpaceRuns false originalname
  /\ (forall now' originalname',
        uploadFilename now originalname = uploadFilename now' originalname' ->
        now = now'
        /\ replaceSpaceRuns false originalname = replaceSpaceRuns false originalname').
Proof.
  destruct (pretty_N_shape now) as (c & r & Hnow & Hdigits).
  split; [| split; [| split]].
  - unfold uploadFilename, noSpace. rewrite !allChars_app.
    rewrite Hnow. rewrite (digits_noSpace _ Hdigits).
    now rewrite (replaceSpaceRuns_noSpace originalname false).
  - intros H. unfold uploadFilename. now rewrite replaceSpaceRuns_id.
  - apply replaceSpaceRuns_id, replaceSpaceRuns_noSpace.
  - intros now' name' H. unfold uploadFilename in H.
    destruct (pretty_N_shape now') as (c' & r' & Hnow' & Hdigits').
    rewrite !append_cons, !append_nil_l in H.
    apply digits_underscore_inj in H as [Hp Hs];
      [| now rewrite Hnow | now rewrite Hnow'].
    split; [now apply (inj pretty) | exact Hs].
Qed.

Lemma uploadFilename_clean_witness :
  uploadFilename 1700000000123 "my clip.mp4" = "1700000000123_my_clip.mp4"
  /\ uploadFilename 1700000000123 "clip.mp4" = "1700000000123_clip.mp4".
Proof.
  split; [reflexivity |].
  apply (proj1 (proj2 (uploadFilename_clean 1700000000123 "clip.mp4"))).
  reflexivity.
Defined.
